(** * NFT holder reconstruction: [chaindata/eth-mainnet/process_nft_holders.py]

    The script replays ERC-721 [Transfer] logs into two dictionaries
    ([nft_owners] and [owner_tokens]), aggregates the second one into a list
    of holders sorted by token count, and sets out to write that list both
    as a JSON document and as a CSV file.

    The development embeds the script as Rocq functions.  Python text is
    modelled by [string], one [ascii] per character: the topics of a log are
    ASCII text, and on ASCII text [int(s, 16)] is the parser [Py.int16].
    Python integers are modelled by [Z], the plain dictionary [nft_owners]
    by a [gmap], and the insertion-ordered [defaultdict(list)]
    [owner_tokens] by an association list whose order is the insertion order
    of its keys (the order in which [.items()] yields them).  Exceptions are
    values of [py_error] threaded through a small error monad.  The script
    reads the name [FINALIZED_BLOCK], which no line of it binds: the read
    raises [NameError], and the model of the script ends there as the script
    does. *)

From Stdlib Require Import ZArith Ascii String DecimalString Decimal.
From Stdlib Require Import FunInd Recdef.
From stdpp Require Import base decidable option list gmap strings sorting.

Local Open Scope Z_scope.

(** ** Exceptions *)

Inductive py_error : Type :=
| KeyError (key : string)
| ValueError (literal : string)
| NameError (name : string).

Inductive result (A : Type) : Type :=
| Ok (a : A)
| Raise (e : py_error).

Arguments Ok {A} a.
Arguments Raise {A} e.

#[global] Instance result_bind : MBind result := λ A B k r,
  match r with
  | Ok a => k a
  | Raise e => Raise e
  end.

#[global] Instance result_ret : MRet result := λ A a, Ok a.

#[global] Instance result_fmap : FMap result := λ A B f r,
  match r with
  | Ok a => Ok (f a)
  | Raise e => Raise e
  end.

(** ** Python built-ins used by the script *)

Module Py.

(** [s[n:]] for a non-negative [n]. *)
Fixpoint drop_chars (n : nat) (s : string) : string :=
  match n, s with
  | S n', String _ s' => drop_chars n' s'
  | _, _ => s
  end.

(** [s[-40:]]: the last forty characters, or all of [s] when it is
    shorter. *)
Definition last40 (s : string) : string :=
  drop_chars (String.length s - 40) s.

(** [Py_ISSPACE] on an ASCII character. *)
Definition isspace (c : ascii) : bool :=
  let n := nat_of_ascii c in
  ((9 <=? n)%nat && (n <=? 13)%nat) || (n =? 32)%nat.

(** [_PyLong_DigitValue] restricted to base 16. *)
Definition digit_value (c : ascii) : option Z :=
  let n := Z.of_nat (nat_of_ascii c) in
  if (48 <=? n) && (n <=? 57) then Some (n - 48)
  else if (97 <=? n) && (n <=? 102) then Some (n - 87)
  else if (65 <=? n) && (n <=? 70) then Some (n - 55)
  else None.

Fixpoint skip_space (s : string) : string :=
  match s with
  | String c s' => if isspace c then skip_space s' else s
  | EmptyString => s
  end.

(** Optional sign: the result is the sign factor and the rest. *)
Definition read_sign (s : string) : Z * string :=
  match s with
  | String "+" s' => (1, s')
  | String "-" s' => (-1, s')
  | _ => (1, s)
  end.

(** Optional [0x] / [0X] prefix, after which one underscore may follow. *)
Definition read_prefix (s : string) : string :=
  match s with
  | String "0" (String "x" s') | String "0" (String "X" s') =>
      match s' with
      | String "_" s'' => s''
      | _ => s'
      end
  | _ => s
  end.

(** The digit loop of [long_from_binary_base]: digits separated by single
    underscores.  [prev_us] tells whether the previous character was an
    underscore; a doubled or trailing underscore is a syntax error.  The
    result is the value read, the number of digits and the unread rest. *)
Fixpoint scan_digits (s : string) (prev_us : bool) (acc : Z) (ndigits : nat)
  : option (Z * nat * string) :=
  match s with
  | EmptyString => if prev_us then None else Some (acc, ndigits, s)
  | String c s' =>
      if Ascii.eqb c "_" then
        if prev_us then None else scan_digits s' true acc ndigits
      else
        match digit_value c with
        | Some d => scan_digits s' false (16 * acc + d) (S ndigits)
        | None => if prev_us then None else Some (acc, ndigits, s)
        end
  end.

(** [int(s, 16)] on ASCII text ([PyLong_FromString] with base 16):
    [None] stands for the [ValueError] "invalid literal for int() with
    base 16". *)
Definition int16 (s : string) : option Z :=
  let '(sign, s1) := read_sign (skip_space s) in
  let s2 := read_prefix s1 in
  match s2 with
  | String "_" _ => None
  | _ =>
      match scan_digits s2 false 0 0 with
      | Some (v, n, rest) =>
          if (n =? 0)%nat then None
          else
            match skip_space rest with
            | EmptyString => Some (sign * v)
            | _ => None
            end
      | None => None
      end
  end.

(** [str(n)] for an integer. *)
Definition str (z : Z) : string := NilZero.string_of_int (Z.to_int z).

(** [sep.join(l)]. *)
Fixpoint join (sep : string) (l : list string) : string :=
  match l with
  | [] => EmptyString
  | [x] => x
  | x :: l' => x +:+ sep +:+ join sep l'
  end.

(** [l.remove(x)] when [x in l]: the first occurrence goes. *)
Fixpoint remove (x : Z) (l : list Z) : list Z :=
  match l with
  | [] => []
  | y :: l' => if decide (x = y) then l' else y :: remove x l'
  end.

(** A stable sort, the contract of [sorted] and [list.sort]: [le x y]
    tells that [x] may stand before [y].  An element is placed before the
    first element of the sorted tail that it may precede, so elements that
    compare equal keep their input order. *)
Section stable_sort.
Context {A : Type} (le : A → A → bool).

Fixpoint insert_sorted (x : A) (l : list A) : list A :=
  match l with
  | [] => [x]
  | y :: l' => if le x y then x :: l else y :: insert_sorted x l'
  end.

Fixpoint stable_sort (l : list A) : list A :=
  match l with
  | [] => []
  | x :: l' => insert_sorted x (stable_sort l')
  end.
End stable_sort.

(** [sorted(l)] on integers. *)
Definition sorted (l : list Z) : list Z := stable_sort Z.leb l.

End Py.

(** ** The replay state *)

(** A log entry as loaded by [json.load]: the script reads only its
    [topics] field; [None] is an entry without that key. *)
Record transfer : Type := { topics : option (list string) }.

(** [owner_tokens]: keys in insertion order, each with its token list. *)
Abbreviation owner_dict := (list (string * list Z)).

Record state : Type := {
  nft_owners : gmap Z string;
  owner_tokens : owner_dict
}.

Definition initial : state := {| nft_owners := ∅; owner_tokens := [] |}.

Definition ZERO_ADDRESS : string :=
  "0x0000000000000000000000000000000000000000".

(** Operations of [defaultdict(list)]. *)
Module DD.

Fixpoint get (k : string) (d : owner_dict) : option (list Z) :=
  match d with
  | [] => None
  | (k', v) :: d' => if decide (k = k') then Some v else get k d'
  end.

(** The list a subscript [d[k]] evaluates to. *)
Definition tokens (k : string) (d : owner_dict) : list Z :=
  default [] (get k d).

(** The effect of evaluating [d[k]]: a missing key is inserted, last,
    with an empty list. *)
Definition touch (k : string) (d : owner_dict) : owner_dict :=
  match get k d with
  | Some _ => d
  | None => (d ++ [(k, [])])%list
  end.

(** In-place mutation of the list stored under [k]. *)
Fixpoint alter (f : list Z → list Z) (k : string) (d : owner_dict)
  : owner_dict :=
  match d with
  | [] => []
  | (k', v) :: d' =>
      if decide (k = k') then (k', f v) :: d' else (k', v) :: alter f k d'
  end.

Definition keys (d : owner_dict) : list string := d.*1.

End DD.

(** ** The replay loop (lines 15-30) *)

Definition getitem_topics (tr : transfer) : result (list string) :=
  match topics tr with
  | Some tps => Ok tps
  | None => Raise (KeyError "topics")
  end.

Definition int_base16 (s : string) : result Z :=
  match Py.int16 s with
  | Some z => Ok z
  | None => Raise (ValueError s)
  end.

(** Lines 22-25. *)
Definition remove_from_previous_owner (token_id : Z) (st : state) : state :=
  match nft_owners st !! token_id with
  | Some prev_owner =>
      let d := DD.touch prev_owner (owner_tokens st) in
      if bool_decide (token_id ∈ DD.tokens prev_owner d) then
        {| nft_owners := nft_owners st;
           owner_tokens := DD.alter (Py.remove token_id) prev_owner d |}
      else
        {| nft_owners := nft_owners st; owner_tokens := d |}
  | None => st
  end.

(** Lines 28-30. *)
Definition add_to_new_owner (to_addr : string) (token_id : Z) (st : state)
  : state :=
  if decide (to_addr ≠ ZERO_ADDRESS) then
    {| nft_owners := <[token_id := to_addr]> (nft_owners st);
       owner_tokens :=
         DD.alter (λ l, (l ++ [token_id])%list) to_addr
                  (DD.touch to_addr (owner_tokens st)) |}
  else st.

Definition address_of_topic (topic : string) : string :=
  "0x" +:+ Py.last40 topic.

(** One iteration of the loop. *)
Definition process_transfer (st : state) (tr : transfer) : result state :=
  tps ← getitem_topics tr;
  if (4 <=? length tps)%nat then
    let from_addr := address_of_topic (nth 1 tps EmptyString) in
    let to_addr := address_of_topic (nth 2 tps EmptyString) in
    token_id ← int_base16 (nth 3 tps EmptyString);
    Ok (add_to_new_owner to_addr token_id
          (remove_from_previous_owner token_id st))
  else Ok st.

Fixpoint replay_from (st : state) (transfers : list transfer) : result state :=
  match transfers with
  | [] => Ok st
  | tr :: rest => st' ← process_transfer st tr; replay_from st' rest
  end.

Definition replay (transfers : list transfer) : result state :=
  replay_from initial transfers.

(** ** The holder summary (lines 33-43) *)

Record holder : Type := {
  address : string;
  tokenIds : list Z;
  tokenCount : nat
}.

Fixpoint collect_holders (d : owner_dict) : list holder :=
  match d with
  | [] => []
  | (owner, tokens) :: d' =>
      match tokens with
      | [] => collect_holders d'
      | _ :: _ =>
          {| address := owner;
             tokenIds := Py.sorted tokens;
             tokenCount := length tokens |} :: collect_holders d'
      end
  end.

(** The order of [holders.sort(key=..., reverse=True)]: a larger count comes
    first, and equal counts keep their order. *)
Definition count_geb (x y : holder) : bool :=
  (tokenCount y <=? tokenCount x)%nat.

Definition sort_holders (hs : list holder) : list holder :=
  Py.stable_sort count_geb hs.

Definition holders_of (st : state) : list holder :=
  sort_holders (collect_holders (owner_tokens st)).

(** ** The output files (lines 46-61) *)

Definition newline : string := String (ascii_of_nat 10) EmptyString.

Definition csv_header : string := "address,token_count,token_ids" +:+ newline.

Definition csv_line (h : holder) : string :=
  let token_ids_str := Py.join ";" (map Py.str (tokenIds h)) in
  address h +:+ "," +:+ Py.str (Z.of_nat (tokenCount h)) +:+ ","
    +:+ token_ids_str +:+ newline.

(** The text that lines 56-59 write to [lux_nft_holders.csv]: every
    [f.write] appends. *)
Definition write_csv (hs : list holder) : string :=
  foldl (λ f h, f +:+ csv_line h) csv_header hs.

Record snapshot_json : Type := {
  snapshot_block : Z;
  total_holders : nat;
  total_nfts : nat;
  holders : list holder
}.

(** What a run leaves of a file it writes: [Untouched] when the file is
    never opened, [Opened] when [open(.., 'w')] has created or emptied it and
    nothing has been written, [Written] with what has been written. *)
Inductive file (A : Type) : Type :=
| Untouched
| Opened
| Written (content : A).

Arguments Untouched {A}.
Arguments Opened {A}.
Arguments Written {A} content.

(** The outcome of a run: the two files, the text printed, and the
    exception that ended the run, if any. *)
Record run : Type := {
  json_file : file snapshot_json;
  csv_file : file string;
  stdout : string;
  exception : option py_error
}.

(** The name [FINALIZED_BLOCK] of line 48.  No line of the script binds or
    imports it and it is no built-in: reading it raises [NameError]. *)
Definition FINALIZED_BLOCK : result Z := Raise (NameError "FINALIZED_BLOCK").

(** The script.  An exception of the loop ends the run before any file is
    opened.  Otherwise line 46 opens the JSON file, and the dictionary of
    lines 47-52 is built before [json.dump] is called: its first value is
    [FINALIZED_BLOCK], so the run ends there, with the JSON file empty, the
    CSV file not opened and nothing printed.  Lines 49-61 follow for the
    record. *)
Definition main (transfers : list transfer) : run :=
  match replay transfers with
  | Raise e =>
      {| json_file := Untouched; csv_file := Untouched;
         stdout := EmptyString; exception := Some e |}
  | Ok st =>
      let hs := holders_of st in
      match FINALIZED_BLOCK with
      | Raise e =>
          {| json_file := Opened; csv_file := Untouched;
             stdout := EmptyString; exception := Some e |}
      | Ok block =>
          {| json_file :=
               Written {| snapshot_block := block;
                          total_holders := length hs;
                          total_nfts := size (nft_owners st);
                          holders := hs |};
             csv_file := Written (write_csv hs);
             stdout :=
               "Found " +:+ Py.str (Z.of_nat (length hs))
                 +:+ " NFT holders with "
                 +:+ Py.str (Z.of_nat (size (nft_owners st)))
                 +:+ " total NFTs" +:+ newline;
             exception := None |}
      end
  end.

(** ** Sample events *)

Definition topic_of (hex40 : string) : string :=
  "0x000000000000000000000000" +:+ hex40.

Definition TRANSFER_SIG : string :=
  "0xddf252ad1be2c89b69c2b068fc378daa952ba7f163c4a11628f55a4df523b3ef".

Definition mk_transfer (from_topic to_topic id_topic : string) : transfer :=
  {| topics := Some [TRANSFER_SIG; from_topic; to_topic; id_topic] |}.

Definition addr_A : string := "0x00000000000000000000000000000000000000aa".
Definition addr_B : string := "0x00000000000000000000000000000000000000bb".
Definition addr_C : string := "0x00000000000000000000000000000000000000cc".

Definition topic_A : string := topic_of "00000000000000000000000000000000000000aa".
Definition topic_B : string := topic_of "00000000000000000000000000000000000000bb".
Definition topic_C : string := topic_of "00000000000000000000000000000000000000cc".
Definition topic_zero : string := topic_of "0000000000000000000000000000000000000000".

Definition id_topic (n : string) : string :=
  "0x00000000000000000000000000000000000000000000000000000000000000" +:+ n.

(** ** The loop body as a relation

    One rule per path through the body of the loop, for reasoning by cases
    on an iteration. *)

Inductive step (st : state) (tr : transfer) : result state → Prop :=
| step_no_topics :
    topics tr = None →
    step st tr (Raise (KeyError "topics"))
| step_skip tps :
    topics tr = Some tps →
    (length tps < 4)%nat →
    step st tr (Ok st)
| step_bad_token tps :
    topics tr = Some tps →
    (4 ≤ length tps)%nat →
    Py.int16 (nth 3 tps EmptyString) = None →
    step st tr (Raise (ValueError (nth 3 tps EmptyString)))
| step_transfer tps token_id :
    topics tr = Some tps →
    (4 ≤ length tps)%nat →
    Py.int16 (nth 3 tps EmptyString) = Some token_id →
    step st tr
      (Ok (add_to_new_owner (address_of_topic (nth 2 tps EmptyString)) token_id
             (remove_from_previous_owner token_id st))).

(** ** Properties of dictionaries and summaries *)

(** How often [t] occurs in the token lists of a dictionary. *)
Fixpoint occurrences (t : Z) (d : owner_dict) : nat :=
  match d with
  | [] => 0
  | (_, v) :: d' => count_occ Z.eq_dec v t + occurrences t d'
  end.

(** The total held-token count: the sum of the lengths of all lists. *)
Fixpoint total_held (d : owner_dict) : nat :=
  match d with
  | [] => 0
  | (_, v) :: d' => length v + total_held d'
  end.

(** Exclusivity of [owner_tokens]: keys are distinct, and a token occurs at
    most once over all lists (so in one list, once). *)
Definition exclusive (d : owner_dict) : Prop :=
  NoDup (DD.keys d) ∧ ∀ t, (occurrences t d ≤ 1)%nat.

Fixpoint holder_occurrences (t : Z) (hs : list holder) : nat :=
  match hs with
  | [] => 0
  | h :: hs' => count_occ Z.eq_dec (tokenIds h) t + holder_occurrences t hs'
  end.

Definition exclusive_holders (hs : list holder) : Prop :=
  NoDup (address <$> hs) ∧ ∀ t, (holder_occurrences t hs ≤ 1)%nat.

(** The invariant of the replay loop. *)
Record consistent (st : state) : Prop := {
  cons_keys : NoDup (DD.keys (owner_tokens st));
  cons_once : ∀ t, (occurrences t (owner_tokens st) ≤ 1)%nat;
  cons_owner : ∀ o t,
    t ∈ DD.tokens o (owner_tokens st) → nft_owners st !! t = Some o;
  cons_known : ∀ t o,
    nft_owners st !! t = Some o → o ∈ DD.keys (owner_tokens st);
  cons_zero : ZERO_ADDRESS ∉ DD.keys (owner_tokens st)
}.

(** What lines 22-25 establish: the token is in no list afterwards, other
    tokens and the snapshot are untouched. *)
Record removed (token_id : Z) (st st1 : state) : Prop := {
  rem_consistent : consistent st1;
  rem_owners : nft_owners st1 = nft_owners st;
  rem_gone : occurrences token_id (owner_tokens st1) = 0%nat;
  rem_total :
    (total_held (owner_tokens st1) + occurrences token_id (owner_tokens st)
     = total_held (owner_tokens st))%nat
}.

(** Order of the holders list. *)
Definition count_descending (hs : list holder) : Prop :=
  ∀ i j hi hj, (i < j)%nat → hs !! i = Some hi → hs !! j = Some hj →
    (tokenCount hj ≤ tokenCount hi)%nat.

Definition ties_by_ascending_address (hs : list holder) : Prop :=
  ∀ i j hi hj, (i < j)%nat → hs !! i = Some hi → hs !! j = Some hj →
    tokenCount hi = tokenCount hj →
    String.leb (address hi) (address hj) = true.

Definition same_count (c : nat) (h : holder) : bool :=
  (tokenCount h =? c)%nat.

(** Holders with equal counts stand in the order in which the dictionary
    yields them. *)
Definition ties_in_dict_order (d : owner_dict) (hs : list holder) : Prop :=
  ∀ c, List.filter (same_count c) hs
       = List.filter (same_count c) (collect_holders d).

(** ** Classes of log entries *)






(** A burn: a transfer whose recipient is the zero address. *)
Definition burns (tr : transfer) (token_id : Z) : Prop :=
  ∃ tps, topics tr = Some tps ∧ (4 ≤ length tps)%nat
    ∧ address_of_topic (nth 2 tps EmptyString) = ZERO_ADDRESS
    ∧ Py.int16 (nth 3 tps EmptyString) = Some token_id.

(** A transfer of [token_id] to the recipient address [to_addr]. *)
Definition sends (tr : transfer) (to_addr : string) (token_id : Z) : Prop :=
  ∃ tps, topics tr = Some tps ∧ (4 ≤ length tps)%nat
    ∧ address_of_topic (nth 2 tps EmptyString) = to_addr
    ∧ Py.int16 (nth 3 tps EmptyString) = Some token_id.

(** Two entries in which the loop body reads the same: both without topics,
    or both with fewer than four, or both with at least four, the same last
    forty characters of the third and the same value of the fourth as a
    base-16 literal (the same literal, when [int] rejects it).  The first
    two topics, the topics after the fourth, the head of the third and the
    spelling of an accepted literal are free. *)
Definition same_transfer (tr1 tr2 : transfer) : Prop :=
  match topics tr1, topics tr2 with
  | None, None => True
  | Some tps1, Some tps2 =>
      if (4 <=? length tps1)%nat then
        (4 ≤ length tps2)%nat
        ∧ Py.last40 (nth 2 tps1 EmptyString) = Py.last40 (nth 2 tps2 EmptyString)
        ∧ Py.int16 (nth 3 tps1 EmptyString) = Py.int16 (nth 3 tps2 EmptyString)
        ∧ (Py.int16 (nth 3 tps1 EmptyString) = None →
           nth 3 tps1 EmptyString = nth 3 tps2 EmptyString)
      else (length tps2 < 4)%nat
  | _, _ => False
  end.

(** The snapshot names an owner for the token whose list lacks it. *)
Definition lookup_inconsistency (token_id : Z) (st : state) : Prop :=
  ∃ prev_owner, nft_owners st !! token_id = Some prev_owner
    ∧ token_id ∉ DD.tokens prev_owner (owner_tokens st).

(** [s.lower()] on ASCII text, to compare addresses up to letter case. *)
Definition ascii_lower (c : ascii) : ascii :=
  let n := nat_of_ascii c in
  if ((65 <=? n) && (n <=? 90))%nat then ascii_of_nat (n + 32) else c.

Fixpoint lower (s : string) : string :=
  match s with
  | EmptyString => EmptyString
  | String c s' => String (ascii_lower c) (lower s')
  end.

(** ** Sample logs *)

(** Token 5 is minted to A and then burned by A. *)
Definition mint_then_burn : list transfer :=
  [mk_transfer topic_zero topic_A (id_topic "05");
   mk_transfer topic_A topic_zero (id_topic "05")].

(** Token 1 goes from A to B, from B to C, and from C to the zero address. *)
Definition three_hops_to_zero : list transfer :=
  [mk_transfer topic_A topic_B (id_topic "01");
   mk_transfer topic_B topic_C (id_topic "01");
   mk_transfer topic_C topic_zero (id_topic "01")].

(** The same three transfers of token 1 as entries of another event: other
    first and second topics, a fifth topic, another head of the recipient
    topic and another spelling of the token id. *)
Definition three_hops_respelled : list transfer :=
  [{| topics := Some ["0x8c5be1e5"; topic_C; topic_B; "0X1"; "extra"] |};
   {| topics := Some [TRANSFER_SIG; topic_zero;
                      "ffff" +:+ "00000000000000000000000000000000000000cc";
                      " 0x0_1 "] |};
   {| topics := Some [EmptyString; EmptyString; topic_zero; "+01"] |}].

(** Token 1 is minted to B, then token 2 to A. *)
Definition mint_B_then_A : list transfer :=
  [mk_transfer topic_zero topic_B (id_topic "01");
   mk_transfer topic_zero topic_A (id_topic "02")].


(** A burn of token 1. *)
Definition burn_1 : transfer := mk_transfer topic_A topic_zero (id_topic "01").

(** The same forty hex digits in two letter cases. *)
Definition topic_upper : string :=
  topic_of "00000000000000000000000000000000000000AA".

Definition addr_upper : string := "0x00000000000000000000000000000000000000AA".

Definition mint_two_cases : list transfer :=
  [mk_transfer topic_zero topic_upper (id_topic "01");
   mk_transfer topic_zero topic_A (id_topic "02")].

(** The state after [mint_then_burn], and a later mint of token 5 to B. *)
Definition after_mint_then_burn : state :=
  {| nft_owners := {[ 5 := addr_A ]}; owner_tokens := [(addr_A, [])] |}.

Definition remint_5 : transfer :=
  mk_transfer topic_zero topic_B (id_topic "05").


(** ** The statements that the code does not meet, as stated *)

(** Holders in descending count, ties in ascending address order. *)
Definition sorted_with_address_tie_break (hs : list holder) : Prop :=
  count_descending hs ∧ ties_by_ascending_address hs.


(** A burn after the log [transfers] lowers the total by exactly one. *)
Definition burn_lowers_total (transfers : list transfer) (tr : transfer) : Prop :=
  ∀ st st' token_id,
    replay transfers = Ok st → burns tr token_id →
    process_transfer st tr = Ok st' →
    S (total_held (owner_tokens st')) = total_held (owner_tokens st).

(** ** Decoded entries and their place in a log *)

(** The recipient and the token of an entry that the loop body applies
    (lines 16-19): at least four topics and a token id that [int] accepts. *)
Definition sent (tr : transfer) : option (string * Z) :=
  match topics tr with
  | Some tps =>
      if (4 <=? length tps)%nat then
        match Py.int16 (nth 3 tps EmptyString) with
        | Some token_id =>
            Some (address_of_topic (nth 2 tps EmptyString), token_id)
        | None => None
        end
      else None
  | None => None
  end.

(** The non-zero recipient of an entry, if it has one. *)
Definition recipient (tr : transfer) : option string :=
  match sent tr with
  | Some (to_addr, _) =>
      if decide (to_addr ≠ ZERO_ADDRESS) then Some to_addr else None
  | None => None
  end.

(** The non-zero recipients of a log, in order, with repetitions. *)
Definition recipients (transfers : list transfer) : list string :=
  omap recipient transfers.

(** [o] is the recipient of the last entry of the log that sends [t] to a
    non-zero address. *)
Definition last_assignment (t : Z) (o : string) (transfers : list transfer)
  : Prop :=
  ∃ pre tr post,
    transfers = pre ++ tr :: post ∧ sends tr o t ∧ o ≠ ZERO_ADDRESS
    ∧ ∀ tr' a, tr' ∈ post → sends tr' a t → a = ZERO_ADDRESS.

(** [a] is the recipient of the last entry of the log that sends [t]. *)
Definition last_transfer (t : Z) (a : string) (transfers : list transfer)
  : Prop :=
  ∃ pre tr post,
    transfers = pre ++ tr :: post ∧ sends tr a t
    ∧ ∀ tr' a', tr' ∈ post → ¬ sends tr' a' t.

(** All tokens of a dictionary, list after list. *)
Definition held_tokens (d : owner_dict) : list Z := concat d.*2.

(** * The burn scanner: [scripts/get-zoo-burns-efficient.py]

    The calls to the node are parameters: [get_code] gives the code of the
    token contract at a block, [None] when the call raises. *)

(** [code and len(code) > 2] (line 71), with the [except] of line 75. *)
Definition has_code (get_code : Z → option (list Byte.byte)) (block : Z)
  : bool :=
  match get_code block with
  | Some code => negb (bool_decide (code = [])) && (2 <? length code)%nat
  | None => false
  end.

(** The measure of the search loop: the width of the interval. *)
Definition search_width (bounds : Z * Z) : nat :=
  Z.to_nat (snd bounds - fst bounds).

(** The loop of [find_deployment_block] (lines 66-76) on the pair of the
    variables [left] and [right], here [lo] and [hi]. *)
Function find_deployment_block_loop
    (get_code : Z → option (list Byte.byte)) (bounds : Z * Z)
    {measure search_width bounds} : Z :=
  match bounds with
  | (lo, hi) =>
      if Z_lt_dec lo hi then
        let mid := (lo + hi) `div` 2 in
        if has_code get_code mid
        then find_deployment_block_loop get_code (lo, mid)
        else find_deployment_block_loop get_code (mid + 1, hi)
      else lo
  end.
Proof.
  - intros _ bounds lo hi -> Hlt _ _. unfold search_width. simpl.
    assert (lo ≤ (lo + hi) `div` 2 < hi)
      by (split; [apply Z.div_le_lower_bound|apply Z.div_lt_upper_bound]; lia).
    lia.
  - intros _ bounds lo hi -> Hlt _ _. unfold search_width. simpl.
    assert (lo ≤ (lo + hi) `div` 2 < hi)
      by (split; [apply Z.div_le_lower_bound|apply Z.div_lt_upper_bound]; lia).
    lia.
Defined.

(** [find_deployment_block] (lines 59-78); [latest] is
    [w3.eth.block_number]. *)
Definition find_deployment_block
    (get_code : Z → option (list Byte.byte)) (latest : Z) : Z :=
  find_deployment_block_loop get_code (0, latest).

(** [len(range(start, stop, step))] for a positive step. *)
Definition range_len (start stop step : Z) : Z :=
  if decide (start < stop) then (stop - start - 1) `div` step + 1 else 0.

(** [range(start, stop, step)] for a positive step. *)
Definition py_range (start stop step : Z) : list Z :=
  (λ i, start + i * step) <$> seqZ 0 (range_len start stop step).

(** The block ranges that [scan_zoo_burns] passes to
    [scan_burns_in_range] (lines 114-115), as pairs of [from_block] and
    [to_block], both inclusive. *)
Definition burn_scan_ranges (start_block latest_block batch_size : Z)
  : list (Z * Z) :=
  (λ from_block,
     (from_block, Z.min (from_block + batch_size - 1) latest_block))
    <$> py_range start_block latest_block batch_size.

(** Lines 105 and 112. *)
Definition start_block : Z := 14000000.
Definition burn_batch_size : Z := 5000.

(** * The EGG scanner: [scripts/analysis/get-egg-holders-efficient.py] *)

(** The batches of token ids of [scan_egg_holders] (lines 122-127). *)
Definition egg_batches (total_supply batch_size : Z) : list (list Z) :=
  (λ i, py_range i (Z.min (i + batch_size) (total_supply + 1)) 1)
    <$> py_range 1 (total_supply + 1) batch_size.

(** Line 119. *)
Definition egg_batch_size : Z := 10.

(** An oracle for the examples: the contract has three bytes of code from
    block 7 on. *)
Definition code_from_7 (block : Z) : option (list Byte.byte) :=
  if decide (7 ≤ block) then Some [Byte.x60; Byte.x80; Byte.x60] else Some [].

(** * The LUX NFT scanner: [scripts/get-lux-nft-holders-efficient.py]

    The contract call [ownerOf(token_id)] is a parameter that returns an
    owner or raises with a message.  The fields of the result that come from
    the clock and from the contract's name are left out. *)

Module LuxScan.

Inductive call_result : Type :=
| Returns (owner : string)
| Throws (message : string).

(** [needle in hay] on text. *)
Fixpoint str_contains (needle hay : string) : bool :=
  String.prefix needle hay
  || match hay with
     | EmptyString => false
     | String _ hay' => str_contains needle hay'
     end.

(** The test of line 116 on [str(e)]. *)
Definition nonexistent (message : string) : bool :=
  str_contains "nonexistent token" (lower message)
  || str_contains "invalid token" (lower message).

(** The variables of the scanning loop (lines 94-97). *)
Record state : Type := {
  holders : owner_dict;
  burned : list Z;
  last_valid_token : Z;
  consecutive_failures : Z
}.

Definition start : state :=
  {| holders := []; burned := []; last_valid_token := 0;
     consecutive_failures := 0 |}.

(** The body of the loop after the test for the break (lines 106-120). *)
Definition scan_token (ownerOf : Z → call_result) (token_id : Z) (st : state)
  : state :=
  match ownerOf token_id with
  | Returns owner =>
      {| holders :=
           DD.alter (λ l, (l ++ [token_id])%list) (lower owner)
                    (DD.touch (lower owner) (holders st));
         burned := burned st;
         last_valid_token := token_id;
         consecutive_failures := 0 |}
  | Throws message =>
      if nonexistent message then
        {| holders := holders st;
           burned := burned st;
           last_valid_token := last_valid_token st;
           consecutive_failures := consecutive_failures st + 1 |}
      else
        {| holders := holders st;
           burned := (burned st ++ [token_id])%list;
           last_valid_token := last_valid_token st;
           consecutive_failures := 0 |}
  end.

(** The loop of lines 101-120 over the remaining token ids. *)
Fixpoint scan_tokens (ownerOf : Z → call_result) (token_ids : list Z)
    (st : state) : state :=
  match token_ids with
  | [] => st
  | token_id :: rest =>
      if decide (100 < consecutive_failures st) then st
      else scan_tokens ownerOf rest (scan_token ownerOf token_id st)
  end.

Definition scan (ownerOf : Z → call_result) (total_supply : Z) : state :=
  scan_tokens ownerOf (py_range 0 total_supply 1) start.

Record holder_data : Type := {
  token_count : nat;
  token_ids : list Z;
  validator_eligible : bool
}.

(** [d[key] = d.get(key, 0) + 1] on an insertion-ordered dictionary. *)
Fixpoint increment (key : string) (d : list (string * Z)) : list (string * Z) :=
  match d with
  | [] => [(key, 0 + 1)]
  | (k, n) :: d' =>
      if decide (key = k) then (k, n + 1) :: d' else (k, n) :: increment key d'
  end.

(** Lines 152-160. *)
Definition bucket (count : nat) : string :=
  if decide (count = 1%nat) then "1 NFT"
  else if decide (count ≤ 5)%nat then "2-5 NFTs"
  else if decide (count ≤ 10)%nat then "6-10 NFTs"
  else "11+ NFTs".

(** Lines 151-162. *)
Definition distribution_of (rows : list (string * holder_data))
  : list (string * Z) :=
  foldl (λ d row, increment (bucket (token_count row.2)) d) [] rows.

Record summary : Type := {
  total_nfts_held : Z;
  distribution : list (string * Z);
  eligible : list string
}.

Record results : Type := {
  total_supply : Z;
  unique_holders : nat;
  burned_tokens : nat;
  holder_rows : list (string * holder_data);
  result_summary : summary
}.

(** Lines 122-164. *)
Definition results_of (st : state) : results :=
  let actual_total := last_valid_token st + 1 in
  let rows :=
    (λ item : string * list Z,
       (item.1, {| token_count := length item.2;
                   token_ids := Py.sorted item.2;
                   validator_eligible := true |})) <$> holders st in
  {| total_supply := actual_total;
     unique_holders := length (holders st);
     burned_tokens := length (burned st);
     holder_rows := rows;
     result_summary :=
       {| total_nfts_held := actual_total - Z.of_nat (length (burned st));
          distribution := distribution_of rows;
          eligible := (holders st).*1 |} |}.

(** [scan_lux_nft_holders] once the node is connected and the total supply
    is known (lines 93-164). *)
Definition scan_lux_nft_holders (ownerOf : Z → call_result)
    (total_supply : Z) : results :=
  results_of (scan ownerOf total_supply).

(** [d.get(key, 0)]. *)
Fixpoint count_of (key : string) (d : list (string * Z)) : Z :=
  match d with
  | [] => 0
  | (k, n) :: d' => if decide (key = k) then n else count_of key d'
  end.

End LuxScan.

(** What holds of the variables of the loop once the token ids below [n]
    have been scanned. *)
Record lux_scanned (ownerOf : Z → LuxScan.call_result) (n : Z)
    (st : LuxScan.state) : Prop := {
  scanned_keys : NoDup (DD.keys (LuxScan.holders st));
  scanned_bound : ∀ t,
    t ∈ held_tokens (LuxScan.holders st) ++ LuxScan.burned st → 0 ≤ t < n;
  scanned_once :
    NoDup (held_tokens (LuxScan.holders st) ++ LuxScan.burned st);
  scanned_sorted :
    Forall (λ item, StronglySorted Z.lt item.2) (LuxScan.holders st);
  scanned_owner : ∀ a t,
    t ∈ DD.tokens a (LuxScan.holders st) →
    ∃ owner, ownerOf t = LuxScan.Returns owner ∧ a = lower owner;
  scanned_burned : ∀ t,
    t ∈ LuxScan.burned st →
    ∃ message, ownerOf t = LuxScan.Throws message
               ∧ LuxScan.nonexistent message = false;
  scanned_last : 0 ≤ LuxScan.last_valid_token st < Z.max n 1;
  scanned_failures : 0 ≤ LuxScan.consecutive_failures st
}.

(** * Reading the burn logs: [scan_burns_in_range]
    ([scripts/get-zoo-burns-efficient.py], lines 34-57)

    The node is a parameter: [get_logs from_block to_block] answers with the
    logs of the range or raises with a message.  The function calls itself
    on the two halves of a range that the node rejects as too large, with no
    bound of its own on the depth; [fuel] bounds the depth here, and [None]
    says that the recursion goes deeper than [fuel].  What the interpreter
    does with a recursion deeper than its own limit (a [RecursionError],
    which the [except] of line 48 can catch in its turn) is outside the
    model: results are stated for runs that stay within the bound. *)

Module BurnLogs.

Inductive answer (L : Type) : Type :=
| Logs (logs : list L)
| Fails (message : string).

Arguments Logs {L} logs.
Arguments Fails {L} message.

(** The test of line 50 on [str(e)]. *)
Definition range_too_large (message : string) : bool :=
  LuxScan.str_contains "limit exceeded" (lower message)
  || LuxScan.str_contains "query returned more than" (lower message).

Fixpoint scan_burns_in_range {L : Type} (fuel : nat)
    (get_logs : Z → Z → answer L) (from_block to_block : Z)
  : option (list L) :=
  match fuel with
  | O => None
  | S fuel' =>
      match get_logs from_block to_block with
      | Logs logs => Some logs
      | Fails message =>
          if range_too_large message then
            let mid := (from_block + to_block) `div` 2 in
            logs1 ← scan_burns_in_range fuel' get_logs from_block mid;
            logs2 ← scan_burns_in_range fuel' get_logs (mid + 1) to_block;
            Some (logs1 ++ logs2)
          else Some []
      end
  end.

(** The logs of the blocks [from_block], ..., [to_block], block by block. *)
Definition logs_between {L : Type} (block_logs : Z → list L)
    (from_block to_block : Z) : list L :=
  concat (block_logs <$> seqZ from_block (to_block - from_block + 1)).

End BurnLogs.

(** A node for the examples: block [b] has the single log [b], and ranges of
    more than three blocks are rejected. *)
Definition sample_node (from_block to_block : Z) : BurnLogs.answer Z :=
  if decide (to_block - from_block < 3)
  then BurnLogs.Logs (seqZ from_block (to_block - from_block + 1))
  else BurnLogs.Fails "Error: query returned more than 10000 results".

(** * The X-Chain genesis: [genesis/X-Chain/generate_allocations.py]

    The file of ZOO allocations is a parameter: [None] when it cannot be
    opened or read as a JSON object with an [allocations] object, else the
    entries of that object in order, each with its [zoo_equivalent] ([None]
    when the entry has no such key).  Amounts are integers, as the script
    that writes the file computes them. *)

Module Genesis.

Record allocation : Type := {
  ethAddr : string;
  avaxAddr : string;
  initialAmount : Z;
  unlockSchedule : list Z
}.

(** [d[key] = value] on an insertion-ordered dictionary. *)
Fixpoint setitem (key : string) (value : Z) (d : list (string * Z))
  : list (string * Z) :=
  match d with
  | [] => [(key, value)]
  | (k, v) :: d' =>
      if decide (key = k) then (k, value) :: d'
      else (k, v) :: setitem key value d'
  end.

(** The loop of lines 9-10; it ends at the first entry that raises, and
    line 11 catches the exception. *)
Fixpoint load_entries (entries : list (string * option Z))
    (zoo_allocations : list (string * Z)) : list (string * Z) :=
  match entries with
  | [] => zoo_allocations
  | (addr, Some zoo_equivalent) :: rest =>
      load_entries rest (setitem addr (zoo_equivalent * 10 ^ 9) zoo_allocations)
  | (addr, None) :: _ => zoo_allocations
  end.

(** Lines 5-12. *)
Definition load_zoo_allocations (zoo_file : option (list (string * option Z)))
  : list (string * Z) :=
  match zoo_file with
  | Some entries => load_entries entries []
  | None => []
  end.

(** [f"X-lux1{addr[2:]}"]. *)
Definition avax_of (addr : string) : string :=
  "X-lux1" +:+ Py.drop_chars 2 addr.

(** Lines 26-32. *)
Definition zoo_entry (item : string * Z) : allocation :=
  {| ethAddr := item.1; avaxAddr := avax_of item.1;
     initialAmount := item.2; unlockSchedule := [] |}.

(** Lines 35-47. *)
Definition bootstrap_validators : list string :=
  ["0x9011E888251AB053B7bD1cdB598Db4f9DEd94714";
   "0xEAbCC110fAcBfebabC66Ad6f9E7B67288e720B59";
   "0x8d5081153aE1cfb41f5c932fe0b6Beb7E159cF84";
   "0xf8f12D0592e6d1bFe92ee16CaBCC4a6F26dAAe23";
   "0xFb66808f708e1d4D7D43a8c75596e84f94e06806";
   "0x313CF291c069C58D6bd61B0D672673462B8951bD";
   "0xf7f52257a6143cE6BbD12A98eF2B0a3d0C648079";
   "0xCA92ad0C91bd8DE640B9dAFfEB338ac908725142";
   "0xB5B325df519eB58B7223d85aaeac8b56aB05f3d6";
   "0xcf5288bEe8d8F63511C389D5015185FDEDe30e54";
   "0x16204223fe4470f4B1F1dA19A368dC815736a3d7"].

Definition bootstrap_entry (addr : string) : allocation :=
  {| ethAddr := addr; avaxAddr := avax_of addr;
     initialAmount := 100000000000000000; unlockSchedule := [] |}.

(** One turn of the loop of lines 49-56. *)
Definition add_validator (all_allocations : list allocation) (addr : string)
  : list allocation :=
  if decide (lower addr ∉ (lower ∘ ethAddr <$> all_allocations))
  then all_allocations ++ [bootstrap_entry addr]
  else all_allocations.

(** Lines 23-56 for a list of validators. *)
Definition allocations_with (validators : list string)
    (zoo_allocations : list (string * Z)) : list allocation :=
  foldl add_validator (zoo_entry <$> zoo_allocations) validators.

(** The list stored under [allocations] in the genesis file. *)
Definition all_allocations (zoo_file : option (list (string * option Z)))
  : list allocation :=
  allocations_with bootstrap_validators (load_zoo_allocations zoo_file).

End Genesis.

(** * The EGG allocations: [scripts/analyze-egg-discrepancies.py]

    The file of scanned holders is a parameter: the entries of its [holders]
    object in order, each with its [token_count] and [token_ids], integers as
    the scanner writes them.  The model covers the count of the extra EGGs
    (lines 84-90), which can raise, and the allocations and the summary of
    the saved file (lines 98-138); the printed text and the notes are left
    out. *)

Module Eggs.

Module Known.
Record t : Type := { eggs : Z; tokenIds : list string }.
End Known.

Module Scanned.
Record t : Type := { token_count : Z; token_ids : list Z }.
End Scanned.

Module Allocation.
Record t : Type := {
  eggs : Z;
  zoo_equivalent : Z;
  source : string;
  token_ids : list string
}.
End Allocation.

(** Lines 10-38. *)
Definition KNOWN_HOLDERS : list (string * Known.t) := [
  ("0x51c29390c8e24baaa92fea06ce95d90d0877ca9e",
   Known.Build_t 5 ["140"; "141"; "142"; "143"; "144"]);
  ("0x9dd1ed97a2aa965de37b087fa95e6ddb7c5e4d5f",
   Known.Build_t 1 ["122"]);
  ("0xcc9c4d6a8502c38f2dcda03b0e9fb5e5e6d6b88e",
   Known.Build_t 1 ["107"]);
  ("0xca92ad0c91bd8de640b9daffeb338ac908725142",
   Known.Build_t 12 ["34"; "35"; "36"; "37"; "38"; "39"; "40"; "41"; "42"; "43"; "44"; "52"]);
  ("0x67be46cc9fc7c4d98da9e95a0f1e31c0ad17c2b7",
   Known.Build_t 1 ["115"]);
  ("0xdb4c9e33b93df5da19821c4ad0c1b1ea4e007a75",
   Known.Build_t 3 ["109"; "110"; "111"]);
  ("0x0bde1f18b1e866cf4c4f3a017a90d1fc5a1db76d",
   Known.Build_t 1 ["95"]);
  ("0x8a96797f29c16d6e49b83a6c4f68bb8de92bb6d7",
   Known.Build_t 2 ["105"; "106"]);
  ("0x47fa1419ceeb9bd3e40e0c7e30dd75c67da7e9ab",
   Known.Build_t 6 ["125"; "126"; "127"; "128"; "129"; "130"]);
  ("0x08f4c12c05e5cf92c3b10c81e4ad7fb5ba97ea73",
   Known.Build_t 4 ["132"; "133"; "134"; "135"]);
  ("0xa69bb47e3a8eb01dd982b43a0d91b9096f907fad",
   Known.Build_t 1 ["76"]);
  ("0x95d988f89b978d44e87bb2bea7b825322a0e6c58",
   Known.Build_t 1 ["131"]);
  ("0x9011e888251ab053b7bd1cdb598db4f9ded94714",
   Known.Build_t 1 ["33"]);
  ("0xf7fb4fc5d5c2a59f8eb88ed6c0f09f8cf9c7c33f",
   Known.Build_t 2 ["123"; "124"]);
  ("0x0771bb1a8e42cf1328a3f0b9fb1b35d9e903b23d",
   Known.Build_t 4 ["117"; "118"; "119"; "120"]);
  ("0xd93fa39b8b1c2c7c01e892c29e8ab10f4cf77c1f",
   Known.Build_t 2 ["108"; "121"]);
  ("0x7de6b6b6c2da8fa8c96ba49b2e17b87dcfe9e026",
   Known.Build_t 8 ["45"; "46"; "47"; "48"; "49"; "50"; "51"; "137"]);
  ("0xd7e2ea6c4d40a90b1c8f4bb43bf63c96770a5078",
   Known.Build_t 1 ["53"]);
  ("0x2e387a97c6795dc73d4e8a3e456c4b9848fb5c73",
   Known.Build_t 5 ["112"; "113"; "114"; "116"; "136"]);
  ("0xa64b3eb2c92c9987d7c6e97f088b05e31e93cf77",
   Known.Build_t 8 ["54"; "55"; "56"; "57"; "58"; "59"; "60"; "61"]);
  ("0x5b5bc5c57ae3bb0e7ab99e57b0a2e88bbf956c15",
   Known.Build_t 3 ["96"; "97"; "98"]);
  ("0x57d9e829e1cd43c12f959e088b12b670b3ae5eac",
   Known.Build_t 10 ["86"; "87"; "88"; "89"; "90"; "91"; "92"; "93"; "94"; "139"]);
  ("0xfbdacc3db0c6a16c51f4e09c4e97a18bb16c3cc4",
   Known.Build_t 1 ["138"]);
  ("0x07e40e03bb00e13c03c0e017ffd7cbb029e32730",
   Known.Build_t 9 ["77"; "78"; "79"; "80"; "81"; "82"; "83"; "84"; "85"]);
  ("0xb59ba2c05c93a9cc1fb18c993e5bb079dc17ab77",
   Known.Build_t 1 ["145"]);
  ("0x18c21cbaab25d24a96e7c18b7c6e3e968b77df9f",
   Known.Build_t 10 ["99"; "100"; "101"; "102"; "103"; "104"; "62"; "63"; "64"; "75"]);
  ("0x1708e387c0b1b0aae7c1beac79b12c4ca837c2c9",
   Known.Build_t 12 ["65"; "66"; "67"; "68"; "69"; "70"; "71"; "72"; "73"; "74"; "1"; "2"])].

(** [set(KNOWN_HOLDERS.keys())]. *)
Definition known_addresses : list string := fst <$> KNOWN_HOLDERS.

Definition purchase_addr : string :=
  "0x28dad8427f127664365109c4a9406c8bc7844718".

(** [d[key] = value] and [d.get(key)] on an insertion-ordered dictionary. *)
Fixpoint setitem {V : Type} (key : string) (value : V)
    (d : list (string * V)) : list (string * V) :=
  match d with
  | [] => [(key, value)]
  | (k, v) :: d' =>
      if decide (key = k) then (k, value) :: d'
      else (k, v) :: setitem key value d'
  end.

Fixpoint get {V : Type} (key : string) (d : list (string * V)) : option V :=
  match d with
  | [] => None
  | (k, v) :: d' => if decide (key = k) then Some v else get key d'
  end.

(** The built-in [sum]. *)
Definition sum (l : list Z) : Z := foldl Z.add 0 l.

(** Lines 102-107. *)
Definition spreadsheet_allocation (data : Known.t) : Allocation.t :=
  {| Allocation.eggs := Known.eggs data;
     Allocation.zoo_equivalent := Known.eggs data * 4200000;
     Allocation.source := "spreadsheet";
     Allocation.token_ids := Known.tokenIds data |}.

(** Lines 115-120. *)
Definition scan_allocation (holder : Scanned.t) : Allocation.t :=
  {| Allocation.eggs := Scanned.token_count holder;
     Allocation.zoo_equivalent := Scanned.token_count holder * 4200000;
     Allocation.source := "bsc_scan";
     Allocation.token_ids := Py.str <$> Scanned.token_ids holder |}.

(** The test of line 114. *)
Definition additional (addr : string) : Prop :=
  (lower addr ∉ known_addresses) ∧ addr ≠ purchase_addr.

#[global] Instance additional_dec addr : Decision (additional addr) :=
  ltac:(unfold additional; apply _).

(** The state of the two loops: the allocations and [added]. *)
Record state : Type := {
  xchain_allocations : list (string * Allocation.t);
  added : Z
}.

(** One turn of the loop of lines 101-108. *)
Definition add_known (st : state) (item : string * Known.t) : state :=
  {| xchain_allocations :=
       setitem item.1 (spreadsheet_allocation item.2) (xchain_allocations st);
     added := added st |}.

(** One turn of the loop of lines 113-122. *)
Definition add_scanned (st : state) (item : string * Scanned.t) : state :=
  if decide (additional item.1) then
    {| xchain_allocations :=
         setitem item.1 (scan_allocation item.2) (xchain_allocations st);
       added := added st + Scanned.token_count item.2 |}
  else st.

(** Lines 98-122. *)
Definition allocate (scanned_holders : list (string * Scanned.t)) : state :=
  foldl add_scanned
        (foldl add_known {| xchain_allocations := []; added := 0 |}
               KNOWN_HOLDERS)
        scanned_holders.

(** The [summary] of the saved file, lines 132-138. *)
Record summary : Type := {
  total_addresses : nat;
  total_eggs : Z;
  total_zoo_equivalent : Z;
  from_spreadsheet : nat;
  from_bsc_scan : Z
}.

Definition summary_of (st : state) : summary :=
  {| total_addresses := length (xchain_allocations st);
     total_eggs := sum (Allocation.eggs ∘ snd <$> xchain_allocations st);
     total_zoo_equivalent :=
       sum (Allocation.zoo_equivalent ∘ snd <$> xchain_allocations st);
     from_spreadsheet := length KNOWN_HOLDERS;
     from_bsc_scan := added st |}.

(** [known_total], line 48. *)
Definition known_total : Z := sum (Known.eggs ∘ snd <$> KNOWN_HOLDERS).

(** [scanned_addresses], line 52, is a set, and a set is iterated in no
    fixed order: the order of line 85 is a parameter, a list that
    enumerates the lower-cased keys of the scan. *)
Definition enumerates (order : list string)
    (scanned_holders : list (string * Scanned.t)) : Prop :=
  NoDup order ∧ ∀ addr, addr ∈ order ↔ addr ∈ (lower ∘ fst <$> scanned_holders).

(** One turn of the loop of lines 85-90; [scanned_holders[addr]] raises
    [KeyError] for an address that is no key of the scan as written. *)
Definition count_extra (scanned_holders : list (string * Scanned.t))
    (extra_eggs : Z) (addr : string) : result Z :=
  if decide ((addr ∉ known_addresses) ∧ addr ≠ purchase_addr) then
    match get addr scanned_holders with
    | None => Raise (KeyError addr)
    | Some holder =>
        if decide (Scanned.token_count holder > 0)
        then Ok (extra_eggs + Scanned.token_count holder)
        else Ok extra_eggs
    end
  else Ok extra_eggs.

(** Lines 84-90. *)
Fixpoint count_extras (scanned_holders : list (string * Scanned.t))
    (order : list string) (extra_eggs : Z) : result Z :=
  match order with
  | [] => Ok extra_eggs
  | addr :: rest =>
      extra_eggs' ← count_extra scanned_holders extra_eggs addr;
      count_extras scanned_holders rest extra_eggs'
  end.

(** The script from line 84 on: the count of the extra EGGs, then the
    allocations. *)
Definition main (order : list string)
    (scanned_holders : list (string * Scanned.t)) : result state :=
  _ ← count_extras scanned_holders order 0;
  Ok (allocate scanned_holders).

End Eggs.

(** An oracle for the examples: tokens 0, 1 and 3 have owners, token 2 was
    burned, nothing else exists. *)
Definition sample_ownerOf (token_id : Z) : LuxScan.call_result :=
  if decide (token_id = 0) then LuxScan.Returns addr_upper
  else if decide (token_id = 1) then LuxScan.Returns addr_B
  else if decide (token_id = 2)
       then LuxScan.Throws "execution reverted: owner query for burned"
  else if decide (token_id = 3) then LuxScan.Returns addr_A
  else LuxScan.Throws "ERC721: owner query for nonexistent token".

(** * Examples *)

Example int16_topic :
  Py.int16 "0x000000000000000000000000000000000000000000000000000000000000001f"
  = Some 31.
Proof. reflexivity. Qed.

Example int16_plain : Py.int16 " -Ff_0 " = Some (-4080).
Proof. reflexivity. Qed.

Example int16_bad :
  Py.int16 "0x" = None ∧ Py.int16 "0xg" = None ∧ Py.int16 "" = None
  ∧ Py.int16 "1__2" = None ∧ Py.int16 "12_" = None ∧ Py.int16 "_12" = None
  ∧ Py.int16 "0x_12" = Some 18.
Proof. repeat split; reflexivity. Qed.

Example last40_short : Py.last40 "0xab" = "0xab".
Proof. reflexivity. Qed.

Example last40_topic :
  Py.last40 "0x000000000000000000000000d8da6bf26964af9d7eed9e03e53415d37aa96045"
  = "d8da6bf26964af9d7eed9e03e53415d37aa96045".
Proof. reflexivity. Qed.

Example str_ex : Py.str 0 = "0" ∧ Py.str 1234 = "1234" ∧ Py.str (-7) = "-7".
Proof. repeat split; reflexivity. Qed.

Example int16_more :
  Py.int16 "+0X1F" = Some 31 ∧ Py.int16 "0x 1" = None
  ∧ Py.int16 "- 1" = None ∧ Py.int16 "0x0x1" = None.
Proof. repeat split; reflexivity. Qed.

Example sorted_ex : Py.sorted [3; 1; 2; 1] = [1; 1; 2; 3].
Proof. reflexivity. Qed.

Example address_of_topic_A : address_of_topic topic_A = addr_A.
Proof. reflexivity. Qed.

Example address_of_topic_zero : address_of_topic topic_zero = ZERO_ADDRESS.
Proof. reflexivity. Qed.

Example spec_example_mint_then_move :
  holders_of <$> replay [mk_transfer topic_zero topic_A (id_topic "05");
                         mk_transfer topic_A topic_B (id_topic "05")]
  = Ok [{| address := addr_B; tokenIds := [5]; tokenCount := 1 |}].
Proof. vm_compute. reflexivity. Qed.

(** * Facts about the built-ins *)

Section stable_sort_facts.
Context {A : Type} (le : A → A → bool).

Lemma insert_sorted_perm x l : Py.insert_sorted le x l ≡ₚ x :: l.
Proof.
  induction l as [|y l IH]; simpl; [done|].
  destruct (le x y); [done|].
  rewrite IH. apply Permutation_swap.
Qed.

Lemma stable_sort_perm l : Py.stable_sort le l ≡ₚ l.
Proof.
  induction l as [|x l IH]; simpl; [done|].
  by rewrite insert_sorted_perm, IH.
Qed.

(** Stability: a class of elements that may all precede one another is
    left in its input order. *)
Lemma insert_sorted_filter (P : A → bool) x l :
  (∀ a b, P a = true → P b = true → le a b = true) →
  List.filter P (Py.insert_sorted le x l) = List.filter P (x :: l).
Proof.
  intros Hclass. induction l as [|y l IH]; [done|].
  cbn [Py.insert_sorted]. destruct (le x y) eqn:Hxy; [done|].
  cbn [List.filter] in *. rewrite IH.
  destruct (P x) eqn:Hx, (P y) eqn:Hy; try done.
  rewrite (Hclass x y Hx Hy) in Hxy. done.
Qed.

Lemma stable_sort_filter (P : A → bool) l :
  (∀ a b, P a = true → P b = true → le a b = true) →
  List.filter P (Py.stable_sort le l) = List.filter P l.
Proof.
  intros Hclass. induction l as [|x l IH]; [done|].
  cbn [Py.stable_sort]. rewrite insert_sorted_filter by done.
  cbn [List.filter]. by rewrite IH.
Qed.

Hypothesis le_total : ∀ x y, le x y = true ∨ le y x = true.
Hypothesis le_trans : ∀ x y z, le x y = true → le y z = true → le x z = true.

Lemma insert_sorted_sorted x l :
  StronglySorted (λ a b, le a b = true) l →
  StronglySorted (λ a b, le a b = true) (Py.insert_sorted le x l).
Proof.
  induction 1 as [|y l Hl IH Hy]; simpl.
  - repeat constructor.
  - destruct (le x y) eqn:Hxy.
    + constructor; [by constructor|].
      constructor; [done|].
      eapply Forall_impl; [exact Hy|]. intros z Hz. by eapply le_trans.
    + constructor; [done|].
      rewrite insert_sorted_perm. constructor; [|done].
      destruct (le_total x y); congruence.
Qed.

Lemma stable_sort_sorted l :
  StronglySorted (λ a b, le a b = true) (Py.stable_sort le l).
Proof.
  induction l; simpl; [constructor|]. by apply insert_sorted_sorted.
Qed.
End stable_sort_facts.

Lemma StronglySorted_lookup_lt {A : Type} (R : A → A → Prop) (l : list A) :
  StronglySorted R l →
  ∀ i j x y, (i < j)%nat → l !! i = Some x → l !! j = Some y → R x y.
Proof.
  induction 1 as [|a l Hl IH Ha]; intros i j x y Hij Hi Hj; [done|].
  destruct j as [|j]; [lia|]. destruct i as [|i]; simplify_eq/=.
  - rewrite Forall_forall in Ha. apply Ha.
    by eapply list_elem_of_lookup_2.
  - eapply (IH i j); [lia|done..].
Qed.

Lemma StronglySorted_weaken {A : Type} (R R' : A → A → Prop) (l : list A) :
  (∀ x y, R x y → R' x y) → StronglySorted R l → StronglySorted R' l.
Proof.
  intros HR. induction 1 as [|a l Hl IH Ha]; constructor; [done|].
  eapply Forall_impl; [exact Ha|]. intros y. apply HR.
Qed.

Lemma sorted_perm (l : list Z) : Py.sorted l ≡ₚ l.
Proof. apply stable_sort_perm. Qed.

Lemma sorted_ascending (l : list Z) : StronglySorted Z.le (Py.sorted l).
Proof.
  eapply StronglySorted_weaken; last (apply (stable_sort_sorted Z.leb)).
  - intros x y. apply Z.leb_le.
  - intros x y. rewrite !Z.leb_le. lia.
  - intros x y z. rewrite !Z.leb_le. lia.
Qed.

Lemma count_occ_perm (l l' : list Z) t :
  l ≡ₚ l' → count_occ Z.eq_dec l t = count_occ Z.eq_dec l' t.
Proof.
  induction 1; simpl; repeat case_match; lia.
Qed.

Lemma count_occ_remove (t t' : Z) (l : list Z) :
  count_occ Z.eq_dec (Py.remove t l) t'
  = (count_occ Z.eq_dec l t' - (if decide (t = t') then 1 else 0))%nat.
Proof.
  induction l as [|y l IH]; simpl; [done|].
  destruct (decide (t = y)) as [->|Hty].
  - destruct (Z.eq_dec y t'), (decide (y = t')); first [done | lia].
  - simpl. rewrite IH.
    destruct (Z.eq_dec y t'), (decide (t = t')); first [lia | congruence].
Qed.

Lemma length_remove (t : Z) (l : list Z) :
  t ∈ l → S (length (Py.remove t l)) = length l.
Proof.
  induction l as [|y l IH]; simpl; [by intros ?%elem_of_nil|].
  intros Hin. destruct (decide (t = y)) as [->|Hty]; [done|].
  simpl. rewrite IH; [done|]. set_solver.
Qed.

Lemma count_occ_snoc (t t' : Z) (l : list Z) :
  count_occ Z.eq_dec (l ++ [t]) t'
  = (count_occ Z.eq_dec l t' + (if decide (t = t') then 1 else 0))%nat.
Proof.
  rewrite count_occ_app. simpl.
  destruct (Z.eq_dec t t'), (decide (t = t')); done.
Qed.

Lemma count_occ_elem_of (t : Z) (l : list Z) :
  t ∈ l ↔ (0 < count_occ Z.eq_dec l t)%nat.
Proof. rewrite list_elem_of_In. apply count_occ_In. Qed.

(** * Facts about the dictionary operations *)

Section dict_facts.
Implicit Types (d : owner_dict) (k o : string) (t : Z).

Lemma get_None_keys k d : DD.get k d = None ↔ k ∉ DD.keys d.
Proof.
  unfold DD.keys. induction d as [|[k' v] d IH]; simpl.
  - split; [intros _ ?%elem_of_nil|]; done.
  - rewrite not_elem_of_cons. case_decide; naive_solver.
Qed.

Lemma get_Some_keys k d v : DD.get k d = Some v → k ∈ DD.keys d.
Proof.
  intros Hget. destruct (decide (k ∈ DD.keys d)) as [|Hn]; [done|].
  apply get_None_keys in Hn. congruence.
Qed.

Lemma keys_get k d : k ∈ DD.keys d → DD.get k d = Some (DD.tokens k d).
Proof.
  intros Hk. unfold DD.tokens.
  destruct (DD.get k d) eqn:Hget; [done|].
  by apply get_None_keys in Hget.
Qed.

Lemma get_app k d d' :
  DD.get k (d ++ d') = match DD.get k d with
                       | Some v => Some v
                       | None => DD.get k d'
                       end.
Proof.
  induction d as [|[k' v] d IH]; simpl; [done|]. by case_decide.
Qed.

Lemma get_touch k k' d :
  DD.get k' (DD.touch k d)
  = match DD.get k' d with
    | Some v => Some v
    | None => if decide (k' = k) then Some [] else None
    end.
Proof.
  unfold DD.touch. destruct (DD.get k d) eqn:Hk.
  - destruct (DD.get k' d) eqn:Hk'; [done|].
    case_decide; [congruence|done].
  - rewrite get_app. simpl. by destruct (DD.get k' d).
Qed.

Lemma tokens_touch k k' d : DD.tokens k' (DD.touch k d) = DD.tokens k' d.
Proof.
  unfold DD.tokens. rewrite get_touch.
  destruct (DD.get k' d); [done|]. by case_decide.
Qed.

Lemma touch_keys k d : k ∈ DD.keys (DD.touch k d).
Proof.
  destruct (DD.get k (DD.touch k d)) eqn:Hget.
  - by eapply get_Some_keys.
  - rewrite get_touch in Hget. destruct (DD.get k d); [done|].
    by rewrite decide_True in Hget.
Qed.

Lemma touch_known k d : k ∈ DD.keys d → DD.touch k d = d.
Proof. intros Hk%keys_get. unfold DD.touch. by rewrite Hk. Qed.

Lemma elem_of_keys_touch k k' d :
  k' ∈ DD.keys (DD.touch k d) ↔ k' = k ∨ k' ∈ DD.keys d.
Proof.
  unfold DD.touch, DD.keys. destruct (DD.get k d) eqn:Hk.
  - apply get_Some_keys in Hk. unfold DD.keys in Hk. naive_solver.
  - rewrite fmap_app, elem_of_app. simpl. rewrite list_elem_of_singleton.
    naive_solver.
Qed.

Lemma NoDup_keys_touch k d : NoDup (DD.keys d) → NoDup (DD.keys (DD.touch k d)).
Proof.
  intros Hnd. unfold DD.touch. destruct (DD.get k d) eqn:Hk; [done|].
  apply get_None_keys in Hk. unfold DD.keys in *.
  rewrite fmap_app. apply NoDup_app. split_and!; [done| |].
  - intros x Hx ->%list_elem_of_singleton. done.
  - apply NoDup_singleton.
Qed.

Lemma occurrences_app t d d' :
  occurrences t (d ++ d') = (occurrences t d + occurrences t d')%nat.
Proof. induction d as [|[k v] d IH]; simpl; lia. Qed.

Lemma occurrences_touch t k d : occurrences t (DD.touch k d) = occurrences t d.
Proof.
  unfold DD.touch. destruct (DD.get k d); [done|].
  rewrite occurrences_app. simpl. lia.
Qed.

Lemma total_held_app d d' :
  total_held (d ++ d') = (total_held d + total_held d')%nat.
Proof. induction d as [|[k v] d IH]; simpl; lia. Qed.

Lemma total_held_touch k d : total_held (DD.touch k d) = total_held d.
Proof.
  unfold DD.touch. destruct (DD.get k d); [done|].
  rewrite total_held_app. simpl. lia.
Qed.

Lemma keys_alter f k d : DD.keys (DD.alter f k d) = DD.keys d.
Proof.
  unfold DD.keys. induction d as [|[k' v] d IH]; simpl; [done|].
  case_decide; simpl; by f_equal.
Qed.

Lemma get_alter f k k' d :
  DD.get k' (DD.alter f k d)
  = if decide (k = k') then f <$> DD.get k d else DD.get k' d.
Proof.
  induction d as [|[k0 v] d IH]; simpl; [by case_decide|].
  repeat (case_decide; simpl; simplify_eq); done.
Qed.

Lemma tokens_alter_same f k d :
  k ∈ DD.keys d → DD.tokens k (DD.alter f k d) = f (DD.tokens k d).
Proof.
  intros Hk%keys_get. unfold DD.tokens at 1.
  by rewrite get_alter, decide_True, Hk.
Qed.

Lemma tokens_alter_other f k k' d :
  k ≠ k' → DD.tokens k' (DD.alter f k d) = DD.tokens k' d.
Proof. intros Hne. unfold DD.tokens. by rewrite get_alter, decide_False. Qed.

Lemma occurrences_alter f t k d :
  k ∈ DD.keys d →
  (occurrences t (DD.alter f k d) + count_occ Z.eq_dec (DD.tokens k d) t
   = occurrences t d + count_occ Z.eq_dec (f (DD.tokens k d)) t)%nat.
Proof.
  unfold DD.keys, DD.tokens.
  induction d as [|[k' v] d IH]; simpl; [by intros ?%elem_of_nil|].
  intros Hk. case_decide as Hkk'; simpl; [lia|].
  apply elem_of_cons in Hk as [?|Hk]; [done|]. specialize (IH Hk). lia.
Qed.

Lemma total_held_alter f k d :
  k ∈ DD.keys d →
  (total_held (DD.alter f k d) + length (DD.tokens k d)
   = total_held d + length (f (DD.tokens k d)))%nat.
Proof.
  unfold DD.keys, DD.tokens.
  induction d as [|[k' v] d IH]; simpl; [by intros ?%elem_of_nil|].
  intros Hk. case_decide as Hkk'; simpl; [lia|].
  apply elem_of_cons in Hk as [?|Hk]; [done|]. specialize (IH Hk). lia.
Qed.

Lemma count_occ_tokens_le t o d :
  (count_occ Z.eq_dec (DD.tokens o d) t ≤ occurrences t d)%nat.
Proof.
  unfold DD.tokens. induction d as [|[k v] d IH]; simpl; [done|].
  case_decide; simpl; lia.
Qed.

Lemma occurrences_zero t d :
  NoDup (DD.keys d) → (∀ o, t ∉ DD.tokens o d) → occurrences t d = 0%nat.
Proof.
  unfold DD.keys, DD.tokens.
  induction d as [|[k v] d IH]; simpl; [done|].
  intros [Hk Hnd]%NoDup_cons Hnone.
  rewrite IH; [|done|].
  - pose proof (Hnone k) as Hv. rewrite decide_True in Hv by done.
    simpl in Hv. rewrite count_occ_elem_of in Hv. lia.
  - intros o. specialize (Hnone o). case_decide as Hok; [|done].
    subst o. apply get_None_keys in Hk. unfold DD.keys in Hk.
    rewrite Hk. simpl. apply not_elem_of_nil.
Qed.

Lemma occurrences_zero_tokens t o d :
  occurrences t d = 0%nat → t ∉ DD.tokens o d.
Proof.
  intros Hz. rewrite count_occ_elem_of.
  pose proof (count_occ_tokens_le t o d). lia.
Qed.
End dict_facts.

(** * The loop body, case by case *)

Lemma process_transfer_step st tr : step st tr (process_transfer st tr).
Proof.
  unfold process_transfer, getitem_topics, int_base16.
  destruct (topics tr) as [tps|] eqn:Htps; cbn [mbind result_bind].
  - destruct (Nat.leb_spec 4 (length tps)).
    + destruct (Py.int16 (nth 3 tps EmptyString)) as [token_id|] eqn:Hid;
        cbn [mbind result_bind].
      * by eapply step_transfer.
      * by eapply step_bad_token.
    + by eapply step_skip.
  - by apply step_no_topics.
Qed.

Lemma step_deterministic st tr r1 r2 : step st tr r1 → step st tr r2 → r1 = r2.
Proof.
  destruct 1; destruct 1; simplify_eq; first [done | lia].
Qed.

Lemma step_process_transfer st tr r : step st tr r ↔ process_transfer st tr = r.
Proof.
  split.
  - intros Hr. eapply step_deterministic; [apply process_transfer_step|done].
  - intros <-. apply process_transfer_step.
Qed.

(** * The loop invariant *)

Lemma consistent_initial : consistent initial.
Proof.
  split; simpl.
  - apply NoDup_nil_2.
  - lia.
  - intros o t ?%elem_of_nil. done.
  - intros t o. by rewrite lookup_empty.
  - apply not_elem_of_nil.
Qed.

Lemma remove_from_previous_owner_removed token_id st :
  consistent st → removed token_id st (remove_from_previous_owner token_id st).
Proof.
  intros [Hnd Honce Hown Hknown Hzero].
  assert (Hnone : (∀ o, token_id ∉ DD.tokens o (owner_tokens st)) →
                  occurrences token_id (owner_tokens st) = 0%nat)
    by (by apply occurrences_zero).
  unfold remove_from_previous_owner.
  destruct (nft_owners st !! token_id) as [prev|] eqn:Hprev.
  - pose proof (Hknown _ _ Hprev) as Hkey.
    rewrite (touch_known _ _ Hkey). case_bool_decide as Hin.
    + pose proof (occurrences_alter (Py.remove token_id) token_id _ _ Hkey)
        as Hocc.
      pose proof (total_held_alter (Py.remove token_id) _ _ Hkey) as Htot.
      pose proof (length_remove _ _ Hin) as Hlen.
      pose proof (count_occ_tokens_le token_id prev (owner_tokens st)) as Hle.
      pose proof (Honce token_id) as H1.
      rewrite count_occ_remove, decide_True in Hocc by done.
      apply count_occ_elem_of in Hin as Hpos.
      split; simpl; [|done|lia|lia].
      split; simpl.
      * by rewrite keys_alter.
      * intros t.
        pose proof (occurrences_alter (Py.remove token_id) t _ _ Hkey) as Ht.
        pose proof (count_occ_tokens_le t prev (owner_tokens st)) as Htle.
        rewrite count_occ_remove in Ht. specialize (Honce t).
        case_decide; lia.
      * intros o t Ht. apply Hown.
        destruct (decide (prev = o)) as [<-|Hne].
        -- rewrite tokens_alter_same in Ht by done.
           apply count_occ_elem_of in Ht. rewrite count_occ_remove in Ht.
           apply count_occ_elem_of. lia.
        -- by rewrite tokens_alter_other in Ht.
      * intros t o Ht. rewrite keys_alter. eauto.
      * by rewrite keys_alter.
    + assert (occurrences token_id (owner_tokens st) = 0%nat) as Hz.
      { apply Hnone. intros o Ho. pose proof (Hown _ _ Ho). by simplify_eq. }
      split; simpl; [|done|done|lia]. by split.
  - assert (occurrences token_id (owner_tokens st) = 0%nat) as Hz.
    { apply Hnone. intros o Ho. pose proof (Hown _ _ Ho). congruence. }
    split; [|done|done|lia]. by split.
Qed.

Lemma add_to_new_owner_consistent to_addr token_id st :
  consistent st →
  occurrences token_id (owner_tokens st) = 0%nat →
  consistent (add_to_new_owner to_addr token_id st).
Proof.
  intros [Hnd Honce Hown Hknown Hzero] Hgone.
  unfold add_to_new_owner. case_decide as Hburn; [|by split].
  pose proof (touch_keys to_addr (owner_tokens st)) as Hkey.
  split; simpl.
  - rewrite keys_alter. by apply NoDup_keys_touch.
  - intros t.
    pose proof (occurrences_alter (λ l, l ++ [token_id]) t _ _ Hkey) as Ht.
    simpl in Ht. rewrite count_occ_snoc, occurrences_touch in Ht.
    specialize (Honce t). case_decide; simplify_eq; lia.
  - intros o t Ht. destruct (decide (to_addr = o)) as [<-|Hne].
    + rewrite tokens_alter_same, tokens_touch in Ht by done.
      apply elem_of_app in Ht as [Ht| ->%list_elem_of_singleton].
      * rewrite lookup_insert_ne; [by apply Hown|].
        intros <-. by eapply occurrences_zero_tokens.
      * by rewrite lookup_insert_eq.
    + rewrite tokens_alter_other, tokens_touch in Ht by done.
      rewrite lookup_insert_ne; [by apply Hown|].
      intros <-. by eapply occurrences_zero_tokens.
  - intros t o. rewrite keys_alter, elem_of_keys_touch.
    rewrite lookup_insert. case_decide; naive_solver.
  - rewrite keys_alter, elem_of_keys_touch. naive_solver.
Qed.

Lemma process_transfer_consistent st tr st' :
  consistent st → process_transfer st tr = Ok st' → consistent st'.
Proof.
  intros Hst Hstep%step_process_transfer.
  inversion Hstep as [|tps Htps Hlen|?|tps token_id Htps Hlen Hid]; subst;
    [done|].
  destruct (remove_from_previous_owner_removed token_id st Hst).
  by apply add_to_new_owner_consistent.
Qed.

Lemma replay_from_consistent transfers st st' :
  consistent st → replay_from st transfers = Ok st' → consistent st'.
Proof.
  revert st. induction transfers as [|tr rest IH]; simpl; intros st Hst.
  - by intros [= <-].
  - destruct (process_transfer st tr) as [st1|] eqn:Hstep; simpl; [|done].
    apply IH. by eapply process_transfer_consistent.
Qed.

Lemma replay_consistent transfers st :
  replay transfers = Ok st → consistent st.
Proof. apply replay_from_consistent, consistent_initial. Qed.

Lemma replay_from_app transfers1 transfers2 st :
  replay_from st (transfers1 ++ transfers2)
  = replay_from st transfers1 ≫= λ st', replay_from st' transfers2.
Proof.
  revert st. induction transfers1 as [|tr rest IH]; intros st; simpl; [done|].
  destruct (process_transfer st tr); cbn [mbind result_bind]; [apply IH|done].
Qed.

(** * The snapshot after a burn *)

Lemma remove_from_previous_owner_owners token_id st :
  nft_owners (remove_from_previous_owner token_id st) = nft_owners st.
Proof.
  unfold remove_from_previous_owner.
  destruct (nft_owners st !! token_id); [|done]. by case_bool_decide.
Qed.

(** The half of the invariant that the code keeps: a token that no entry of
    the log sends to a non-zero address has no entry in the snapshot. *)
Lemma replay_from_never_assigned transfers st st' t :
  replay_from st transfers = Ok st' →
  nft_owners st !! t = None →
  (∀ tr a, tr ∈ transfers → sends tr a t → a = ZERO_ADDRESS) →
  nft_owners st' !! t = None.
Proof.
  revert st. induction transfers as [|tr rest IH]; simpl; intros st Hrun Hnone.
  - by injection Hrun as <-.
  - intros Hlog.
    destruct (process_transfer st tr) as [st1|] eqn:Hstep;
      cbn [mbind result_bind] in Hrun; [|done].
    apply (IH st1 Hrun).
    + apply step_process_transfer in Hstep.
      inversion Hstep as [|tps Htps Hlen|?|tps token_id Htps Hlen Hid]; subst;
        [done|].
      unfold add_to_new_owner. case_decide as Hto; simpl;
        rewrite ?remove_from_previous_owner_owners; [|done].
      rewrite lookup_insert_ne; [done|]. intros ->. apply Hto.
      apply (Hlog tr); [apply list_elem_of_here|].
      by exists tps.
    + intros tr' a Hin. apply Hlog. by apply list_elem_of_further.
Qed.

Lemma replay_never_assigned transfers st t :
  replay transfers = Ok st →
  (∀ tr a, tr ∈ transfers → sends tr a t → a = ZERO_ADDRESS) →
  nft_owners st !! t = None.
Proof.
  intros Hrun. by apply (replay_from_never_assigned transfers initial).
Qed.

(** C1 (evaluation at the failing log): after token 5 is minted to A and
    then burned, it is in no token list, yet the snapshot still maps it to
    A: the entry of a burned token is not deleted from [nft_owners]. *)
Theorem burned_token_stays_in_snapshot :
  ∃ st, replay mint_then_burn = Ok st
    ∧ occurrences 5 (owner_tokens st) = 0%nat
    ∧ nft_owners st !! 5 = Some addr_A.
Proof. eexists. split; [vm_compute; reflexivity|]. split; reflexivity. Qed.

(** C2 (evaluation at the log of the example): after the three transfers
    A to B, B to C, C to the zero address of token 1 the holders list is
    empty and [len(nft_owners)], the number that line 50 stores as
    [total_nfts], is 1, not 0; the run itself ends on line 48. *)
Theorem three_hops_total_nfts :
  (λ st, (holders_of st, length (holders_of st), size (nft_owners st)))
    <$> replay three_hops_to_zero
  = Ok ([], 0%nat, 1%nat).
Proof. reflexivity. Qed.

(** * The order of the holders list *)

Lemma count_geb_total x y : count_geb x y = true ∨ count_geb y x = true.
Proof. unfold count_geb. rewrite !Nat.leb_le. lia. Qed.

Lemma count_geb_trans x y z :
  count_geb x y = true → count_geb y z = true → count_geb x z = true.
Proof. unfold count_geb. rewrite !Nat.leb_le. lia. Qed.

Lemma same_count_geb c x y :
  same_count c x = true → same_count c y = true → count_geb x y = true.
Proof.
  unfold same_count, count_geb. rewrite !Nat.eqb_eq, Nat.leb_le. lia.
Qed.

Lemma sort_holders_perm hs : sort_holders hs ≡ₚ hs.
Proof. apply stable_sort_perm. Qed.

Lemma sort_holders_descending hs : count_descending (sort_holders hs).
Proof.
  intros i j hi hj Hij Hi Hj.
  pose proof (stable_sort_sorted count_geb count_geb_total count_geb_trans hs)
    as Hsorted.
  pose proof (StronglySorted_lookup_lt _ _ Hsorted i j hi hj Hij Hi Hj) as Hle.
  by apply Nat.leb_le in Hle.
Qed.

Lemma count_descending_cons x hs :
  count_descending (x :: hs) →
  (∀ z, z ∈ hs → (tokenCount z ≤ tokenCount x)%nat) ∧ count_descending hs.
Proof.
  intros Hdesc. split.
  - intros z [j Hj]%list_elem_of_lookup.
    apply (Hdesc 0%nat (S j) x z); [lia|done..].
  - intros i j hi hj Hij Hi Hj.
    apply (Hdesc (S i) (S j) hi hj); [lia|done..].
Qed.

Lemma filter_same_count_head c x hs l :
  List.filter (same_count c) hs = x :: l → x ∈ hs ∧ tokenCount x = c.
Proof.
  intros Hf. assert (In x (List.filter (same_count c) hs)) as Hin.
  { rewrite Hf. by left. }
  apply filter_In in Hin as [Hin Hc]. split; [by apply list_elem_of_In|].
  by apply Nat.eqb_eq in Hc.
Qed.

Lemma same_count_self x : same_count (tokenCount x) x = true.
Proof. apply Nat.eqb_refl. Qed.

(** A list in descending order of count is determined by its classes of
    equal count: the result of a stable sort is unique, whatever algorithm
    [list.sort] runs. *)
Lemma count_descending_unique hs hs' :
  count_descending hs → count_descending hs' →
  (∀ c, List.filter (same_count c) hs = List.filter (same_count c) hs') →
  hs = hs'.
Proof.
  revert hs'. induction hs as [|x hs IH]; intros [|y hs'] Hd Hd' Hclass.
  - done.
  - specialize (Hclass (tokenCount y)). cbn [List.filter] in Hclass.
    by rewrite same_count_self in Hclass.
  - specialize (Hclass (tokenCount x)). cbn [List.filter] in Hclass.
    by rewrite same_count_self in Hclass.
  - apply count_descending_cons in Hd as [Hx Hd].
    apply count_descending_cons in Hd' as [Hy Hd'].
    assert (tokenCount x = tokenCount y) as Hxy.
    { pose proof (Hclass (tokenCount x)) as Hcx.
      pose proof (Hclass (tokenCount y)) as Hcy.
      cbn [List.filter] in Hcx, Hcy. rewrite same_count_self in Hcx, Hcy.
      symmetry in Hcx.
      destruct (same_count (tokenCount x) y) eqn:Hxy;
        [by apply Nat.eqb_eq in Hxy|].
      destruct (same_count (tokenCount y) x) eqn:Hyx;
        [by apply Nat.eqb_eq in Hyx|].
      apply filter_same_count_head in Hcx as [Hinx _].
      apply filter_same_count_head in Hcy as [Hiny _].
      specialize (Hx _ Hiny). specialize (Hy _ Hinx). lia. }
    assert (x = y ∧ ∀ c, List.filter (same_count c) hs
                         = List.filter (same_count c) hs') as [-> Htail].
    { pose proof (Hclass (tokenCount x)) as Hcx. cbn [List.filter] in Hcx.
      assert (same_count (tokenCount x) y = true) as Hy'
        by (rewrite Hxy; apply same_count_self).
      rewrite same_count_self, Hy' in Hcx. injection Hcx as -> Hcx.
      split; [done|]. intros c. specialize (Hclass c).
      cbn [List.filter] in Hclass.
      destruct (same_count c y); [by injection Hclass|done]. }
    f_equal. by apply IH.
Qed.

Lemma sort_holders_unique hs hs' :
  count_descending hs' →
  (∀ c, List.filter (same_count c) hs' = List.filter (same_count c) hs) →
  hs' = sort_holders hs.
Proof.
  intros Hd Hclass. apply count_descending_unique; [done|..].
  - apply sort_holders_descending.
  - intros c. rewrite Hclass. symmetry.
    apply stable_sort_filter, same_count_geb.
Qed.

(** C3 (as stated, refuted): after token 1 is minted to B and token 2 to A,
    both holders have one token and B stands before A, so ties are not in
    ascending address order. *)
Lemma tie_break_by_address_fails :
  ∃ st, replay mint_B_then_A = Ok st
    ∧ ¬ sorted_with_address_tie_break (holders_of st).
Proof.
  eexists. split; [vm_compute; reflexivity|].
  intros [_ Hties].
  specialize (Hties 0%nat 1%nat _ _ ltac:(lia) eq_refl eq_refl eq_refl).
  vm_compute in Hties. discriminate.
Qed.

(** C3 (amended): for every state, the holders list is a rearrangement of
    the holders collected from the dictionary, it is in descending order of
    token count, and holders with equal counts stand in the order in which
    the dictionary yields their addresses (the order of first insertion);
    addresses are not compared. *)
Theorem holders_sorted_by_count_stable st :
  holders_of st ≡ₚ collect_holders (owner_tokens st)
  ∧ count_descending (holders_of st)
  ∧ ties_in_dict_order (owner_tokens st) (holders_of st).
Proof.
  unfold holders_of. split_and!.
  - apply sort_holders_perm.
  - apply sort_holders_descending.
  - intros c. apply stable_sort_filter. apply same_count_geb.
Qed.

(** * Malformed log entries *)









(** * Exclusivity *)

Lemma holder_occurrences_collect t d :
  holder_occurrences t (collect_holders d) = occurrences t d.
Proof.
  induction d as [|[k v] d IH]; [done|].
  destruct v as [|x v];
    cbn [collect_holders holder_occurrences occurrences tokenIds].
  - by rewrite IH.
  - rewrite IH. f_equal. apply count_occ_perm, sorted_perm.
Qed.

Lemma holder_occurrences_perm t hs hs' :
  hs ≡ₚ hs' → holder_occurrences t hs = holder_occurrences t hs'.
Proof. induction 1; simpl; lia. Qed.

Lemma collect_holders_address a d :
  a ∈ (address <$> collect_holders d) → a ∈ DD.keys d.
Proof.
  unfold DD.keys. induction d as [|[k v] d IH]; simpl; [done|].
  destruct v as [|x v]; simpl; rewrite ?elem_of_cons; naive_solver.
Qed.

Lemma collect_holders_NoDup d :
  NoDup (DD.keys d) → NoDup (address <$> collect_holders d).
Proof.
  induction d as [|[k v] d IH]; simpl; [done|].
  unfold DD.keys in *. simpl. intros [Hk Hnd]%NoDup_cons.
  destruct v as [|x v]; simpl; [by apply IH|].
  apply NoDup_cons. split; [|by apply IH].
  intros Hin%collect_holders_address. done.
Qed.

Lemma consistent_exclusive st : consistent st → exclusive (owner_tokens st).
Proof. intros [Hnd Honce _ _ _]. by split. Qed.

Lemma exclusive_holders_of d :
  exclusive d → exclusive_holders (sort_holders (collect_holders d)).
Proof.
  intros [Hnd Honce]. split.
  - rewrite sort_holders_perm. by apply collect_holders_NoDup.
  - intros t. rewrite (holder_occurrences_perm t _ _ (sort_holders_perm _)).
    rewrite holder_occurrences_collect. apply Honce.
Qed.

(** C5: in every state that the replay of a log reaches (so after every
    prefix of a run), and between the removal and the assignment of the next
    entry, a token occurs at most once over all token lists of
    [owner_tokens], whose keys are distinct; the same holds for the token
    lists of the holders list built from that state. *)
Theorem replay_exclusive transfers st :
  replay transfers = Ok st →
  exclusive (owner_tokens st)
  ∧ (∀ token_id,
       exclusive (owner_tokens (remove_from_previous_owner token_id st)))
  ∧ exclusive_holders (holders_of st).
Proof.
  intros Hst%replay_consistent. split_and!.
  - by apply consistent_exclusive.
  - intros token_id. apply consistent_exclusive.
    by destruct (remove_from_previous_owner_removed token_id st Hst).
  - apply exclusive_holders_of. by apply consistent_exclusive.
Qed.

Lemma replay_exclusive_witness :
  replay mint_B_then_A
  = Ok {| nft_owners := {[ 1 := addr_B; 2 := addr_A ]};
          owner_tokens := [(addr_B, [1]); (addr_A, [2])] |}
  ∧ exclusive [(addr_B, [1]); (addr_A, [2])].
Proof.
  split; [reflexivity|].
  exact (proj1 (replay_exclusive mint_B_then_A _ eq_refl)).
Defined.

(** * Burns *)

Lemma add_to_new_owner_zero token_id st :
  add_to_new_owner ZERO_ADDRESS token_id st = st.
Proof. unfold add_to_new_owner. by rewrite decide_False by (by intros []). Qed.

Lemma process_transfer_burn st tr token_id :
  burns tr token_id →
  process_transfer st tr = Ok (remove_from_previous_owner token_id st).
Proof.
  intros (tps & Htps & Hlen & Hto & Hid). apply step_process_transfer.
  rewrite <-(add_to_new_owner_zero token_id (remove_from_previous_owner _ _)).
  rewrite <-Hto. by eapply step_transfer.
Qed.

Lemma consistent_holders_not_zero st :
  consistent st → ZERO_ADDRESS ∉ (address <$> holders_of st).
Proof.
  intros Hst Hin. apply (cons_zero st Hst).
  apply collect_holders_address. unfold holders_of in Hin.
  by rewrite sort_holders_perm in Hin.
Qed.

(** C6 (as stated, refuted): a burn of token 1 replayed on the empty state
    leaves the total held-token count at 0; it does not lower it by one. *)
Lemma burn_of_unheld_token_keeps_total :
  burns burn_1 1
  ∧ process_transfer initial burn_1 = Ok initial
  ∧ ¬ burn_lowers_total [] burn_1.
Proof.
  assert (burns burn_1 1) as Hburn.
  { eexists. split; [reflexivity|]. split; [simpl; lia|]. by split. }
  split_and!; [done..|].
  intros Hclaim.
  specialize (Hclaim initial initial 1 eq_refl Hburn eq_refl). done.
Qed.

(** C6 (amended): in a state reached by replaying a log, a burn of a token
    that is in a holder's list lowers the total held-token count by exactly
    one, and a burn of a token that is in no list (never minted, or burned
    already) leaves the total unchanged; the token is in no list afterwards.
    The zero address is never a key of [owner_tokens] and never the address
    of a holder of the summary. *)
Theorem burn_effect transfers st tr token_id :
  replay transfers = Ok st →
  burns tr token_id →
  ∃ st', process_transfer st tr = Ok st'
    ∧ (occurrences token_id (owner_tokens st) ≤ 1)%nat
    ∧ (total_held (owner_tokens st') + occurrences token_id (owner_tokens st)
       = total_held (owner_tokens st))%nat
    ∧ occurrences token_id (owner_tokens st') = 0%nat
    ∧ (ZERO_ADDRESS ∉ DD.keys (owner_tokens st'))
    ∧ (ZERO_ADDRESS ∉ (address <$> holders_of st))
    ∧ (ZERO_ADDRESS ∉ (address <$> holders_of st')).
Proof.
  intros Hst%replay_consistent Hburn.
  exists (remove_from_previous_owner token_id st).
  destruct (remove_from_previous_owner_removed token_id st Hst)
    as [Hcons Hown Hgone Htot].
  split_and!; try done.
  - by apply process_transfer_burn.
  - apply (cons_once st Hst).
  - apply (cons_zero _ Hcons).
  - by apply consistent_holders_not_zero.
  - by apply consistent_holders_not_zero.
Qed.

Lemma burn_effect_witness :
  replay mint_B_then_A
  = Ok {| nft_owners := {[ 1 := addr_B; 2 := addr_A ]};
          owner_tokens := [(addr_B, [1]); (addr_A, [2])] |}
  ∧ burns burn_1 1
  ∧ ∃ st', process_transfer
             {| nft_owners := {[ 1 := addr_B; 2 := addr_A ]};
                owner_tokens := [(addr_B, [1]); (addr_A, [2])] |} burn_1
           = Ok st'
      ∧ (total_held (owner_tokens st') + 1 = 2)%nat.
Proof.
  assert (burns burn_1 1) as Hburn.
  { eexists. split; [reflexivity|]. split; [simpl; lia|]. by split. }
  split; [reflexivity|]. split; [exact Hburn|].
  destruct (burn_effect mint_B_then_A _ burn_1 1 eq_refl Hburn)
    as (st' & Hstep & _ & Htot & _).
  exists st'. split; [exact Hstep|exact Htot].
Defined.

(** * Determinism *)

Lemma same_transfer_refl tr : same_transfer tr tr.
Proof.
  unfold same_transfer. destruct (topics tr) as [tps|]; [|done].
  destruct (Nat.leb_spec 4 (length tps)); [by split_and!|done].
Qed.

Lemma same_transfer_process st tr1 tr2 :
  same_transfer tr1 tr2 → process_transfer st tr1 = process_transfer st tr2.
Proof.
  unfold same_transfer, process_transfer, getitem_topics.
  destruct (topics tr1) as [tps1|], (topics tr2) as [tps2|]; try done.
  cbn [mbind result_bind].
  destruct (Nat.leb_spec 4 (length tps1)) as [Hlen1|Hlen1].
  - intros (Hlen2 & Hto & Hid & Hbad).
    rewrite (proj2 (Nat.leb_le _ _) Hlen2).
    unfold address_of_topic, int_base16. rewrite <- Hto, <- Hid.
    destruct (Py.int16 (nth 3 tps1 EmptyString)) as [token_id|]; [done|].
    by rewrite Hbad.
  - intros Hlen2. by rewrite (proj2 (Nat.leb_gt _ _) Hlen2).
Qed.

Lemma same_transfer_replay_from st transfers1 transfers2 :
  Forall2 same_transfer transfers1 transfers2 →
  replay_from st transfers1 = replay_from st transfers2.
Proof.
  intros Hsame. revert st.
  induction Hsame as [|tr1 tr2 rest1 rest2 Htr Hrest IH]; intros st; [done|].
  cbn [replay_from]. rewrite (same_transfer_process st tr1 tr2 Htr).
  destruct (process_transfer st tr2) as [st'|e]; cbn [mbind result_bind];
    [apply IH|done].
Qed.

(** C7: two replays from the empty state end alike, with the same exception
    or with the same snapshot, the same token lists and the same holders
    list, whenever the two logs agree, entry by entry, in what the loop
    reads of an entry; every log agrees with itself ([same_transfer_refl]),
    so two replays of one log end alike.  Nothing else enters the result:
    not the sender, not the event signature, not the spelling of a token
    id. *)
Theorem replay_deterministic transfers1 transfers2 :
  Forall2 same_transfer transfers1 transfers2 →
  replay transfers1 = replay transfers2
  ∧ (nft_owners <$> replay transfers1) = (nft_owners <$> replay transfers2)
  ∧ (holders_of <$> replay transfers1) = (holders_of <$> replay transfers2).
Proof.
  intros Hsame.
  assert (replay transfers1 = replay transfers2) as Heq
    by apply (same_transfer_replay_from initial _ _ Hsame).
  by rewrite Heq.
Qed.

Lemma replay_deterministic_witness :
  Forall2 same_transfer three_hops_to_zero three_hops_to_zero
  ∧ Forall2 same_transfer three_hops_to_zero three_hops_respelled
  ∧ three_hops_to_zero ≠ three_hops_respelled
  ∧ replay three_hops_to_zero = replay three_hops_respelled
  ∧ (nft_owners <$> replay three_hops_respelled) = Ok {[ 1 := addr_C ]}.
Proof.
  assert (Forall2 same_transfer three_hops_to_zero three_hops_to_zero)
    as Hrefl.
  { apply Forall_Forall2_diag, Forall_forall. intros tr _.
    apply same_transfer_refl. }
  assert (Forall2 same_transfer three_hops_to_zero three_hops_respelled)
    as Hsame.
  { unfold three_hops_to_zero, three_hops_respelled.
    apply List.Forall2_cons;
      [|apply List.Forall2_cons;
          [|apply List.Forall2_cons; [|apply List.Forall2_nil]]];
      (unfold same_transfer; cbn [topics mk_transfer length Nat.leb];
       split_and!;
       [cbn [length]; lia|vm_compute; reflexivity|vm_compute; reflexivity
       |vm_compute; discriminate]). }
  split; [exact Hrefl|]. split; [exact Hsame|].
  split; [discriminate|].
  split; [exact (proj1 (replay_deterministic _ _ Hsame))|].
  rewrite <- (proj1 (proj2 (replay_deterministic _ _ Hsame))). reflexivity.
Defined.

(** * Lookup inconsistencies *)

Lemma process_transfer_sends st tr to_addr token_id :
  sends tr to_addr token_id →
  process_transfer st tr
  = Ok (add_to_new_owner to_addr token_id
          (remove_from_previous_owner token_id st)).
Proof.
  intros (tps & Htps & Hlen & Hto & Hid). apply step_process_transfer.
  rewrite <-Hto. by eapply step_transfer.
Qed.

(** C8: when the snapshot names a previous owner for the token of an entry
    and that owner's list does not contain the token, the removal step
    raises nothing and changes no list (every address keeps its token list,
    the snapshot is untouched, and in a state where the previous owner is a
    key the state is unchanged altogether); the entry is then processed as
    usual, and so are the entries after it. *)
Theorem lookup_inconsistency_is_no_op st tr to_addr token_id rest :
  lookup_inconsistency token_id st →
  sends tr to_addr token_id →
  let st1 := remove_from_previous_owner token_id st in
  nft_owners st1 = nft_owners st
  ∧ (∀ o, DD.tokens o (owner_tokens st1) = DD.tokens o (owner_tokens st))
  ∧ total_held (owner_tokens st1) = total_held (owner_tokens st)
  ∧ (∀ o, nft_owners st !! token_id = Some o →
          o ∈ DD.keys (owner_tokens st) → st1 = st)
  ∧ process_transfer st tr = Ok (add_to_new_owner to_addr token_id st1)
  ∧ replay_from st (tr :: rest)
    = replay_from (add_to_new_owner to_addr token_id st1) rest.
Proof.
  intros (prev & Hprev & Hnotin) Hsends st1.
  assert (st1 = {| nft_owners := nft_owners st;
                   owner_tokens := DD.touch prev (owner_tokens st) |}) as Hst1.
  { subst st1. unfold remove_from_previous_owner. rewrite Hprev.
    rewrite bool_decide_eq_false_2; [done|]. by rewrite tokens_touch. }
  split_and!.
  - by rewrite Hst1.
  - intros o. rewrite Hst1. apply tokens_touch.
  - rewrite Hst1. apply total_held_touch.
  - intros o Ho Hkey. simplify_eq. rewrite Hst1, touch_known by done.
    by destruct st.
  - by apply process_transfer_sends.
  - simpl. by rewrite (process_transfer_sends _ _ _ _ Hsends).
Qed.

Lemma lookup_inconsistency_is_no_op_witness :
  replay mint_then_burn = Ok after_mint_then_burn
  ∧ lookup_inconsistency 5 after_mint_then_burn
  ∧ sends remint_5 addr_B 5
  ∧ process_transfer after_mint_then_burn remint_5
    = Ok {| nft_owners := {[ 5 := addr_B ]};
            owner_tokens := [(addr_A, []); (addr_B, [5])] |}.
Proof.
  assert (lookup_inconsistency 5 after_mint_then_burn) as Hinc.
  { exists addr_A. split; [reflexivity|]. apply not_elem_of_nil. }
  assert (sends remint_5 addr_B 5) as Hsends.
  { eexists. split; [reflexivity|]. split; [simpl; lia|]. by split. }
  split; [reflexivity|]. split; [exact Hinc|]. split; [exact Hsends|].
  destruct (lookup_inconsistency_is_no_op after_mint_then_burn remint_5
              addr_B 5 [] Hinc Hsends) as (_ & _ & _ & _ & Hstep & _).
  exact Hstep.
Defined.

(** * The two output files *)

(** C9 (the script at every log): no run writes the CSV file or the JSON
    document, and none prints.  A run whose replay succeeds opens the JSON
    file, which empties it, and ends on line 48 with [NameError] for
    [FINALIZED_BLOCK]; a run whose replay fails ends with the exception of
    the replay before a file is opened. *)
Theorem no_run_writes_the_csv transfers :
  csv_file (main transfers) = Untouched
  ∧ (∀ content, json_file (main transfers) ≠ Written content)
  ∧ stdout (main transfers) = EmptyString
  ∧ match replay transfers with
    | Ok st =>
        exception (main transfers) = Some (NameError "FINALIZED_BLOCK")
        ∧ json_file (main transfers) = Opened
    | Raise e =>
        exception (main transfers) = Some e
        ∧ json_file (main transfers) = Untouched
    end.
Proof.
  unfold main. destruct (replay transfers) as [st|e]; cbn; by split_and!.
Qed.

(** * Holder keys *)

Lemma keys_touch_prefix k d : DD.keys d `prefix_of` DD.keys (DD.touch k d).
Proof.
  unfold DD.touch, DD.keys. destruct (DD.get k d); [done|].
  rewrite fmap_app. by apply prefix_app_r.
Qed.

Lemma remove_from_previous_owner_keys token_id st :
  DD.keys (owner_tokens st)
  `prefix_of` DD.keys (owner_tokens (remove_from_previous_owner token_id st)).
Proof.
  unfold remove_from_previous_owner.
  destruct (nft_owners st !! token_id) as [prev|]; [|done].
  case_bool_decide; simpl; rewrite ?keys_alter; apply keys_touch_prefix.
Qed.

Lemma add_to_new_owner_keys to_addr token_id st :
  DD.keys (owner_tokens st)
  `prefix_of` DD.keys (owner_tokens (add_to_new_owner to_addr token_id st)).
Proof.
  unfold add_to_new_owner. case_decide; [|done].
  simpl. rewrite keys_alter. apply keys_touch_prefix.
Qed.

Lemma add_to_new_owner_key to_addr token_id st :
  to_addr ≠ ZERO_ADDRESS →
  to_addr ∈ DD.keys (owner_tokens (add_to_new_owner to_addr token_id st)).
Proof.
  intros Hto. unfold add_to_new_owner. rewrite decide_True by done.
  simpl. rewrite keys_alter. apply touch_keys.
Qed.

(** Keys are never deleted, and new keys are added at the end. *)
Lemma process_transfer_keys st tr st' :
  process_transfer st tr = Ok st' →
  DD.keys (owner_tokens st) `prefix_of` DD.keys (owner_tokens st').
Proof.
  intros Hstep%step_process_transfer.
  inversion Hstep as [|tps Htps Hlen|?|tps token_id Htps Hlen Hid]; subst;
    [done|].
  etrans; [apply remove_from_previous_owner_keys|apply add_to_new_owner_keys].
Qed.

Lemma replay_from_keys transfers st st' :
  replay_from st transfers = Ok st' →
  DD.keys (owner_tokens st) `prefix_of` DD.keys (owner_tokens st').
Proof.
  revert st. induction transfers as [|tr rest IH]; simpl; intros st.
  - by intros [= <-].
  - destruct (process_transfer st tr) as [st1|] eqn:Hstep;
      cbn [mbind result_bind]; [|done].
    intros Hrest. etrans; [by eapply process_transfer_keys|by apply IH].
Qed.

Lemma replay_from_recipient_key transfers st st' tr to_addr token_id :
  replay_from st transfers = Ok st' →
  tr ∈ transfers → sends tr to_addr token_id → to_addr ≠ ZERO_ADDRESS →
  to_addr ∈ DD.keys (owner_tokens st').
Proof.
  revert st. induction transfers as [|tr0 rest IH]; simpl; intros st Hrun Hin.
  - by apply elem_of_nil in Hin.
  - intros Hsends Hto.
    destruct (process_transfer st tr0) as [st1|] eqn:Hstep;
      cbn [mbind result_bind] in Hrun; [|done].
    apply elem_of_cons in Hin as [->|Hin]; [|by eapply IH].
    rewrite (process_transfer_sends _ _ _ _ Hsends) in Hstep.
    injection Hstep as <-.
    eapply elem_of_prefix; [|by eapply replay_from_keys].
    by apply add_to_new_owner_key.
Qed.

Lemma collect_holders_holder a d :
  DD.tokens a d ≠ [] →
  {| address := a; tokenIds := Py.sorted (DD.tokens a d);
     tokenCount := length (DD.tokens a d) |} ∈ collect_holders d.
Proof.
  unfold DD.tokens. induction d as [|[k v] d IH]; simpl; [done|].
  case_decide as Hk.
  - subst k. simpl. intros Hv. destruct v as [|x v]; [done|]. apply list_elem_of_here.
  - intros Hne. destruct v as [|x v]; [by apply IH|].
    apply list_elem_of_further. by apply IH.
Qed.

(** Recipients that differ as text are different keys and different rows. *)
Lemma distinct_recipients_distinct_holders
    transfers st tr1 tr2 a1 a2 token_id1 token_id2 :
  replay transfers = Ok st →
  tr1 ∈ transfers → tr2 ∈ transfers →
  sends tr1 a1 token_id1 → sends tr2 a2 token_id2 →
  a1 ≠ ZERO_ADDRESS → a2 ≠ ZERO_ADDRESS →
  a1 ≠ a2 →
  let d := owner_tokens st in
  NoDup (DD.keys d) ∧ a1 ∈ DD.keys d ∧ a2 ∈ DD.keys d
  ∧ (DD.tokens a1 d ≠ [] → DD.tokens a2 d ≠ [] →
     ∃ h1 h2, h1 ∈ holders_of st ∧ h2 ∈ holders_of st ∧ h1 ≠ h2
       ∧ address h1 = a1 ∧ tokenIds h1 = Py.sorted (DD.tokens a1 d)
       ∧ address h2 = a2 ∧ tokenIds h2 = Py.sorted (DD.tokens a2 d)).
Proof.
  intros Hst Hin1 Hin2 Hs1 Hs2 Hz1 Hz2 Hne d.
  split_and!.
  - apply (cons_keys st). by apply (replay_consistent transfers).
  - by apply (replay_from_recipient_key transfers initial st tr1 a1 token_id1).
  - by apply (replay_from_recipient_key transfers initial st tr2 a2 token_id2).
  - intros Hh1 Hh2.
    pose proof (collect_holders_holder a1 d Hh1) as Hrow1.
    pose proof (collect_holders_holder a2 d Hh2) as Hrow2.
    eexists _, _. split_and!.
    + unfold holders_of. rewrite sort_holders_perm. exact Hrow1.
    + unfold holders_of. rewrite sort_holders_perm. exact Hrow2.
    + intros Heq. apply (f_equal address) in Heq. by simpl in Heq.
    + done.
    + done.
    + done.
    + done.
Qed.

Lemma lower_app s1 s2 : lower (s1 +:+ s2) = lower s1 +:+ lower s2.
Proof.
  induction s1 as [|c s1 IH]; [done|].
  change (String (ascii_lower c) (lower (s1 +:+ s2))
          = String (ascii_lower c) (lower s1 +:+ lower s2)).
  by rewrite IH.
Qed.

(** C10: the holder key of an entry is the text "0x" followed by the last
    forty characters of its recipient topic, as they stand.  Take a log that
    replays, and two of its entries whose recipient topics end in forty
    characters that are equal up to letter case and differ as text.  Then
    the two keys differ, though equal up to letter case; both are keys of
    [owner_tokens], whose keys are distinct; and when both hold tokens at
    the end, the holders list has two different rows for them, each with the
    tokens listed under its own key. *)
Theorem holder_keys_are_case_sensitive
    transfers st tr1 tr2 tps1 tps2 token_id1 token_id2 :
  let topic1 := nth 2 tps1 EmptyString in
  let topic2 := nth 2 tps2 EmptyString in
  let a1 := "0x" +:+ Py.last40 topic1 in
  let a2 := "0x" +:+ Py.last40 topic2 in
  replay transfers = Ok st →
  tr1 ∈ transfers → tr2 ∈ transfers →
  topics tr1 = Some tps1 → topics tr2 = Some tps2 →
  (4 ≤ length tps1)%nat → (4 ≤ length tps2)%nat →
  Py.int16 (nth 3 tps1 EmptyString) = Some token_id1 →
  Py.int16 (nth 3 tps2 EmptyString) = Some token_id2 →
  a1 ≠ ZERO_ADDRESS → a2 ≠ ZERO_ADDRESS →
  lower (Py.last40 topic1) = lower (Py.last40 topic2) →
  Py.last40 topic1 ≠ Py.last40 topic2 →
  let d := owner_tokens st in
  a1 ≠ a2 ∧ lower a1 = lower a2
  ∧ NoDup (DD.keys d) ∧ a1 ∈ DD.keys d ∧ a2 ∈ DD.keys d
  ∧ (DD.tokens a1 d ≠ [] → DD.tokens a2 d ≠ [] →
     ∃ h1 h2, h1 ∈ holders_of st ∧ h2 ∈ holders_of st ∧ h1 ≠ h2
       ∧ address h1 = a1 ∧ tokenIds h1 = Py.sorted (DD.tokens a1 d)
       ∧ address h2 = a2 ∧ tokenIds h2 = Py.sorted (DD.tokens a2 d)).
Proof.
  intros topic1 topic2 a1 a2 Hst Hin1 Hin2 Htps1 Htps2 Hlen1 Hlen2 Hid1 Hid2
    Hz1 Hz2 Hlower Htext d.
  assert (sends tr1 a1 token_id1) as Hs1 by by exists tps1.
  assert (sends tr2 a2 token_id2) as Hs2 by by exists tps2.
  assert (a1 ≠ a2) as Hne.
  { subst a1 a2. intros Heq. apply Htext. by simplify_eq/=. }
  split; [exact Hne|]. split.
  { subst a1 a2. by rewrite !lower_app, Hlower. }
  exact (distinct_recipients_distinct_holders transfers st tr1 tr2 a1 a2
           token_id1 token_id2 Hst Hin1 Hin2 Hs1 Hs2 Hz1 Hz2 Hne).
Qed.

Lemma holder_keys_are_case_sensitive_witness :
  lower (Py.last40 topic_upper) = lower (Py.last40 topic_A)
  ∧ Py.last40 topic_upper ≠ Py.last40 topic_A
  ∧ holders_of <$> replay mint_two_cases
    = Ok [{| address := addr_upper; tokenIds := [1]; tokenCount := 1 |};
          {| address := addr_A; tokenIds := [2]; tokenCount := 1 |}]
  ∧ ∃ st, replay mint_two_cases = Ok st
      ∧ addr_upper ≠ addr_A
      ∧ addr_upper ∈ DD.keys (owner_tokens st)
      ∧ addr_A ∈ DD.keys (owner_tokens st).
Proof.
  assert (Py.last40 topic_upper ≠ Py.last40 topic_A) as Htext
    by (vm_compute; discriminate).
  split; [reflexivity|]. split; [exact Htext|]. split; [reflexivity|].
  eexists. split; [reflexivity|].
  destruct (holder_keys_are_case_sensitive mint_two_cases _
              (mk_transfer topic_zero topic_upper (id_topic "01"))
              (mk_transfer topic_zero topic_A (id_topic "02"))
              _ _ 1 2 eq_refl
              (list_elem_of_here _ _)
              (list_elem_of_further _ _ _ (list_elem_of_here _ _))
              eq_refl eq_refl ltac:(cbn; lia) ltac:(cbn; lia)
              eq_refl eq_refl ltac:(discriminate) ltac:(discriminate)
              eq_refl Htext) as (Hne & _ & _ & Hk1 & Hk2 & _).
  split; [exact Hne|]. split; [exact Hk1|exact Hk2].
Defined.

(** * Decoded entries *)

Lemma sends_sent tr a t : sends tr a t ↔ sent tr = Some (a, t).
Proof.
  unfold sends, sent. split.
  - intros (tps & -> & Hlen & <- & ->).
    by rewrite (proj2 (Nat.leb_le _ _) Hlen).
  - destruct (topics tr) as [tps|]; [|done].
    destruct (Nat.leb_spec 4 (length tps)); [|done].
    destruct (Py.int16 _) eqn:Hid; [|done].
    intros [= <- <-]. by exists tps.
Qed.

Lemma sends_functional tr a t a' t' :
  sends tr a t → sends tr a' t' → a = a' ∧ t = t'.
Proof. rewrite !sends_sent. by intros -> [= -> ->]. Qed.

Lemma process_transfer_sent st tr st' :
  process_transfer st tr = Ok st' →
  st' = match sent tr with
        | Some (a, t) =>
            add_to_new_owner a t (remove_from_previous_owner t st)
        | None => st
        end.
Proof.
  intros Hstep%step_process_transfer. unfold sent.
  inversion Hstep as [|tps Htps Hlen|?|tps token_id Htps Hlen Hid]; subst;
    rewrite Htps.
  - by rewrite (proj2 (Nat.leb_gt _ _) Hlen).
  - by rewrite (proj2 (Nat.leb_le _ _) Hlen), Hid.
Qed.

Lemma add_to_new_owner_lookup a0 t0 st t :
  nft_owners (add_to_new_owner a0 t0 st) !! t
  = if decide (a0 ≠ ZERO_ADDRESS ∧ t0 = t) then Some a0
    else nft_owners st !! t.
Proof.
  unfold add_to_new_owner. case_decide as Ha0; simpl.
  - rewrite lookup_insert. repeat case_decide; naive_solver.
  - case_decide; naive_solver.
Qed.

Lemma last_assignment_cons t o tr rest :
  last_assignment t o (tr :: rest)
  ↔ last_assignment t o rest
    ∨ (sends tr o t ∧ o ≠ ZERO_ADDRESS
       ∧ ∀ tr' a, tr' ∈ rest → sends tr' a t → a = ZERO_ADDRESS).
Proof.
  split.
  - intros ([|x pre] & y & post & Heq & Hs & Ho & Hpost); simplify_eq/=.
    + by right.
    + left. by exists pre, y, post.
  - intros [(pre & y & post & -> & Hs & Ho & Hpost)|(Hs & Ho & Hpost)].
    + by exists (tr :: pre), y, post.
    + by exists [], tr, rest.
Qed.

Lemma last_transfer_cons t a tr rest :
  last_transfer t a (tr :: rest)
  ↔ last_transfer t a rest
    ∨ (sends tr a t ∧ ∀ tr' a', tr' ∈ rest → ¬ sends tr' a' t).
Proof.
  split.
  - intros ([|x pre] & y & post & Heq & Hs & Hpost); simplify_eq/=.
    + by right.
    + left. by exists pre, y, post.
  - intros [(pre & y & post & -> & Hs & Hpost)|(Hs & Hpost)].
    + by exists (tr :: pre), y, post.
    + by exists [], tr, rest.
Qed.

(** * What the snapshot holds *)

Lemma process_transfer_snapshot st tr st' t o :
  process_transfer st tr = Ok st' →
  nft_owners st' !! t = Some o
  ↔ (sends tr o t ∧ o ≠ ZERO_ADDRESS)
    ∨ (nft_owners st !! t = Some o ∧ ∀ a, sends tr a t → a = ZERO_ADDRESS).
Proof.
  intros ->%process_transfer_sent. setoid_rewrite sends_sent.
  destruct (sent tr) as [[a0 t0]|]; [|naive_solver].
  rewrite add_to_new_owner_lookup, remove_from_previous_owner_owners.
  case_decide as Hcase.
  - destruct Hcase as [Ha0 ->]. split.
    + intros [= <-]. by left.
    + intros [[[= <- ] _]|[_ Hz]]; [done|]. by specialize (Hz a0 eq_refl).
  - split.
    + intros Ho. right. split; [done|]. intros a [= <- <-].
      destruct (decide (a0 = ZERO_ADDRESS)); [done|]. naive_solver.
    + intros [[[= <- <-] Ho]|[Ho _]]; [naive_solver|done].
Qed.

Lemma replay_from_snapshot transfers st st' t o :
  replay_from st transfers = Ok st' →
  nft_owners st' !! t = Some o
  ↔ last_assignment t o transfers
    ∨ (nft_owners st !! t = Some o
       ∧ ∀ tr a, tr ∈ transfers → sends tr a t → a = ZERO_ADDRESS).
Proof.
  revert st. induction transfers as [|tr rest IH]; simpl; intros st Hrun.
  - injection Hrun as <-. split.
    + intros Ho. right. split; [done|]. by intros tr a ?%elem_of_nil.
    + intros [([|??] & ? & ? & ? & _)|[Ho _]]; by simplify_eq/=.
  - destruct (process_transfer st tr) as [st1|] eqn:Hstep;
      cbn [mbind result_bind] in Hrun; [|done].
    rewrite (IH st1 Hrun), last_assignment_cons.
    rewrite (process_transfer_snapshot st tr st1 t o Hstep).
    setoid_rewrite elem_of_cons. naive_solver.
Qed.

(** X1: after a successful replay, the snapshot maps a token to [o] exactly
    when [o] is the recipient of the last entry of the log that sends the
    token to a non-zero address; later burns of the token do not change the
    entry. *)
Theorem snapshot_is_last_assignment transfers st t o :
  replay transfers = Ok st →
  nft_owners st !! t = Some o ↔ last_assignment t o transfers.
Proof.
  intros Hrun. rewrite (replay_from_snapshot transfers initial st t o Hrun).
  simpl. rewrite lookup_empty. naive_solver.
Qed.

Lemma snapshot_is_last_assignment_witness :
  replay mint_then_burn = Ok after_mint_then_burn
  ∧ last_assignment 5 addr_A mint_then_burn.
Proof.
  split; [reflexivity|].
  by apply (snapshot_is_last_assignment mint_then_burn after_mint_then_burn
              5 addr_A eq_refl).
Defined.

(** * Who holds a token *)

Lemma elem_of_remove t t0 (l : list Z) : t ≠ t0 → t ∈ Py.remove t0 l ↔ t ∈ l.
Proof.
  intros Hne. rewrite !count_occ_elem_of, count_occ_remove.
  rewrite decide_False by done. lia.
Qed.

Lemma elem_of_tokens_alter f k a d t :
  (∀ l, t ∈ f l ↔ t ∈ l) →
  t ∈ DD.tokens a (DD.alter f k d) ↔ t ∈ DD.tokens a d.
Proof.
  intros Hf. unfold DD.tokens. rewrite get_alter. case_decide; [|done].
  subst. destruct (DD.get a d); simpl; [apply Hf|done].
Qed.

Lemma remove_from_previous_owner_other t0 st a t :
  t ≠ t0 →
  t ∈ DD.tokens a (owner_tokens (remove_from_previous_owner t0 st))
  ↔ t ∈ DD.tokens a (owner_tokens st).
Proof.
  intros Hne. unfold remove_from_previous_owner.
  destruct (nft_owners st !! t0) as [prev|]; [|done].
  case_bool_decide; simpl.
  - rewrite elem_of_tokens_alter, tokens_touch; [done|].
    intros l. by apply elem_of_remove.
  - by rewrite tokens_touch.
Qed.

Lemma add_to_new_owner_tokens a0 t0 st a t :
  t ∈ DD.tokens a (owner_tokens (add_to_new_owner a0 t0 st))
  ↔ t ∈ DD.tokens a (owner_tokens st)
    ∨ (a0 ≠ ZERO_ADDRESS ∧ a = a0 ∧ t = t0).
Proof.
  unfold add_to_new_owner. case_decide as Ha0; [|naive_solver].
  simpl. destruct (decide (a0 = a)) as [->|Hne].
  - rewrite tokens_alter_same, tokens_touch by apply touch_keys.
    rewrite elem_of_app, list_elem_of_singleton. naive_solver.
  - rewrite tokens_alter_other, tokens_touch by done. naive_solver.
Qed.

Lemma process_transfer_holder st tr st' t a :
  consistent st →
  process_transfer st tr = Ok st' →
  t ∈ DD.tokens a (owner_tokens st')
  ↔ (sends tr a t ∧ a ≠ ZERO_ADDRESS)
    ∨ (t ∈ DD.tokens a (owner_tokens st) ∧ ∀ a', ¬ sends tr a' t).
Proof.
  intros Hst ->%process_transfer_sent. setoid_rewrite sends_sent.
  destruct (sent tr) as [[a0 t0]|]; [|naive_solver].
  rewrite add_to_new_owner_tokens.
  destruct (decide (t = t0)) as [->|Hne].
  - destruct (remove_from_previous_owner_removed t0 st Hst)
      as [_ _ Hgone _].
    pose proof (occurrences_zero_tokens t0 a _ Hgone). naive_solver.
  - rewrite remove_from_previous_owner_other by done. naive_solver.
Qed.

Lemma replay_from_holder transfers st st' t a :
  consistent st →
  replay_from st transfers = Ok st' →
  t ∈ DD.tokens a (owner_tokens st')
  ↔ (last_transfer t a transfers ∧ a ≠ ZERO_ADDRESS)
    ∨ (t ∈ DD.tokens a (owner_tokens st)
       ∧ ∀ tr a', tr ∈ transfers → ¬ sends tr a' t).
Proof.
  revert st. induction transfers as [|tr rest IH]; simpl; intros st Hst Hrun.
  - injection Hrun as <-. split.
    + intros Ht. right. split; [done|]. by intros tr a' ?%elem_of_nil.
    + intros [[([|??] & ? & ? & ? & _) _]|[Ht _]]; by simplify_eq/=.
  - destruct (process_transfer st tr) as [st1|] eqn:Hstep;
      cbn [mbind result_bind] in Hrun; [|done].
    pose proof (process_transfer_consistent st tr st1 Hst Hstep) as Hst1.
    rewrite (IH st1 Hst1 Hrun), last_transfer_cons.
    rewrite (process_transfer_holder st tr st1 t a Hst Hstep).
    setoid_rewrite elem_of_cons. naive_solver.
Qed.

(** X2: after a successful replay, a token is in the list of address [a]
    exactly when the last entry of the log that transfers the token sends it
    to [a] and [a] is not the zero address. *)
Theorem holder_is_last_recipient transfers st t a :
  replay transfers = Ok st →
  t ∈ DD.tokens a (owner_tokens st)
  ↔ last_transfer t a transfers ∧ a ≠ ZERO_ADDRESS.
Proof.
  intros Hrun.
  rewrite (replay_from_holder transfers initial st t a consistent_initial Hrun).
  simpl. split; [|by left].
  intros [?|[Hin _]]; [done|]. by apply elem_of_nil in Hin.
Qed.

Lemma holder_is_last_recipient_witness :
  replay mint_B_then_A
  = Ok {| nft_owners := {[ 1 := addr_B; 2 := addr_A ]};
          owner_tokens := [(addr_B, [1]); (addr_A, [2])] |}
  ∧ last_transfer 2 addr_A mint_B_then_A ∧ addr_A ≠ ZERO_ADDRESS.
Proof.
  split; [reflexivity|].
  apply (holder_is_last_recipient mint_B_then_A _ 2 addr_A eq_refl).
  apply list_elem_of_here.
Defined.

(** * The two totals *)

Lemma total_held_held_tokens d : total_held d = length (held_tokens d).
Proof.
  unfold held_tokens. induction d as [|[k v] d IH]; csimpl; [done|].
  rewrite length_app. lia.
Qed.

Lemma occurrences_held_tokens t d :
  occurrences t d = count_occ Z.eq_dec (held_tokens d) t.
Proof.
  unfold held_tokens. induction d as [|[k v] d IH]; csimpl; [done|].
  rewrite count_occ_app. lia.
Qed.

Lemma held_tokens_holder t d :
  NoDup (DD.keys d) → t ∈ held_tokens d → ∃ o, t ∈ DD.tokens o d.
Proof.
  unfold held_tokens, DD.keys, DD.tokens.
  induction d as [|[k v] d IH]; csimpl; [by intros _ ?%elem_of_nil|].
  intros [Hk Hnd]%NoDup_cons [Hin|Hin]%elem_of_app.
  - exists k. by rewrite decide_True.
  - destruct (IH Hnd Hin) as [o Ho]. exists o.
    case_decide as Hok; [|done]. subst o.
    apply get_None_keys in Hk. unfold DD.keys in Hk. rewrite Hk in Ho.
    by apply elem_of_nil in Ho.
Qed.

Lemma held_tokens_NoDup d :
  (∀ t, (occurrences t d ≤ 1)%nat) → NoDup (held_tokens d).
Proof.
  intros Honce. apply NoDup_ListNoDup, (NoDup_count_occ Z.eq_dec). intros t.
  rewrite <-occurrences_held_tokens. apply Honce.
Qed.

Lemma sum_tokenCount_collect d :
  sum_list (tokenCount <$> collect_holders d) = total_held d.
Proof.
  induction d as [|[k v] d IH]; [done|].
  destruct v as [|x v]; cbn [collect_holders total_held]; [done|].
  cbn [fmap list_fmap sum_list tokenCount]. simpl in IH. rewrite IH. done.
Qed.

Lemma sum_tokenCount_perm (hs hs' : list holder) :
  hs ≡ₚ hs' → sum_list (tokenCount <$> hs) = sum_list (tokenCount <$> hs').
Proof. intros Hperm. by rewrite Hperm. Qed.

Lemma consistent_total_held_le st :
  consistent st → (total_held (owner_tokens st) ≤ size (nft_owners st))%nat.
Proof.
  intros [Hnd Honce Hown _ _].
  rewrite total_held_held_tokens, <-size_dom.
  rewrite <-(size_list_to_set (C := gset Z)) by by apply held_tokens_NoDup.
  apply subseteq_size. intros t Ht%elem_of_list_to_set.
  destruct (held_tokens_holder t _ Hnd Ht) as [o Ho].
  apply elem_of_dom. rewrite (Hown o t Ho). by eexists.
Qed.

(** X3: after a successful replay, the token counts of the holders list
    add up to the number of tokens in the lists of [owner_tokens], and this
    sum never exceeds [len(nft_owners)], the number that line 50 names
    [total_nfts]. *)
Theorem held_tokens_at_most_total_nfts transfers st :
  replay transfers = Ok st →
  sum_list (tokenCount <$> holders_of st) = total_held (owner_tokens st)
  ∧ (sum_list (tokenCount <$> holders_of st) ≤ size (nft_owners st))%nat.
Proof.
  intros Hrun. unfold holders_of.
  rewrite (sum_tokenCount_perm _ _ (sort_holders_perm _)).
  rewrite sum_tokenCount_collect. split; [done|].
  by apply consistent_total_held_le, (replay_consistent transfers).
Qed.

Lemma held_tokens_at_most_total_nfts_witness :
  ∃ st, replay three_hops_to_zero = Ok st
    ∧ sum_list (tokenCount <$> holders_of st) = 0%nat
    ∧ size (nft_owners st) = 1%nat
    ∧ (sum_list (tokenCount <$> holders_of st) ≤ size (nft_owners st))%nat.
Proof.
  eexists. split; [reflexivity|]. split; [reflexivity|].
  split; [reflexivity|].
  exact (proj2 (held_tokens_at_most_total_nfts three_hops_to_zero _ eq_refl)).
Defined.

(** * Where holders come from *)

Lemma recipient_sends tr a :
  recipient tr = Some a ↔ ∃ t, sends tr a t ∧ a ≠ ZERO_ADDRESS.
Proof.
  unfold recipient. setoid_rewrite sends_sent.
  destruct (sent tr) as [[a0 t0]|]; [|naive_solver].
  case_decide; naive_solver.
Qed.

Lemma elem_of_recipients a transfers :
  a ∈ recipients transfers
  ↔ ∃ tr t, tr ∈ transfers ∧ sends tr a t ∧ a ≠ ZERO_ADDRESS.
Proof.
  unfold recipients. rewrite list_elem_of_omap.
  setoid_rewrite recipient_sends. naive_solver.
Qed.

Lemma process_transfer_new_key st tr st' k :
  consistent st →
  process_transfer st tr = Ok st' →
  k ∈ DD.keys (owner_tokens st') →
  k ∈ DD.keys (owner_tokens st) ∨ recipient tr = Some k.
Proof.
  intros Hst ->%process_transfer_sent. unfold recipient.
  destruct (sent tr) as [[a0 t0]|]; [|by left].
  assert (DD.keys (owner_tokens (remove_from_previous_owner t0 st))
          = DD.keys (owner_tokens st)) as Hkeys.
  { unfold remove_from_previous_owner.
    destruct (nft_owners st !! t0) as [prev|] eqn:Hprev; [|done].
    rewrite (touch_known prev) by by eapply (cons_known st).
    case_bool_decide; simpl; by rewrite ?keys_alter. }
  unfold add_to_new_owner. case_decide as Ha0; simpl; rewrite ?Hkeys.
  - rewrite keys_alter, elem_of_keys_touch, Hkeys. naive_solver.
  - by left.
Qed.

Lemma replay_from_new_key transfers st st' k :
  consistent st →
  replay_from st transfers = Ok st' →
  k ∈ DD.keys (owner_tokens st') →
  k ∈ DD.keys (owner_tokens st) ∨ k ∈ recipients transfers.
Proof.
  revert st. induction transfers as [|tr rest IH]; simpl; intros st Hst Hrun.
  - injection Hrun as <-. by left.
  - destruct (process_transfer st tr) as [st1|] eqn:Hstep;
      cbn [mbind result_bind] in Hrun; [|done].
    pose proof (process_transfer_consistent st tr st1 Hst Hstep) as Hst1.
    intros Hk. unfold recipients. cbn [omap list_omap].
    destruct (IH st1 Hst1 Hrun Hk) as [Hk1|Hk1].
    + destruct (process_transfer_new_key st tr st1 k Hst Hstep Hk1) as [?|Hr].
      * by left.
      * right. rewrite Hr. apply list_elem_of_here.
    + right. destruct (recipient tr); [by apply list_elem_of_further|done].
Qed.

(** X4: after a successful replay, every address of the holders list is a
    non-zero recipient of some entry of the log, and the number of holders
    is at most the number of distinct non-zero recipients. *)
Theorem holders_are_recipients transfers st :
  replay transfers = Ok st →
  (∀ a, a ∈ (address <$> holders_of st) → a ∈ recipients transfers)
  ∧ (length (holders_of st)
     ≤ size (list_to_set (recipients transfers) : gset string))%nat.
Proof.
  intros Hrun. pose proof (replay_consistent transfers st Hrun) as Hst.
  assert (∀ a, a ∈ (address <$> holders_of st) → a ∈ recipients transfers)
    as Hsub.
  { intros a Ha. unfold holders_of in Ha. rewrite sort_holders_perm in Ha.
    apply collect_holders_address in Ha.
    destruct (replay_from_new_key transfers initial st a
                consistent_initial Hrun Ha) as [Hin|?]; [|done].
    by apply elem_of_nil in Hin. }
  split; [done|].
  rewrite <-(length_fmap address).
  rewrite <-(size_list_to_set (C := gset string)).
  - apply subseteq_size. intros a Ha%elem_of_list_to_set.
    apply elem_of_list_to_set. by apply Hsub.
  - unfold holders_of. rewrite sort_holders_perm.
    apply collect_holders_NoDup, (cons_keys st Hst).
Qed.

Lemma holders_are_recipients_witness :
  replay mint_B_then_A
  = Ok {| nft_owners := {[ 1 := addr_B; 2 := addr_A ]};
          owner_tokens := [(addr_B, [1]); (addr_A, [2])] |}
  ∧ (2 ≤ size (list_to_set (recipients mint_B_then_A) : gset string))%nat.
Proof.
  split; [reflexivity|].
  exact (proj2 (holders_are_recipients mint_B_then_A _ eq_refl)).
Defined.

(** * The rows of the summary *)

Lemma collect_holders_row h d :
  NoDup (DD.keys d) →
  h ∈ collect_holders d →
  DD.tokens (address h) d ≠ []
  ∧ tokenIds h = Py.sorted (DD.tokens (address h) d)
  ∧ tokenCount h = length (DD.tokens (address h) d).
Proof.
  unfold DD.keys, DD.tokens.
  induction d as [|[k v] d IH]; simpl; [by intros _ ?%elem_of_nil|].
  intros [Hk Hnd]%NoDup_cons Hin.
  assert (h ∈ collect_holders d → address h ≠ k) as Hother.
  { intros Hh <-. apply Hk, (collect_holders_address _ d).
    by apply list_elem_of_fmap_2. }
  destruct v as [|x v].
  - rewrite decide_False by by apply Hother. by apply IH.
  - apply elem_of_cons in Hin as [->|Hin]; simpl.
    + by rewrite decide_True.
    + rewrite decide_False by by apply Hother. by apply IH.
Qed.

(** X5: after a successful replay, an address is in the holders list exactly
    when its token list in [owner_tokens] is not empty, and every row of the
    holders list has at least one token, shows the tokens of its address in
    ascending order, and counts them. *)
Theorem summary_rows transfers st :
  replay transfers = Ok st →
  (∀ a, a ∈ (address <$> holders_of st)
        ↔ DD.tokens a (owner_tokens st) ≠ [])
  ∧ Forall (λ h, (1 ≤ tokenCount h)%nat
                 ∧ tokenIds h = Py.sorted (DD.tokens (address h) (owner_tokens st))
                 ∧ tokenCount h = length (DD.tokens (address h) (owner_tokens st)))
           (holders_of st).
Proof.
  intros Hrun. pose proof (replay_consistent transfers st Hrun) as Hst.
  pose proof (cons_keys st Hst) as Hnd.
  assert (∀ h, h ∈ holders_of st →
               DD.tokens (address h) (owner_tokens st) ≠ []
               ∧ tokenIds h = Py.sorted (DD.tokens (address h) (owner_tokens st))
               ∧ tokenCount h = length (DD.tokens (address h) (owner_tokens st)))
    as Hrow.
  { intros h Hh. unfold holders_of in Hh. rewrite sort_holders_perm in Hh.
    by apply collect_holders_row. }
  split.
  - intros a. split.
    + intros (h & -> & Hh)%list_elem_of_fmap. by apply Hrow.
    + intros Ha. unfold holders_of. rewrite sort_holders_perm.
      apply list_elem_of_fmap. eexists. split; [|by apply collect_holders_holder].
      done.
  - apply Forall_forall. intros h Hh.
    destruct (Hrow h Hh) as (Hne & Hids & Hcount). split_and!; [|done..].
    rewrite Hcount. destruct (DD.tokens _ _); [done|simpl; lia].
Qed.

Lemma summary_rows_witness :
  replay mint_then_burn = Ok after_mint_then_burn
  ∧ ¬ addr_A ∈ (address <$> holders_of after_mint_then_burn).
Proof.
  split; [reflexivity|].
  intros Hin.
  by apply (proj1 (summary_rows mint_then_burn _ eq_refl) addr_A) in Hin.
Defined.

(** * Nothing is deleted *)

Lemma process_transfer_snapshot_grows st tr st' t :
  process_transfer st tr = Ok st' →
  is_Some (nft_owners st !! t) → is_Some (nft_owners st' !! t).
Proof.
  intros ->%process_transfer_sent. destruct (sent tr) as [[a0 t0]|]; [|done].
  rewrite add_to_new_owner_lookup, remove_from_previous_owner_owners.
  by case_decide.
Qed.

Lemma replay_from_snapshot_grows transfers st st' t :
  replay_from st transfers = Ok st' →
  is_Some (nft_owners st !! t) → is_Some (nft_owners st' !! t).
Proof.
  revert st. induction transfers as [|tr rest IH]; simpl; intros st Hrun.
  - by injection Hrun as <-.
  - destruct (process_transfer st tr) as [st1|] eqn:Hstep;
      cbn [mbind result_bind] in Hrun; [|done].
    intros Ht. apply (IH st1 Hrun).
    by eapply process_transfer_snapshot_grows.
Qed.

(** X6: a successful replay of a log that continues another log starts from
    a successful replay of that log, and it deletes nothing: the keys of
    [owner_tokens] after the first part are, in the same order, the first
    keys after the whole, every token of the snapshot stays in the snapshot,
    and [total_nfts] does not decrease. *)
Theorem replay_only_grows transfers1 transfers2 st2 :
  replay (transfers1 ++ transfers2) = Ok st2 →
  ∃ st1, replay transfers1 = Ok st1
    ∧ replay_from st1 transfers2 = Ok st2
    ∧ DD.keys (owner_tokens st1) `prefix_of` DD.keys (owner_tokens st2)
    ∧ dom (nft_owners st1) ⊆ dom (nft_owners st2)
    ∧ (size (nft_owners st1) ≤ size (nft_owners st2))%nat.
Proof.
  unfold replay. rewrite replay_from_app.
  destruct (replay_from initial transfers1) as [st1|];
    cbn [mbind result_bind]; [|done].
  intros Hrun. exists st1.
  assert (dom (nft_owners st1) ⊆ dom (nft_owners st2)) as Hdom.
  { intros t. rewrite !elem_of_dom. by eapply replay_from_snapshot_grows. }
  split_and!; [done..|by eapply replay_from_keys|done|].
  rewrite <-!size_dom. by apply subseteq_size.
Qed.

Lemma replay_only_grows_witness :
  ∃ st1, replay [mk_transfer topic_zero topic_A (id_topic "05")] = Ok st1
    ∧ (size (nft_owners st1) ≤ size (nft_owners after_mint_then_burn))%nat.
Proof.
  destruct (replay_only_grows
              [mk_transfer topic_zero topic_A (id_topic "05")]
              [mk_transfer topic_A topic_zero (id_topic "05")]
              after_mint_then_burn eq_refl)
    as (st1 & Hrun & _ & _ & _ & Hsize).
  exists st1. split; [exact Hrun|exact Hsize].
Defined.

(** * Transfers that leave the summary as it is *)

Lemma alter_alter f g k d :
  DD.alter g k (DD.alter f k d) = DD.alter (g ∘ f) k d.
Proof.
  induction d as [|[k' v] d IH]; simpl; [done|].
  case_decide; simpl.
  - by rewrite decide_True.
  - rewrite decide_False by done. by rewrite IH.
Qed.

Lemma alter_ext f g k d :
  (∀ v, DD.get k d = Some v → f v = g v) → DD.alter f k d = DD.alter g k d.
Proof.
  induction d as [|[k' v] d IH]; simpl; [done|].
  case_decide; intros Hfg.
  - by rewrite Hfg.
  - by rewrite IH.
Qed.

Lemma alter_same k d : DD.alter (λ v, v) k d = d.
Proof.
  induction d as [|[k' v] d IH]; simpl; [done|].
  case_decide; [done|]. by rewrite IH.
Qed.

Lemma collect_holders_app d d' :
  collect_holders (d ++ d') = collect_holders d ++ collect_holders d'.
Proof.
  induction d as [|[k v] d IH]; simpl; [done|].
  destruct v; simpl; by rewrite IH.
Qed.

Lemma collect_holders_touch k d :
  collect_holders (DD.touch k d) = collect_holders d.
Proof.
  unfold DD.touch. destruct (DD.get k d); [done|].
  rewrite collect_holders_app. simpl. by rewrite app_nil_r.
Qed.

Lemma remove_snoc t (l : list Z) : t ∉ l → Py.remove t (l ++ [t]) = l.
Proof.
  induction l as [|y l IH]; simpl.
  - by rewrite decide_True.
  - intros [Hty Hl]%not_elem_of_cons.
    rewrite decide_False by done. by rewrite IH.
Qed.

Lemma remove_perm t (l : list Z) : t ∈ l → t :: Py.remove t l ≡ₚ l.
Proof.
  induction l as [|y l IH]; simpl; [by intros ?%elem_of_nil|].
  intros Hin. case_decide as Hty; [by subst|].
  apply elem_of_cons in Hin as [?|Hin]; [done|].
  rewrite Permutation_swap. by rewrite IH.
Qed.

Lemma sorted_perm_eq (l l' : list Z) : l ≡ₚ l' → Py.sorted l = Py.sorted l'.
Proof.
  intros Hperm. apply (StronglySorted_unique Z.le).
  - apply sorted_ascending.
  - apply sorted_ascending.
  - by rewrite !sorted_perm.
Qed.

Lemma collect_holders_alter_perm f k d :
  (∀ v, DD.get k d = Some v → f v ≡ₚ v) →
  collect_holders (DD.alter f k d) = collect_holders d.
Proof.
  induction d as [|[k' v] d IH]; simpl; [done|].
  case_decide; intros Hf.
  - specialize (Hf v eq_refl). cbn [collect_holders].
    destruct v as [|x v].
    + apply Permutation_nil_r in Hf. by rewrite Hf.
    + destruct (f (x :: v)) as [|y w] eqn:Hfv.
      { by apply Permutation_nil_cons in Hf. }
      f_equal. f_equal; [by apply sorted_perm_eq|by rewrite Hf].
  - cbn [collect_holders]. by rewrite IH.
Qed.

Lemma consistent_unheld_remove t st :
  consistent st → occurrences t (owner_tokens st) = 0%nat →
  remove_from_previous_owner t st = st.
Proof.
  intros Hst Hz. unfold remove_from_previous_owner.
  destruct (nft_owners st !! t) as [prev|] eqn:Hprev; [|done].
  rewrite (touch_known prev) by by eapply (cons_known st).
  rewrite bool_decide_eq_false_2 by by apply occurrences_zero_tokens.
  by destruct st.
Qed.

(** X7: in a state reached by a replay, when a token that is in no list is
    sent to a non-zero address and then burned, both entries are processed
    and the holders list and every address's token list are what they were
    before; only the snapshot keeps the token, mapped to that address. *)
Theorem mint_then_burn_restores_summary transfers st tr1 tr2 a t :
  replay transfers = Ok st →
  occurrences t (owner_tokens st) = 0%nat →
  sends tr1 a t → a ≠ ZERO_ADDRESS → burns tr2 t →
  ∃ st2, replay_from st [tr1; tr2] = Ok st2
    ∧ holders_of st2 = holders_of st
    ∧ (∀ o, DD.tokens o (owner_tokens st2) = DD.tokens o (owner_tokens st))
    ∧ nft_owners st2 = <[t := a]> (nft_owners st).
Proof.
  intros Hst%replay_consistent Hz Hs1 Ha Hburn.
  exists {| nft_owners := <[t := a]> (nft_owners st);
            owner_tokens := DD.touch a (owner_tokens st) |}.
  split_and!; [|unfold holders_of; simpl; by rewrite collect_holders_touch
               |intros o; apply tokens_touch|done].
  cbn [replay_from].
  rewrite (process_transfer_sends _ _ _ _ Hs1); cbn [mbind result_bind].
  rewrite (process_transfer_burn _ _ _ Hburn); cbn [mbind result_bind].
  f_equal. rewrite (consistent_unheld_remove t st Hst Hz).
  unfold add_to_new_owner. rewrite decide_True by done.
  unfold remove_from_previous_owner. cbn [nft_owners owner_tokens].
  rewrite lookup_insert_eq.
  pose proof (touch_keys a (owner_tokens st)) as Hkey.
  rewrite (touch_known a (DD.alter _ a _)) by by rewrite keys_alter.
  rewrite tokens_alter_same, tokens_touch by done.
  rewrite bool_decide_eq_true_2
    by (apply elem_of_app; right; apply list_elem_of_here).
  f_equal. rewrite alter_alter.
  rewrite (alter_ext _ (λ v, v)); [apply alter_same|].
  intros v Hv. simpl. apply remove_snoc.
  rewrite keys_get in Hv by done. injection Hv as <-.
  rewrite tokens_touch. by apply occurrences_zero_tokens.
Qed.

Lemma mint_then_burn_restores_summary_witness :
  ∃ st2, replay_from initial mint_then_burn = Ok st2
    ∧ holders_of st2 = holders_of initial.
Proof.
  assert (sends (mk_transfer topic_zero topic_A (id_topic "05")) addr_A 5)
    as Hs.
  { eexists. split; [reflexivity|]. split; [simpl; lia|]. by split. }
  assert (burns (mk_transfer topic_A topic_zero (id_topic "05")) 5) as Hb.
  { eexists. split; [reflexivity|]. split; [simpl; lia|]. by split. }
  destruct (mint_then_burn_restores_summary [] initial _ _ addr_A 5
              eq_refl eq_refl Hs ltac:(discriminate) Hb)
    as (st2 & Hrun & Hsum & _).
  exists st2. split; [exact Hrun|exact Hsum].
Defined.

(** X8: in a state reached by a replay, an entry that sends a token to the
    address that already holds it is processed without an error and leaves
    the snapshot and the holders list unchanged; in [owner_tokens] the token
    moves to the end of that address's list and no other list changes. *)
Theorem transfer_to_holder_keeps_summary transfers st tr a t :
  replay transfers = Ok st →
  t ∈ DD.tokens a (owner_tokens st) →
  sends tr a t →
  ∃ st', process_transfer st tr = Ok st'
    ∧ nft_owners st' = nft_owners st
    ∧ holders_of st' = holders_of st
    ∧ DD.tokens a (owner_tokens st')
      = Py.remove t (DD.tokens a (owner_tokens st)) ++ [t]
    ∧ ∀ o, o ≠ a →
        DD.tokens o (owner_tokens st') = DD.tokens o (owner_tokens st).
Proof.
  intros Hst%replay_consistent Hin Hsends.
  pose proof (cons_owner st Hst a t Hin) as Hown.
  pose proof (cons_known st Hst t a Hown) as Hkey.
  assert (a ≠ ZERO_ADDRESS) as Ha.
  { intros ->. by apply (cons_zero st Hst). }
  exists {| nft_owners := nft_owners st;
            owner_tokens :=
              DD.alter (λ l, Py.remove t l ++ [t]) a (owner_tokens st) |}.
  split_and!.
  - rewrite (process_transfer_sends _ _ _ _ Hsends). f_equal.
    unfold remove_from_previous_owner. rewrite Hown.
    rewrite (touch_known a) by done.
    rewrite bool_decide_eq_true_2 by done.
    unfold add_to_new_owner. rewrite decide_True by done.
    cbn [nft_owners owner_tokens].
    rewrite (touch_known a) by by rewrite keys_alter.
    rewrite alter_alter. by rewrite insert_id.
  - done.
  - unfold holders_of. cbn [owner_tokens]. f_equal.
    apply collect_holders_alter_perm. intros v Hv.
    rewrite keys_get in Hv by done. injection Hv as <-.
    rewrite <-(remove_perm t (DD.tokens a (owner_tokens st))) at 2 by done.
    by rewrite Permutation_app_comm.
  - cbn [owner_tokens]. by rewrite tokens_alter_same.
  - intros o Ho. cbn [owner_tokens]. by rewrite tokens_alter_other.
Qed.

Lemma transfer_to_holder_keeps_summary_witness :
  ∃ st', process_transfer
           {| nft_owners := {[ 1 := addr_B; 2 := addr_A ]};
              owner_tokens := [(addr_B, [1]); (addr_A, [2])] |}
           (mk_transfer topic_zero topic_A (id_topic "02")) = Ok st'
    ∧ holders_of st'
      = holders_of {| nft_owners := {[ 1 := addr_B; 2 := addr_A ]};
                      owner_tokens := [(addr_B, [1]); (addr_A, [2])] |}.
Proof.
  assert (sends (mk_transfer topic_zero topic_A (id_topic "02")) addr_A 2)
    as Hs.
  { eexists. split; [reflexivity|]. split; [simpl; lia|]. by split. }
  destruct (transfer_to_holder_keeps_summary mint_B_then_A _ _ addr_A 2
              eq_refl (list_elem_of_here _ _) Hs)
    as (st' & Hstep & _ & Hsum & _).
  exists st'. split; [exact Hstep|exact Hsum].
Defined.

(** * The shape of an address key *)

Lemma drop_chars_length n s :
  String.length (Py.drop_chars n s) = (String.length s - n)%nat.
Proof.
  revert s. induction n as [|n IH]; intros [|c s]; simpl;
    first [done | lia | apply IH].
Qed.

Lemma drop_chars_suffix n s :
  ∃ p, s = p +:+ Py.drop_chars n s.
Proof.
  revert s. induction n as [|n IH]; intros [|c s]; simpl;
    try by exists EmptyString.
  destruct (IH s) as [p Hp]. exists (String c p).
  change (String c s = String c (p +:+ Py.drop_chars n s)). by f_equal.
Qed.

Lemma string_app_length (a b : string) :
  String.length (a +:+ b) = (String.length a + String.length b)%nat.
Proof.
  induction a as [|x a IH]; [done|].
  change (S (String.length (a +:+ b)) = S (String.length a + String.length b)).
  by rewrite IH.
Qed.

(** X9: the key derived from a topic is "0x" followed by a suffix of the
    topic of length min(40, length of the topic); in particular it has at
    most 42 characters, and a topic shorter than 40 characters never gives
    the zero address, so an entry with such a recipient topic is not treated
    as a burn. *)
Theorem address_of_topic_shape topic :
  ∃ s p, address_of_topic topic = "0x" +:+ s
    ∧ topic = p +:+ s
    ∧ String.length s = (String.length topic `min` 40)%nat
    ∧ (address_of_topic topic = ZERO_ADDRESS →
       (40 ≤ String.length topic)%nat).
Proof.
  unfold address_of_topic, Py.last40.
  destruct (drop_chars_suffix (String.length topic - 40) topic) as [p Hp].
  exists (Py.drop_chars (String.length topic - 40) topic), p.
  pose proof (drop_chars_length (String.length topic - 40) topic) as Hlen.
  split_and!; [done|done|lia|].
  intros Hzero. apply (f_equal String.length) in Hzero.
  rewrite string_app_length, Hlen in Hzero. simpl in Hzero. lia.
Qed.

Lemma address_of_topic_shape_witness :
  address_of_topic "0x0" = "0x0x0" ∧ address_of_topic "0x0" ≠ ZERO_ADDRESS.
Proof.
  split; [reflexivity|].
  destruct (address_of_topic_shape "0x0") as (s & p & _ & _ & _ & Hshort).
  intros Hzero. apply Hshort in Hzero. simpl in Hzero. lia.
Defined.

(** * Token ids are numbers *)

Lemma ascii_lower_isspace c : Py.isspace (ascii_lower c) = Py.isspace c.
Proof. by destruct c as [[] [] [] [] [] [] [] []]. Qed.

Lemma ascii_lower_digit_value c :
  Py.digit_value (ascii_lower c) = Py.digit_value c.
Proof. by destruct c as [[] [] [] [] [] [] [] []]. Qed.

Lemma ascii_lower_underscore c :
  Ascii.eqb (ascii_lower c) "_" = Ascii.eqb c "_".
Proof. by destruct c as [[] [] [] [] [] [] [] []]. Qed.

Lemma lower_skip_space s : Py.skip_space (lower s) = lower (Py.skip_space s).
Proof.
  induction s as [|c s IH]; simpl; [done|].
  rewrite ascii_lower_isspace. by destruct (Py.isspace c).
Qed.

Lemma lower_read_sign s :
  Py.read_sign (lower s) = ((Py.read_sign s).1, lower (Py.read_sign s).2).
Proof.
  destruct s as [|c s]; [done|].
  by destruct c as [[] [] [] [] [] [] [] []].
Qed.

Lemma lower_read_prefix s : Py.read_prefix (lower s) = lower (Py.read_prefix s).
Proof.
  destruct s as [|c s]; [done|].
  destruct s as [|c' s];
    [by destruct c as [[] [] [] [] [] [] [] []]|].
  destruct s as [|c'' s].
  - destruct c as [[] [] [] [] [] [] [] []]; try done;
      by destruct c' as [[] [] [] [] [] [] [] []].
  - destruct c as [[] [] [] [] [] [] [] []]; try done;
      destruct c' as [[] [] [] [] [] [] [] []]; try done;
      by destruct c'' as [[] [] [] [] [] [] [] []].
Qed.

Lemma lower_scan_digits s prev_us acc n :
  Py.scan_digits (lower s) prev_us acc n
  = (λ r, (r.1, lower r.2)) <$> Py.scan_digits s prev_us acc n.
Proof.
  revert prev_us acc n. induction s as [|c s IH]; intros prev_us acc n; simpl.
  - by destruct prev_us.
  - rewrite ascii_lower_underscore, ascii_lower_digit_value.
    destruct (Ascii.eqb c "_").
    + destruct prev_us; [done|apply IH].
    + destruct (Py.digit_value c); [apply IH|]. by destruct prev_us.
Qed.

Lemma int16_unfold s :
  Py.int16 s
  = let '(sign, s1) := Py.read_sign (Py.skip_space s) in
    let s2 := Py.read_prefix s1 in
    if match s2 with String c _ => Ascii.eqb c "_" | EmptyString => false end
    then None
    else match Py.scan_digits s2 false 0 0 with
         | Some (v, n, rest) =>
             if (n =? 0)%nat then None
             else match Py.skip_space rest with
                  | EmptyString => Some (sign * v)
                  | _ => None
                  end
         | None => None
         end.
Proof.
  unfold Py.int16. destruct (Py.read_sign (Py.skip_space s)) as [sign s1].
  cbv zeta. destruct (Py.read_prefix s1) as [|c s2]; [done|].
  by destruct c as [[] [] [] [] [] [] [] []].
Qed.

Lemma int16_lower s : Py.int16 (lower s) = Py.int16 s.
Proof.
  rewrite !int16_unfold, lower_skip_space, lower_read_sign.
  destruct (Py.read_sign (Py.skip_space s)) as [sign s1]. cbn [fst snd].
  cbv zeta. rewrite lower_read_prefix, lower_scan_digits.
  assert (match lower (Py.read_prefix s1) with
          | String c _ => Ascii.eqb c "_"
          | EmptyString => false
          end
          = match Py.read_prefix s1 with
            | String c _ => Ascii.eqb c "_"
            | EmptyString => false
            end) as ->.
  { destruct (Py.read_prefix s1); [done|apply ascii_lower_underscore]. }
  destruct (match Py.read_prefix s1 with
            | String c _ => Ascii.eqb c "_"
            | EmptyString => false
            end); [done|].
  destruct (Py.scan_digits (Py.read_prefix s1) false 0 0)
    as [[[v n] rest]|]; cbn [fmap option_fmap option_map fst snd]; [|done].
  rewrite lower_skip_space. by destruct (Py.skip_space rest).
Qed.

(** X10: the token id of an entry is the number its fourth topic denotes,
    whatever the letter case of its hexadecimal digits: lowering the case of
    that topic changes neither the decoded recipient and token nor the state
    the entry leads to. *)
Theorem token_id_ignores_letter_case st sig from_t to_t id_t rest st' :
  sent {| topics := Some (sig :: from_t :: to_t :: lower id_t :: rest) |}
  = sent {| topics := Some (sig :: from_t :: to_t :: id_t :: rest) |}
  ∧ (process_transfer st
       {| topics := Some (sig :: from_t :: to_t :: lower id_t :: rest) |}
     = Ok st'
     ↔ process_transfer st
         {| topics := Some (sig :: from_t :: to_t :: id_t :: rest) |}
       = Ok st').
Proof.
  unfold sent, process_transfer, getitem_topics, int_base16.
  cbn [topics length Nat.leb nth mbind result_bind].
  rewrite int16_lower. split; [done|].
  by destruct (Py.int16 id_t).
Qed.

(** * The search for the deployment block *)

Lemma find_deployment_block_loop_unfold get_code lo hi :
  find_deployment_block_loop get_code (lo, hi)
  = if decide (lo < hi) then
      if has_code get_code ((lo + hi) `div` 2)
      then find_deployment_block_loop get_code (lo, (lo + hi) `div` 2)
      else find_deployment_block_loop get_code ((lo + hi) `div` 2 + 1, hi)
    else lo.
Proof.
  rewrite find_deployment_block_loop_equation.
  destruct (Z_lt_dec lo hi); by case_decide.
Qed.

Lemma midpoint_bounds lo hi : lo < hi → lo ≤ (lo + hi) `div` 2 < hi.
Proof.
  intros. split; [apply Z.div_le_lower_bound|apply Z.div_lt_upper_bound]; lia.
Qed.

Lemma find_deployment_block_loop_bracket get_code (n : nat) lo hi :
  Z.to_nat (hi - lo) = n → lo ≤ hi →
  let r := find_deployment_block_loop get_code (lo, hi) in
  lo ≤ r ≤ hi
  ∧ (r = hi ∨ has_code get_code r = true)
  ∧ (r = lo ∨ has_code get_code (r - 1) = false).
Proof.
  revert lo hi. induction (lt_wf n) as [n _ IH]. intros lo hi Hn Hle.
  rewrite find_deployment_block_loop_unfold. case_decide as Hlt.
  - pose proof (midpoint_bounds lo hi Hlt) as Hmid.
    destruct (has_code get_code ((lo + hi) `div` 2)) eqn:Hcode.
    + destruct (IH (Z.to_nat ((lo + hi) `div` 2 - lo)) ltac:(lia)
                  lo ((lo + hi) `div` 2) eq_refl ltac:(lia))
        as (Hr & Hhi & Hlo); cbv zeta.
      set (r := find_deployment_block_loop _ _) in *.
      split_and!; [lia|lia| |done].
      right. destruct Hhi as [->|Hhi]; done.
    + destruct (IH (Z.to_nat (hi - ((lo + hi) `div` 2 + 1))) ltac:(lia)
                  ((lo + hi) `div` 2 + 1) hi eq_refl ltac:(lia))
        as (Hr & Hhi & Hlo); cbv zeta.
      set (r := find_deployment_block_loop _ _) in *.
      split_and!; [lia|lia|done|].
      right. destruct Hlo as [->|Hlo]; [|done].
      by replace ((lo + hi) `div` 2 + 1 - 1) with ((lo + hi) `div` 2) by lia.
  - cbv zeta. split_and!; [lia|lia|left; lia|by left].
Qed.

(** X11: whatever the node answers, for a non-negative latest block the
    search returns a block between 0 and the latest one; the block it
    returns is the latest one or has contract code, and it is block 0 or the
    block before it has no contract code (or could not be read). *)
Theorem find_deployment_block_bracket get_code latest :
  0 ≤ latest →
  let r := find_deployment_block get_code latest in
  0 ≤ r ≤ latest
  ∧ (r = latest ∨ has_code get_code r = true)
  ∧ (r = 0 ∨ has_code get_code (r - 1) = false).
Proof.
  intros Hlatest. unfold find_deployment_block.
  by apply (find_deployment_block_loop_bracket get_code (Z.to_nat (latest - 0))).
Qed.

Lemma find_deployment_block_bracket_witness :
  find_deployment_block code_from_7 100 = 7
  ∧ has_code code_from_7 7 = true ∧ has_code code_from_7 6 = false.
Proof.
  split; [reflexivity|].
  destruct (find_deployment_block_bracket code_from_7 100 ltac:(lia))
    as (_ & [Hlatest|Hcode] & [Hzero|Hbefore]); try discriminate.
  split; [exact Hcode|exact Hbefore].
Defined.

Lemma find_deployment_block_loop_first get_code (n : nat) lo hi d :
  Z.to_nat (hi - lo) = n → lo ≤ d ≤ hi →
  (∀ b, lo ≤ b < hi → has_code get_code b = true ↔ d ≤ b) →
  find_deployment_block_loop get_code (lo, hi) = d.
Proof.
  revert lo hi. induction (lt_wf n) as [n _ IH]. intros lo hi Hn Hd Hmono.
  rewrite find_deployment_block_loop_unfold. case_decide as Hlt; [|lia].
  pose proof (midpoint_bounds lo hi Hlt) as Hmid.
  destruct (has_code get_code ((lo + hi) `div` 2)) eqn:Hcode.
  - apply Hmono in Hcode; [|lia].
    apply (IH (Z.to_nat ((lo + hi) `div` 2 - lo))); [lia|done|lia|].
    intros b Hb. apply Hmono. lia.
  - assert (¬ d ≤ (lo + hi) `div` 2) as Hnot.
    { intros Hle. apply Hmono in Hle; [congruence|lia]. }
    apply (IH (Z.to_nat (hi - ((lo + hi) `div` 2 + 1)))); [lia|done|lia|].
    intros b Hb. apply Hmono. lia.
Qed.

(** X12: when the blocks below the latest one have contract code exactly
    from block [d] on (with [d] between 0 and the latest block), the search
    returns [d]; in particular, when no block below the latest one has code,
    it returns the latest block, whether that block has code or not. *)
Theorem find_deployment_block_first get_code latest d :
  0 ≤ d ≤ latest →
  (∀ b, 0 ≤ b < latest → has_code get_code b = true ↔ d ≤ b) →
  find_deployment_block get_code latest = d.
Proof.
  intros Hd Hmono. unfold find_deployment_block.
  by apply (find_deployment_block_loop_first get_code (Z.to_nat (latest - 0))).
Qed.

Lemma find_deployment_block_first_witness :
  find_deployment_block code_from_7 1000000 = 7.
Proof.
  apply find_deployment_block_first; [lia|].
  intros b Hb. unfold has_code, code_from_7.
  case_decide; simpl; [by split|]. split; [done|lia].
Defined.

(** * Ranges *)

Lemma range_len_nonneg start stop step : 0 < step → 0 ≤ range_len start stop step.
Proof.
  intros Hstep. unfold range_len. case_decide; [|done].
  assert (0 ≤ (stop - start - 1) `div` step) by (apply Z.div_pos; lia). lia.
Qed.

Lemma range_len_cons start stop step :
  0 < step → start < stop →
  range_len start stop step = 1 + range_len (start + step) stop step.
Proof.
  intros Hstep Hlt. unfold range_len. rewrite decide_True by done.
  case_decide as Hnext.
  - replace (stop - start - 1) with ((stop - (start + step) - 1) + 1 * step)
      by lia.
    rewrite Z.div_add by lia. lia.
  - rewrite Z.div_small by lia. lia.
Qed.

Lemma py_range_nil start stop step : stop ≤ start → py_range start stop step = [].
Proof.
  intros Hle. unfold py_range, range_len. by rewrite decide_False by lia.
Qed.

Lemma py_range_cons start stop step :
  0 < step → start < stop →
  py_range start stop step = start :: py_range (start + step) stop step.
Proof.
  intros Hstep Hlt. unfold py_range.
  rewrite (range_len_cons start stop step) by done.
  pose proof (range_len_nonneg (start + step) stop step Hstep) as Hlen.
  rewrite seqZ_cons by lia.
  replace (Z.pred (1 + range_len (start + step) stop step))
    with (range_len (start + step) stop step) by lia.
  replace (Z.succ 0) with (1 + 0) by lia.
  rewrite <-fmap_add_seqZ. csimpl. rewrite <-list_fmap_compose.
  f_equal; [lia|]. apply list_fmap_ext. intros _ i _. simpl. lia.
Qed.

Lemma py_range_ind (P : Z → list Z → Prop) stop step :
  0 < step →
  (∀ start, stop ≤ start → P start []) →
  (∀ start, start < stop →
     P (start + step) (py_range (start + step) stop step) →
     P start (start :: py_range (start + step) stop step)) →
  ∀ start, P start (py_range start stop step).
Proof.
  intros Hstep Hnil Hcons start.
  remember (Z.to_nat (stop - start)) as n eqn:Hn. revert start Hn.
  induction (lt_wf n) as [n _ IH]. intros start Hn.
  destruct (decide (start < stop)) as [Hlt|Hge].
  - rewrite py_range_cons by done. apply Hcons; [done|].
    apply (IH (Z.to_nat (stop - (start + step)))); [lia|done].
  - rewrite py_range_nil by lia. apply Hnil. lia.
Qed.

(** * The blocks that the burn scanner reads *)

Lemma burn_scan_ranges_covered start latest batch blk :
  (∃ r, r ∈ burn_scan_ranges start latest batch ∧ r.1 ≤ blk ≤ r.2)
  ↔ ∃ from_block, from_block ∈ py_range start latest batch
      ∧ from_block ≤ blk ≤ Z.min (from_block + batch - 1) latest.
Proof.
  unfold burn_scan_ranges. split.
  - intros (r & (f & -> & Hf)%list_elem_of_fmap & Hr). by exists f.
  - intros (f & Hf & Hr).
    exists (f, Z.min (f + batch - 1) latest). split; [|exact Hr].
    apply list_elem_of_fmap. by exists f.
Qed.

(** X13: for a positive batch size, the ranges that the burn scanner reads
    cover every block from the start block up to, but not including, the
    latest block; the latest block itself is covered only when the start
    block is below it and their distance is not a multiple of the batch size.
    Blocks outside are never read. *)
Theorem burn_scan_ranges_cover start latest batch blk :
  0 < batch →
  (∃ r, r ∈ burn_scan_ranges start latest batch ∧ r.1 ≤ blk ≤ r.2)
  ↔ start ≤ blk < latest
    ∨ (blk = latest ∧ start < latest ∧ (latest - start) `mod` batch ≠ 0).
Proof.
  intros Hbatch. rewrite burn_scan_ranges_covered. revert start.
  apply (py_range_ind
    (λ start l,
       (∃ f, f ∈ l ∧ f ≤ blk ≤ Z.min (f + batch - 1) latest)
       ↔ start ≤ blk < latest
         ∨ (blk = latest ∧ start < latest
            ∧ (latest - start) `mod` batch ≠ 0))); [done|..].
  - intros start Hge. split; [|lia].
    by intros (f & ?%elem_of_nil & _).
  - intros start Hlt IH.
    assert ((latest - (start + batch)) `mod` batch
            = (latest - start) `mod` batch) as Hmod.
    { replace (latest - (start + batch))
        with ((latest - start) + (-1) * batch) by lia.
      apply Z.mod_add. lia. }
    assert (latest - start < batch →
            (latest - start) `mod` batch = latest - start) as Hsmall.
    { intros. apply Z.mod_small. lia. }
    assert (latest - start = batch → (latest - start) `mod` batch = 0)
      as Hsame.
    { intros ->. apply Z.mod_same. lia. }
    rewrite Hmod in IH. split.
    + intros (f & [->|Hf]%elem_of_cons & Hr).
      * lia.
      * assert (∃ f, f ∈ py_range (start + batch) latest batch
                     ∧ f ≤ blk ≤ Z.min (f + batch - 1) latest) as Hex
          by (by exists f).
        apply IH in Hex. lia.
    + intros Hrhs.
      destruct (decide (blk ≤ Z.min (start + batch - 1) latest
                        ∧ start ≤ blk)) as [Hfirst|Hlater].
      * exists start. split; [apply list_elem_of_here|lia].
      * destruct (proj2 IH) as (f & Hf & Hr); [lia|].
        exists f. split; [by apply list_elem_of_further|done].
Qed.

Lemma burn_scan_ranges_cover_witness :
  burn_scan_ranges start_block (start_block + 10000) burn_batch_size
  = [(14000000, 14004999); (14005000, 14009999)]
  ∧ ¬ ∃ r, r ∈ burn_scan_ranges start_block (start_block + 10000)
                 burn_batch_size
       ∧ r.1 ≤ start_block + 10000 ≤ r.2.
Proof.
  split; [reflexivity|].
  intros Hcov.
  apply (burn_scan_ranges_cover start_block (start_block + 10000)
           burn_batch_size (start_block + 10000)) in Hcov.
  - destruct Hcov as [Hlt|(_ & _ & Hmod)]; [lia|]. by apply Hmod.
  - reflexivity.
Defined.

(** * The batches of the EGG scanner *)

Lemma py_range_step_1 start stop : py_range start stop 1 = seqZ start (stop - start).
Proof.
  unfold py_range, range_len. case_decide.
  - rewrite Z.div_1_r. replace (stop - start - 1 + 1) with (stop - start) by lia.
    trans (Z.add start <$> seqZ 0 (stop - start)).
    + apply list_fmap_ext. intros _ i _. lia.
    + rewrite fmap_add_seqZ. f_equal. lia.
  - by rewrite (seqZ_nil start) by lia.
Qed.

Lemma egg_batches_from start total_supply batch_size :
  0 < batch_size →
  concat ((λ i, py_range i (Z.min (i + batch_size) (total_supply + 1)) 1)
            <$> py_range start (total_supply + 1) batch_size)
  = seqZ start (total_supply + 1 - start)
  ∧ Forall (λ batch, (1 ≤ length batch)%nat
                     ∧ Z.of_nat (length batch) ≤ batch_size)
      ((λ i, py_range i (Z.min (i + batch_size) (total_supply + 1)) 1)
         <$> py_range start (total_supply + 1) batch_size).
Proof.
  intros Hbatch. revert start.
  apply (py_range_ind
    (λ start l,
       concat ((λ i, py_range i (Z.min (i + batch_size) (total_supply + 1)) 1)
                 <$> l)
       = seqZ start (total_supply + 1 - start)
       ∧ Forall (λ batch, (1 ≤ length batch)%nat
                          ∧ Z.of_nat (length batch) ≤ batch_size)
           ((λ i, py_range i (Z.min (i + batch_size) (total_supply + 1)) 1)
              <$> l))); [done|..].
  - intros s Hge. split; [|constructor]. by rewrite seqZ_nil by lia.
  - intros s Hlt [IHcat IHall]. csimpl. rewrite IHcat, py_range_step_1.
    split.
    + destruct (decide (s + batch_size ≤ total_supply + 1)).
      * rewrite Z.min_l by lia.
        replace (s + batch_size - s) with batch_size by lia.
        rewrite <-seqZ_app by lia. f_equal. f_equal. lia.
      * rewrite Z.min_r by lia.
        by rewrite (seqZ_nil (s + batch_size)), app_nil_r by lia.
    + constructor; [|done]. rewrite length_seqZ. lia.
Qed.

(** X14: for a positive batch size, the batches of the EGG scanner, one
    after the other, are the token ids 1, 2, ..., total_supply, each exactly
    once and in order, and every batch has at least one id and at most
    batch-size ids. *)
Theorem egg_batches_partition total_supply batch_size :
  0 < batch_size →
  concat (egg_batches total_supply batch_size) = seqZ 1 total_supply
  ∧ Forall (λ batch, (1 ≤ length batch)%nat
                     ∧ Z.of_nat (length batch) ≤ batch_size)
           (egg_batches total_supply batch_size).
Proof.
  intros Hbatch.
  destruct (egg_batches_from 1 total_supply batch_size Hbatch) as [Hcat Hall].
  split; [|done]. unfold egg_batches. rewrite Hcat. f_equal. lia.
Qed.

Lemma egg_batches_partition_witness :
  egg_batches 23 egg_batch_size
  = [seqZ 1 10; seqZ 11 10; seqZ 21 3]
  ∧ concat (egg_batches 23 egg_batch_size) = seqZ 1 23.
Proof.
  split; [reflexivity|].
  exact (proj1 (egg_batches_partition 23 egg_batch_size eq_refl)).
Defined.

(** * The LUX NFT scanner *)

Lemma held_tokens_touch k d : held_tokens (DD.touch k d) = held_tokens d.
Proof.
  unfold held_tokens, DD.touch. destruct (DD.get k d); [done|].
  rewrite fmap_app, concat_app. simpl. by rewrite app_nil_r.
Qed.

Lemma held_tokens_alter_snoc t k d :
  k ∈ DD.keys d →
  held_tokens (DD.alter (λ l, l ++ [t]) k d) ≡ₚ t :: held_tokens d.
Proof.
  unfold held_tokens, DD.keys.
  induction d as [|[k' v] d IH]; csimpl; [by intros ?%elem_of_nil|].
  intros Hk. case_decide as Hkk'; csimpl.
  - rewrite <-app_assoc. simpl. by rewrite <-Permutation_middle.
  - apply elem_of_cons in Hk as [?|Hk]; [done|].
    rewrite (IH Hk). by rewrite <-Permutation_middle.
Qed.

Lemma held_tokens_elem_of t a d : t ∈ DD.tokens a d → t ∈ held_tokens d.
Proof.
  unfold held_tokens, DD.tokens.
  induction d as [|[k v] d IH]; csimpl; [by intros ?%elem_of_nil|].
  rewrite elem_of_app. case_decide; naive_solver.
Qed.

Lemma StronglySorted_snoc_lt (l : list Z) t :
  StronglySorted Z.lt l → (∀ x, x ∈ l → x < t) →
  StronglySorted Z.lt (l ++ [t]).
Proof.
  induction 1 as [|x l Hl IH Hx]; intros Hlt; simpl.
  - repeat constructor.
  - constructor.
    + apply IH. intros y Hy. apply Hlt. by apply list_elem_of_further.
    + apply Forall_app. split; [done|].
      constructor; [|constructor]. apply Hlt, list_elem_of_here.
Qed.

Lemma Forall_alter (P : string * list Z → Prop) f k d :
  Forall P d →
  (∀ v, (k, v) ∈ d → P (k, v) → P (k, f v)) →
  Forall P (DD.alter f k d).
Proof.
  induction 1 as [|[k' v] d Hkv Hd IH]; intros Hf; simpl; [constructor|].
  case_decide as Hkk'.
  - subst k'. constructor; [|done]. apply Hf; [apply list_elem_of_here|done].
  - constructor; [done|]. apply IH. intros v' Hv'. apply Hf.
    by apply list_elem_of_further.
Qed.

Lemma Forall_touch (P : string * list Z → Prop) k d :
  Forall P d → P (k, []) → Forall P (DD.touch k d).
Proof.
  intros Hd Hk. unfold DD.touch. destruct (DD.get k d); [done|].
  apply Forall_app. split; [done|]. by constructor.
Qed.

Lemma elem_of_dict_held k v d t : (k, v) ∈ d → t ∈ v → t ∈ held_tokens d.
Proof.
  unfold held_tokens. intros Hkv Ht.
  induction d as [|[k' v'] d IH]; csimpl; [by apply elem_of_nil in Hkv|].
  apply elem_of_app. apply elem_of_cons in Hkv as [[= -> ->]|Hkv]; [by left|].
  right. by apply IH.
Qed.

Lemma lux_scanned_start ownerOf : lux_scanned ownerOf 0 LuxScan.start.
Proof.
  split; simpl; try done.
  - apply NoDup_nil_2.
  - by intros t ?%elem_of_nil.
  - apply NoDup_nil_2.
  - by intros a t ?%elem_of_nil.
  - by intros t ?%elem_of_nil.
Qed.

Lemma lux_scanned_mono ownerOf n n' st :
  n ≤ n' → lux_scanned ownerOf n st → lux_scanned ownerOf n' st.
Proof.
  intros Hle [Hk Hb Ho Hs Hown Hburn Hlast Hf].
  split; try done.
  - intros t Ht. specialize (Hb t Ht). lia.
  - lia.
Qed.

Lemma scan_token_scanned ownerOf n st :
  0 ≤ n → lux_scanned ownerOf n st →
  lux_scanned ownerOf (n + 1) (LuxScan.scan_token ownerOf n st).
Proof.
  intros Hn [Hk Hb Ho Hs Hown Hburn Hlast Hf].
  unfold LuxScan.scan_token.
  destruct (ownerOf n) as [owner|message] eqn:Hcall.
  - pose proof (touch_keys (lower owner) (LuxScan.holders st)) as Hkey.
    assert (held_tokens
              (DD.alter (λ l, l ++ [n]) (lower owner)
                 (DD.touch (lower owner) (LuxScan.holders st)))
            ≡ₚ n :: held_tokens (LuxScan.holders st)) as Hheld.
    { by rewrite held_tokens_alter_snoc, held_tokens_touch. }
    split; simpl.
    + rewrite keys_alter. by apply NoDup_keys_touch.
    + intros t. rewrite Hheld. intros [->|Ht]%elem_of_cons; [lia|].
      specialize (Hb t Ht). lia.
    + rewrite Hheld. simpl. apply NoDup_cons. split; [|done].
      intros Hin. specialize (Hb n Hin). lia.
    + apply Forall_alter.
      * apply Forall_touch; [done|]. constructor.
      * intros v Hv Hsorted. simpl in *. apply StronglySorted_snoc_lt; [done|].
        intros x Hx. assert (x ∈ held_tokens (LuxScan.holders st)) as Hheldx.
        { rewrite <-(held_tokens_touch (lower owner)).
          by eapply elem_of_dict_held. }
        assert (0 ≤ x < n); [|lia].
        apply Hb, elem_of_app. by left.
    + intros a t. destruct (decide (lower owner = a)) as [<-|Hne].
      * rewrite tokens_alter_same, tokens_touch by done.
        intros [Ht| ->%list_elem_of_singleton]%elem_of_app; [by apply Hown|].
        by exists owner.
      * rewrite tokens_alter_other, tokens_touch by done. apply Hown.
    + done.
    + lia.
    + done.
  - destruct (LuxScan.nonexistent message) eqn:Hmsg.
    + split; simpl; try done.
      * intros t Ht. specialize (Hb t Ht). lia.
      * lia.
      * lia.
    + split; simpl; try done.
      * intros t. rewrite app_assoc, elem_of_app, list_elem_of_singleton.
        intros [Ht| ->]; [|lia]. specialize (Hb t Ht). lia.
      * rewrite app_assoc. apply NoDup_app. split_and!; [done| |].
        -- intros t Ht ->%list_elem_of_singleton. specialize (Hb n Ht). lia.
        -- apply NoDup_singleton.
      * intros t [Ht| ->%list_elem_of_singleton]%elem_of_app;
          [by apply Hburn|]. by exists message.
      * lia.
Qed.

Lemma scan_tokens_scanned ownerOf (k : nat) n st :
  0 ≤ n → lux_scanned ownerOf n st →
  lux_scanned ownerOf (n + Z.of_nat k)
    (LuxScan.scan_tokens ownerOf (seqZ n (Z.of_nat k)) st).
Proof.
  revert n st. induction k as [|k IH]; intros n st Hn Hst.
  - simpl. by rewrite Z.add_0_r.
  - rewrite seqZ_cons by lia. cbn [LuxScan.scan_tokens].
    case_decide.
    + eapply lux_scanned_mono; [|done]. lia.
    + replace (Z.pred (Z.of_nat (S k))) with (Z.of_nat k) by lia.
      replace (n + Z.of_nat (S k)) with (Z.succ n + Z.of_nat k) by lia.
      apply IH; [lia|]. replace (Z.succ n) with (n + 1) by lia.
      by apply scan_token_scanned.
Qed.

Lemma scan_scanned ownerOf total_supply :
  lux_scanned ownerOf (Z.max total_supply 0)
    (LuxScan.scan ownerOf total_supply).
Proof.
  unfold LuxScan.scan. rewrite py_range_step_1, Z.sub_0_r.
  destruct (decide (0 ≤ total_supply)) as [Hpos|Hneg].
  - rewrite <-(Z2Nat.id total_supply) at 2 by done.
    replace (Z.max total_supply 0) with (0 + Z.of_nat (Z.to_nat total_supply))
      by lia.
    apply scan_tokens_scanned; [done|apply lux_scanned_start].
  - rewrite seqZ_nil by lia. simpl. replace (Z.max total_supply 0) with 0 by lia.
    apply lux_scanned_start.
Qed.

Lemma sorted_of_increasing (l : list Z) :
  StronglySorted Z.lt l → Py.sorted l = l.
Proof.
  intros Hl. apply (StronglySorted_unique Z.le).
  - apply sorted_ascending.
  - eapply StronglySorted_weaken; [|done]. intros x y. lia.
  - apply sorted_perm.
Qed.

Lemma tokens_of_item k v d : NoDup (DD.keys d) → (k, v) ∈ d → DD.tokens k d = v.
Proof.
  unfold DD.keys, DD.tokens.
  induction d as [|[k' v'] d IH]; csimpl; [by intros _ ?%elem_of_nil|].
  intros [Hk Hnd]%NoDup_cons [[= -> ->]|Hin]%elem_of_cons.
  - by rewrite decide_True.
  - rewrite decide_False; [by apply IH|].
    intros ->. apply Hk. apply list_elem_of_fmap. by exists (k', v).
Qed.

(** X15: whatever the contract answers, the scan puts a token id in at most
    one place, a holder's list or the burned list, and at most once; only ids
    from 0 up to the total supply are recorded; an id is listed under the
    lower-cased owner that [ownerOf] returned for it, and it is in the burned
    list only when the call raised with a message that names neither a
    nonexistent nor an invalid token; and each row of the result shows the
    list of its address, which is already in ascending order, with its
    length. *)
Theorem lux_scan_classifies ownerOf total_supply :
  let st := LuxScan.scan ownerOf total_supply in
  NoDup (held_tokens (LuxScan.holders st) ++ LuxScan.burned st)
  ∧ (∀ t, t ∈ held_tokens (LuxScan.holders st) ++ LuxScan.burned st →
          0 ≤ t < total_supply)
  ∧ (∀ a t, t ∈ DD.tokens a (LuxScan.holders st) →
            ∃ owner, ownerOf t = LuxScan.Returns owner ∧ a = lower owner)
  ∧ (∀ t, t ∈ LuxScan.burned st →
          ∃ message, ownerOf t = LuxScan.Throws message
                     ∧ LuxScan.nonexistent message = false)
  ∧ Forall (λ row,
              LuxScan.token_ids row.2 = DD.tokens row.1 (LuxScan.holders st)
              ∧ LuxScan.token_count row.2 = length (LuxScan.token_ids row.2))
           (LuxScan.holder_rows (LuxScan.results_of st)).
Proof.
  intros st. destruct (scan_scanned ownerOf total_supply)
    as [Hk Hb Ho Hs Hown Hburn Hlast Hf]. fold st in Hk, Hb, Ho, Hs, Hown, Hburn.
  split_and!; [done| |done|done|].
  - intros t Ht. specialize (Hb t Ht). lia.
  - unfold LuxScan.results_of. cbn [LuxScan.holder_rows].
    apply Forall_fmap, Forall_forall. intros [k v] Hkv. simpl.
    rewrite Forall_forall in Hs. specialize (Hs (k, v) Hkv). simpl in Hs.
    rewrite (sorted_of_increasing v Hs). split; [|done].
    symmetry. by apply tokens_of_item.
Qed.

Lemma scan_token_returns ownerOf t owner st :
  ownerOf t = LuxScan.Returns owner →
  LuxScan.scan_token ownerOf t st
  = {| LuxScan.holders :=
         DD.alter (λ l, l ++ [t]) (lower owner)
           (DD.touch (lower owner) (LuxScan.holders st));
       LuxScan.burned := LuxScan.burned st;
       LuxScan.last_valid_token := t;
       LuxScan.consecutive_failures := 0 |}.
Proof. intros Hcall. unfold LuxScan.scan_token. by rewrite Hcall. Qed.

Lemma scan_tokens_all_owned ownerOf (k : nat) n st :
  (∀ t, n ≤ t < n + Z.of_nat k → ∃ owner, ownerOf t = LuxScan.Returns owner) →
  LuxScan.consecutive_failures st = 0 →
  let st' := LuxScan.scan_tokens ownerOf (seqZ n (Z.of_nat k)) st in
  LuxScan.consecutive_failures st' = 0
  ∧ LuxScan.burned st' = LuxScan.burned st
  ∧ Z.of_nat (total_held (LuxScan.holders st'))
    = Z.of_nat (total_held (LuxScan.holders st)) + Z.of_nat k
  ∧ ((0 < k)%nat → LuxScan.last_valid_token st' = n + Z.of_nat k - 1)
  ∧ (∀ t owner, n ≤ t < n + Z.of_nat k → ownerOf t = LuxScan.Returns owner →
                t ∈ DD.tokens (lower owner) (LuxScan.holders st'))
  ∧ (∀ a t, t ∈ DD.tokens a (LuxScan.holders st) →
            t ∈ DD.tokens a (LuxScan.holders st')).
Proof.
  revert n st. induction k as [|k IH]; intros n st Hret Hcf.
  - simpl. split_and!; [done|done|lia|lia| |done]. intros t owner Ht. lia.
  - rewrite seqZ_cons by lia. cbn [LuxScan.scan_tokens].
    rewrite decide_False by lia.
    replace (Z.pred (Z.of_nat (S k))) with (Z.of_nat k) by lia.
    destruct (Hret n ltac:(lia)) as [owner0 Hcall].
    rewrite (scan_token_returns _ _ _ _ Hcall).
    set (st1 := {| LuxScan.holders := _ |}).
    destruct (IH (Z.succ n) st1) as (Hcf' & Hb' & Htot & Hlast & Hin & Hkeep);
      [intros t Ht; apply Hret; lia|done|].
    pose proof (touch_keys (lower owner0) (LuxScan.holders st)) as Hkey.
    assert (∀ a t, t ∈ DD.tokens a (LuxScan.holders st) →
                   t ∈ DD.tokens a (LuxScan.holders st1)) as Hstep.
    { intros a t Ht. subst st1. cbn [LuxScan.holders].
      destruct (decide (lower owner0 = a)) as [<-|Hne].
      - rewrite tokens_alter_same, tokens_touch by done.
        apply elem_of_app. by left.
      - by rewrite tokens_alter_other, tokens_touch. }
    cbv zeta. split_and!.
    + done.
    + by rewrite Hb'.
    + rewrite Htot. subst st1. cbn [LuxScan.holders].
      pose proof (total_held_alter (λ l, l ++ [n]) (lower owner0) _ Hkey)
        as Halter.
      simpl in Halter. rewrite length_app, total_held_touch in Halter.
      simpl in Halter. lia.
    + intros _. destruct k as [|k].
      * simpl. lia.
      * rewrite Hlast by lia. lia.
    + intros t owner Ht Hcallt. destruct (decide (t = n)) as [->|Hne].
      * apply Hkeep. subst st1. cbn [LuxScan.holders].
        rewrite Hcall in Hcallt. injection Hcallt as <-.
        rewrite tokens_alter_same by done.
        apply elem_of_app. right. apply list_elem_of_here.
      * apply Hin; [lia|done].
    + intros a t Ht. by apply Hkeep, Hstep.
Qed.

Lemma sum_token_count_rows (d : owner_dict) :
  sum_list (LuxScan.token_count ∘ snd
            <$> ((λ item : string * list Z,
                    (item.1, {| LuxScan.token_count := length item.2;
                                LuxScan.token_ids := Py.sorted item.2;
                                LuxScan.validator_eligible := true |}))
                   <$> d))
  = total_held d.
Proof.
  induction d as [|[k v] d IH]; csimpl; [done|]. by rewrite IH.
Qed.

(** X16: when the total supply is positive and the contract returns an owner
    for every id below it, the whole range is scanned, the result reports
    that total supply, no burned token and as many held NFTs as the total
    supply, the token counts of the rows add up to the total supply, and
    every id is in the list of its lower-cased owner. *)
Theorem lux_scan_all_owned ownerOf total_supply :
  0 < total_supply →
  (∀ t, 0 ≤ t < total_supply → ∃ owner, ownerOf t = LuxScan.Returns owner) →
  let res := LuxScan.scan_lux_nft_holders ownerOf total_supply in
  LuxScan.total_supply res = total_supply
  ∧ LuxScan.burned_tokens res = 0%nat
  ∧ LuxScan.total_nfts_held (LuxScan.result_summary res) = total_supply
  ∧ Z.of_nat (sum_list (LuxScan.token_count ∘ snd <$> LuxScan.holder_rows res))
    = total_supply
  ∧ (∀ t owner, 0 ≤ t < total_supply → ownerOf t = LuxScan.Returns owner →
       t ∈ DD.tokens (lower owner)
             (LuxScan.holders (LuxScan.scan ownerOf total_supply))).
Proof.
  intros Hpos Hret res. subst res.
  assert (LuxScan.scan ownerOf total_supply
          = LuxScan.scan_tokens ownerOf
              (seqZ 0 (Z.of_nat (Z.to_nat total_supply))) LuxScan.start)
    as Hscan.
  { unfold LuxScan.scan. rewrite py_range_step_1, Z.sub_0_r.
    by rewrite Z2Nat.id by lia. }
  destruct (scan_tokens_all_owned ownerOf (Z.to_nat total_supply) 0
              LuxScan.start)
    as (Hcf & Hb & Htot & Hlast & Hin & _); [intros t Ht; apply Hret; lia|done|].
  rewrite <-Hscan in Hcf, Hb, Htot, Hlast, Hin.
  unfold LuxScan.scan_lux_nft_holders, LuxScan.results_of.
  cbn [LuxScan.total_supply LuxScan.burned_tokens LuxScan.result_summary
       LuxScan.total_nfts_held LuxScan.holder_rows].
  rewrite sum_token_count_rows, Hb, Htot, Hlast by lia. simpl.
  split_and!; [lia|done|lia|lia|].
  intros t owner Ht. apply Hin. lia.
Qed.

Lemma lux_scan_all_owned_witness :
  LuxScan.total_supply
    (LuxScan.scan_lux_nft_holders (λ _, LuxScan.Returns addr_upper) 3) = 3
  ∧ 2 ∈ DD.tokens addr_A
          (LuxScan.holders
             (LuxScan.scan (λ _, LuxScan.Returns addr_upper) 3)).
Proof.
  destruct (lux_scan_all_owned (λ _, LuxScan.Returns addr_upper) 3
              ltac:(lia) ltac:(by eexists))
    as (Htotal & _ & _ & _ & Hin).
  split; [exact Htotal|].
  exact (Hin 2 addr_upper ltac:(lia) eq_refl).
Defined.

Lemma scan_tokens_all_throw ownerOf (ids : list Z) st :
  (∀ t, t ∈ ids → ∃ message, ownerOf t = LuxScan.Throws message) →
  LuxScan.holders (LuxScan.scan_tokens ownerOf ids st) = LuxScan.holders st
  ∧ LuxScan.last_valid_token (LuxScan.scan_tokens ownerOf ids st)
    = LuxScan.last_valid_token st.
Proof.
  revert st. induction ids as [|t ids IH]; intros st Hthrow; [done|].
  cbn [LuxScan.scan_tokens]. case_decide; [done|].
  destruct (IH (LuxScan.scan_token ownerOf t st)) as [Hh Hl].
  { intros t' Ht'. apply Hthrow. by apply list_elem_of_further. }
  rewrite Hh, Hl. unfold LuxScan.scan_token.
  destruct (Hthrow t (list_elem_of_here _ _)) as [message ->].
  by destruct (LuxScan.nonexistent message).
Qed.

(** X17: the reported total supply is the last token id with an owner plus
    one, and at least 1 whatever the contract answers; when no call returns
    an owner, also when the given total supply is zero or negative, the
    result has no holder row, reports a total supply of 1, and counts
    1 minus the number of burned tokens as held. *)
Theorem lux_scan_reports_at_least_one ownerOf total_supply :
  let res := LuxScan.scan_lux_nft_holders ownerOf total_supply in
  1 ≤ LuxScan.total_supply res
  ∧ ((∀ t, 0 ≤ t < total_supply →
           ∃ message, ownerOf t = LuxScan.Throws message) →
     LuxScan.total_supply res = 1
     ∧ LuxScan.unique_holders res = 0%nat
     ∧ LuxScan.holder_rows res = []
     ∧ LuxScan.total_nfts_held (LuxScan.result_summary res)
       = 1 - Z.of_nat (LuxScan.burned_tokens res)).
Proof.
  intros res. subst res. unfold LuxScan.scan_lux_nft_holders.
  split.
  - destruct (scan_scanned ownerOf total_supply) as [_ _ _ _ _ _ Hlast _].
    unfold LuxScan.results_of. cbn [LuxScan.total_supply]. lia.
  - intros Hthrow.
    destruct (scan_tokens_all_throw ownerOf (py_range 0 total_supply 1)
                LuxScan.start) as [Hh Hl].
    { intros t Ht. apply Hthrow. rewrite py_range_step_1 in Ht.
      apply elem_of_seqZ in Ht. lia. }
    fold (LuxScan.scan ownerOf total_supply) in Hh, Hl.
    unfold LuxScan.results_of.
    cbn [LuxScan.total_supply LuxScan.unique_holders LuxScan.holder_rows
         LuxScan.result_summary LuxScan.total_nfts_held
         LuxScan.burned_tokens].
    by rewrite Hh, Hl.
Qed.

Lemma lux_scan_reports_at_least_one_witness :
  LuxScan.total_supply
    (LuxScan.scan_lux_nft_holders (λ _, LuxScan.Throws "no such token") 0)
  = 1.
Proof.
  destruct (lux_scan_reports_at_least_one
              (λ _, LuxScan.Throws "no such token") 0) as [_ Hnone].
  destruct Hnone as (Htotal & _); [by eexists|exact Htotal].
Defined.

(** * The scan stops after a gap *)

Lemma scan_tokens_app ownerOf ids1 ids2 st :
  LuxScan.scan_tokens ownerOf (ids1 ++ ids2) st
  = LuxScan.scan_tokens ownerOf ids2 (LuxScan.scan_tokens ownerOf ids1 st).
Proof.
  revert st. induction ids1 as [|t ids1 IH]; intros st; [done|].
  cbn [app LuxScan.scan_tokens]. case_decide as Hstop; [|apply IH].
  destruct ids2; cbn [LuxScan.scan_tokens]; [done|]. by rewrite decide_True.
Qed.

Lemma scan_tokens_failures_nonneg ownerOf ids st :
  0 ≤ LuxScan.consecutive_failures st →
  0 ≤ LuxScan.consecutive_failures (LuxScan.scan_tokens ownerOf ids st).
Proof.
  revert st. induction ids as [|t ids IH]; intros st Hst; [done|].
  cbn [LuxScan.scan_tokens]. case_decide; [done|]. apply IH.
  unfold LuxScan.scan_token. destruct (ownerOf t) as [|message]; [done|].
  destruct (LuxScan.nonexistent message); simpl; lia.
Qed.

Lemma scan_tokens_gap ownerOf (k : nat) n st :
  (∀ t, n ≤ t < n + Z.of_nat k →
        ∃ message, ownerOf t = LuxScan.Throws message
                   ∧ LuxScan.nonexistent message = true) →
  0 ≤ LuxScan.consecutive_failures st →
  Z.of_nat k + LuxScan.consecutive_failures st
  ≤ LuxScan.consecutive_failures
      (LuxScan.scan_tokens ownerOf (seqZ n (Z.of_nat k)) st)
  ∨ 100 < LuxScan.consecutive_failures
            (LuxScan.scan_tokens ownerOf (seqZ n (Z.of_nat k)) st).
Proof.
  revert n st. induction k as [|k IH]; intros n st Hgap Hst.
  - left. simpl. lia.
  - rewrite seqZ_cons by lia. cbn [LuxScan.scan_tokens].
    case_decide; [by right|].
    replace (Z.pred (Z.of_nat (S k))) with (Z.of_nat k) by lia.
    destruct (Hgap n ltac:(lia)) as (message & Hcall & Hmsg).
    assert (LuxScan.consecutive_failures (LuxScan.scan_token ownerOf n st)
            = LuxScan.consecutive_failures st + 1) as Hcf.
    { unfold LuxScan.scan_token. by rewrite Hcall, Hmsg. }
    destruct (IH (Z.succ n) (LuxScan.scan_token ownerOf n st))
      as [Hle|Hstop]; [intros t Ht; apply Hgap; lia|lia| |by right].
    left. lia.
Qed.

Lemma scan_tokens_stopped ownerOf ids st :
  100 < LuxScan.consecutive_failures st →
  LuxScan.scan_tokens ownerOf ids st = st.
Proof. intros Hstop. destruct ids; [done|]. simpl. by rewrite decide_True. Qed.

(** X18: when the contract reports 101 consecutive token ids, from [s] on,
    as nonexistent or invalid, the scan stops there: for every total supply
    beyond that gap the result is the result for the total supply [s + 101],
    so no token after the gap is recorded, whatever the contract would
    answer for it. *)
Theorem lux_scan_stops_after_gap ownerOf s total_supply :
  0 ≤ s →
  (∀ t, s ≤ t ≤ s + 100 →
        ∃ message, ownerOf t = LuxScan.Throws message
                   ∧ LuxScan.nonexistent message = true) →
  s + 101 ≤ total_supply →
  LuxScan.scan_lux_nft_holders ownerOf total_supply
  = LuxScan.scan_lux_nft_holders ownerOf (s + 101).
Proof.
  intros Hs Hgap Htotal. unfold LuxScan.scan_lux_nft_holders. f_equal.
  unfold LuxScan.scan. rewrite !py_range_step_1, !Z.sub_0_r.
  assert (seqZ 0 total_supply
          = seqZ 0 (s + 101) ++ seqZ (s + 101) (total_supply - (s + 101)))
    as ->.
  { rewrite <-(seqZ_app 0 (s + 101)) by lia. f_equal. lia. }
  rewrite scan_tokens_app. apply scan_tokens_stopped.
  assert (seqZ 0 (s + 101) = seqZ 0 s ++ seqZ s (Z.of_nat 101)) as ->.
  { rewrite (seqZ_app 0 s 101) by lia. by rewrite Z.add_0_l. }
  rewrite scan_tokens_app.
  pose proof (scan_tokens_failures_nonneg ownerOf (seqZ 0 s) LuxScan.start
                ltac:(done)) as Hnonneg.
  destruct (scan_tokens_gap ownerOf 101 s
              (LuxScan.scan_tokens ownerOf (seqZ 0 s) LuxScan.start))
    as [Hle|Hstop]; [intros t Ht; apply Hgap; lia|done| |done].
  change (Z.of_nat 101) with 101 in *. lia.
Qed.

Lemma lux_scan_stops_after_gap_witness :
  LuxScan.scan_lux_nft_holders sample_ownerOf 1000
  = LuxScan.scan_lux_nft_holders sample_ownerOf 105.
Proof.
  apply (lux_scan_stops_after_gap sample_ownerOf 4 1000); [lia| |lia].
  intros t Ht. eexists. unfold sample_ownerOf.
  rewrite !decide_False by lia. by split.
Defined.

(** * The distribution of holders *)

Lemma count_of_increment key key' d :
  LuxScan.count_of key (LuxScan.increment key' d)
  = LuxScan.count_of key d + (if decide (key = key') then 1 else 0).
Proof.
  induction d as [|[k n] d IH]; simpl.
  - repeat case_decide; simplify_eq; lia.
  - repeat (case_decide; simpl; simplify_eq); first [lia | by rewrite IH].
Qed.

Lemma count_of_foldl label (rows : list (string * LuxScan.holder_data)) acc :
  LuxScan.count_of label
    (foldl (λ d row,
              LuxScan.increment (LuxScan.bucket (LuxScan.token_count row.2)) d)
           acc rows)
  = LuxScan.count_of label acc
    + Z.of_nat
        (length (filter (λ row,
                           LuxScan.bucket (LuxScan.token_count row.2) = label)
                        rows)).
Proof.
  revert acc. induction rows as [|row rows IH]; intros acc; simpl; [lia|].
  rewrite IH, count_of_increment, filter_cons.
  repeat case_decide; simplify_eq; simpl; lia.
Qed.

Lemma bucket_cases count :
  LuxScan.bucket count = "1 NFT" ∨ LuxScan.bucket count = "2-5 NFTs"
  ∨ LuxScan.bucket count = "6-10 NFTs" ∨ LuxScan.bucket count = "11+ NFTs".
Proof. unfold LuxScan.bucket. repeat case_decide; auto. Qed.

Lemma bucket_partition (rows : list (string * LuxScan.holder_data)) :
  (length (filter (λ row, LuxScan.bucket (LuxScan.token_count row.2) = "1 NFT")
                  rows)
   + length (filter (λ row,
                       LuxScan.bucket (LuxScan.token_count row.2) = "2-5 NFTs")
                    rows)
   + length (filter (λ row,
                       LuxScan.bucket (LuxScan.token_count row.2) = "6-10 NFTs")
                    rows)
   + length (filter (λ row,
                       LuxScan.bucket (LuxScan.token_count row.2) = "11+ NFTs")
                    rows))%nat
  = length rows.
Proof.
  induction rows as [|row rows IH]; [done|].
  rewrite !filter_cons.
  destruct (bucket_cases (LuxScan.token_count row.2))
    as [Hb|[Hb|[Hb|Hb]]]; rewrite Hb;
    repeat (case_decide; [done || (simpl; lia)|]); simplify_eq.
Qed.

(** X19: in a result of the scanner, the count stored in the distribution
    under a label is the number of holder rows whose token count falls in
    that label's bucket (exactly 1, 2 to 5, 6 to 10, more than 10; a count of
    0 would fall under "2-5 NFTs"), and the counts of the four labels add up
    to [unique_holders]. *)
Theorem lux_distribution_counts st :
  let res := LuxScan.results_of st in
  let d := LuxScan.distribution (LuxScan.result_summary res) in
  (∀ label,
     LuxScan.count_of label d
     = Z.of_nat
         (length (filter (λ row,
                            LuxScan.bucket (LuxScan.token_count row.2) = label)
                         (LuxScan.holder_rows res))))
  ∧ LuxScan.count_of "1 NFT" d + LuxScan.count_of "2-5 NFTs" d
    + LuxScan.count_of "6-10 NFTs" d + LuxScan.count_of "11+ NFTs" d
    = Z.of_nat (LuxScan.unique_holders res)
  ∧ LuxScan.bucket 0 = "2-5 NFTs".
Proof.
  intros res d.
  assert (∀ label,
     LuxScan.count_of label d
     = Z.of_nat
         (length (filter (λ row,
                            LuxScan.bucket (LuxScan.token_count row.2) = label)
                         (LuxScan.holder_rows res)))) as Hcount.
  { intros label. subst d res. unfold LuxScan.results_of.
    cbn [LuxScan.result_summary LuxScan.distribution LuxScan.holder_rows].
    unfold LuxScan.distribution_of. rewrite count_of_foldl. simpl. lia. }
  split_and!; [done| |done].
  rewrite !Hcount.
  pose proof (bucket_partition (LuxScan.holder_rows res)) as Hpart.
  assert (length (LuxScan.holder_rows res) = LuxScan.unique_holders res)
    as Hlen.
  { subst res. unfold LuxScan.results_of.
    cbn [LuxScan.holder_rows LuxScan.unique_holders]. by rewrite length_fmap. }
  lia.
Qed.

(** * Reading the burn logs *)

Lemma logs_between_split {L : Type} (block_logs : Z → list L) a m b :
  a ≤ m → m ≤ b →
  BurnLogs.logs_between block_logs a m
  ++ BurnLogs.logs_between block_logs (m + 1) b
  = BurnLogs.logs_between block_logs a b.
Proof.
  intros Ham Hmb. unfold BurnLogs.logs_between.
  rewrite <-concat_app, <-fmap_app. f_equal. f_equal.
  replace (b - a + 1) with ((m - a + 1) + (b - (m + 1) + 1)) by lia.
  rewrite (seqZ_app a (m - a + 1) (b - (m + 1) + 1)) by lia.
  by replace (a + (m - a + 1)) with (m + 1) by lia.
Qed.

(** X20: against a node that answers every range either with the logs of
    its blocks or with an error that marks the range as too large, and that
    never rejects a single block, [scan_burns_in_range] returns, for a range
    of at least one block, exactly the logs of the blocks of the range in
    block order, as soon as the depth allowed is more than the width of the
    range. *)
Theorem scan_burns_in_range_complete {L : Type}
    (get_logs : Z → Z → BurnLogs.answer L) (block_logs : Z → list L)
    (fuel : nat) from_block to_block :
  (∀ a b, a ≤ b →
     get_logs a b = BurnLogs.Logs (BurnLogs.logs_between block_logs a b)
     ∨ (a < b ∧ ∃ message, get_logs a b = BurnLogs.Fails message
                           ∧ BurnLogs.range_too_large message = true)) →
  from_block ≤ to_block →
  (Z.to_nat (to_block - from_block) < fuel)%nat →
  BurnLogs.scan_burns_in_range fuel get_logs from_block to_block
  = Some (BurnLogs.logs_between block_logs from_block to_block).
Proof.
  intros Hnode. revert from_block to_block.
  induction fuel as [|fuel IH]; intros a b Hab Hfuel; [lia|].
  cbn [BurnLogs.scan_burns_in_range].
  destruct (Hnode a b Hab) as [->|(Hlt & message & -> & ->)]; [done|].
  pose proof (midpoint_bounds a b Hlt) as Hmid.
  rewrite (IH a ((a + b) `div` 2)) by lia. cbn [mbind option_bind].
  rewrite (IH ((a + b) `div` 2 + 1) b) by lia. cbn [mbind option_bind].
  f_equal. apply logs_between_split; lia.
Qed.

Lemma concat_singletons {A : Type} (l : list A) :
  concat ((λ x, [x]) <$> l) = l.
Proof. induction l as [|x l IH]; csimpl; by f_equal. Qed.

Lemma scan_burns_in_range_complete_witness :
  BurnLogs.scan_burns_in_range 10 sample_node 1 10 = Some (seqZ 1 10).
Proof.
  rewrite <-(concat_singletons (seqZ 1 10)).
  apply (scan_burns_in_range_complete sample_node (λ b, [b]) 10 1 10);
    [|lia|lia].
  intros a b Hab. unfold sample_node. case_decide.
  - left. f_equal. unfold BurnLogs.logs_between.
    by rewrite concat_singletons.
  - right. split; [lia|]. by eexists.
Defined.

(** * The X-Chain genesis allocations *)

Lemma elem_of_setitem key value d k v :
  (k, v) ∈ Genesis.setitem key value d → (k, v) ∈ d ∨ (k, v) = (key, value).
Proof.
  induction d as [|[k' v'] d IH]; cbn [Genesis.setitem].
  - rewrite list_elem_of_singleton. by right.
  - case_decide as Hk; rewrite !elem_of_cons.
    + subst k'. naive_solver.
    + naive_solver.
Qed.

Lemma elem_of_load_entries entries acc k v :
  (k, v) ∈ Genesis.load_entries entries acc →
  (k, v) ∈ acc ∨ ∃ z, (k, Some z) ∈ entries ∧ v = z * 10 ^ 9.
Proof.
  revert acc. induction entries as [|[addr [z|]] rest IH]; intros acc;
    cbn [Genesis.load_entries]; [by left| |by left].
  intros [Hin|(z' & Hin & ->)]%IH.
  - apply elem_of_setitem in Hin as [Hin|[= -> ->]]; [by left|].
    right. exists z. split; [left|done].
  - right. exists z'. split; [by right|done].
Qed.

Lemma load_entries_stops pre addr post acc :
  Genesis.load_entries (pre ++ (addr, None) :: post) acc
  = Genesis.load_entries pre acc.
Proof.
  revert acc. induction pre as [|[a [z|]] pre IH]; intros acc;
    cbn [app Genesis.load_entries]; [done|apply IH|done].
Qed.

Lemma add_validators_prefix validators pre :
  pre `prefix_of` foldl Genesis.add_validator pre validators.
Proof.
  revert pre. induction validators as [|b validators IH]; intros pre;
    cbn [foldl]; [done|].
  unfold Genesis.add_validator at 2. case_decide; [|apply IH].
  trans (pre ++ [Genesis.bootstrap_entry b]); [by apply prefix_app_r|apply IH].
Qed.

Lemma add_validators_funded validators pre b :
  b ∈ validators →
  ∃ a, a ∈ foldl Genesis.add_validator pre validators
       ∧ lower (Genesis.ethAddr a) = lower b.
Proof.
  revert pre. induction validators as [|b' validators IH]; intros pre;
    [by intros ?%elem_of_nil|].
  intros [->|Hin]%elem_of_cons; [|by apply IH].
  cbn [foldl].
  assert (∃ a, a ∈ Genesis.add_validator pre b'
               ∧ lower (Genesis.ethAddr a) = lower b') as (a & Ha & Hlow).
  { unfold Genesis.add_validator. case_decide as Hnew.
    - exists (Genesis.bootstrap_entry b'). split; [|done].
      apply elem_of_app. right. left.
    - apply list_elem_of_fmap in Hnew as (a & Hlow & Ha). by exists a. }
  exists a. split; [|done].
  eapply elem_of_prefix; [exact Ha|apply add_validators_prefix].
Qed.

Lemma filter_ext_in {A} (P Q : A → Prop) `{!∀ x, Decision (P x)}
    `{!∀ x, Decision (Q x)} (l : list A) :
  (∀ x, x ∈ l → P x ↔ Q x) → filter P l = filter Q l.
Proof.
  induction l as [|x l IH]; intros Hext; [done|].
  rewrite !filter_cons.
  assert (P x ↔ Q x) as Hx by (apply Hext; left).
  rewrite IH by (intros y Hy; apply Hext; by right).
  repeat case_decide; tauto || done.
Qed.

Lemma add_validators_filter validators pre :
  NoDup (lower <$> validators) →
  foldl Genesis.add_validator pre validators
  = pre ++ (Genesis.bootstrap_entry <$>
              filter (λ b, lower b ∉ (lower ∘ Genesis.ethAddr <$> pre))
                     validators).
Proof.
  revert pre. induction validators as [|b validators IH]; intros pre;
    [intros _; cbn; by rewrite app_nil_r|].
  rewrite fmap_cons. intros [Hb Hnodup]%NoDup_cons.
  cbn [foldl]. rewrite filter_cons. unfold Genesis.add_validator.
  case_decide as Hnew; [|by apply IH].
  rewrite IH by done. rewrite fmap_cons, <- app_assoc. cbn [app].
  do 3 f_equal. apply filter_ext_in. intros b' Hin.
  rewrite fmap_app, elem_of_app, fmap_cons, elem_of_cons. cbn.
  split; [tauto|]. intros Hpre [Hold|[Heq|[]%elem_of_nil]]; [done|].
  apply Hb. rewrite <- Heq. apply list_elem_of_fmap. by exists b'.
Qed.

(** X22: every bootstrap validator is in the genesis allocations under its
    address or a spelling of it in another letter case, whatever the file of
    ZOO allocations holds. *)
Theorem bootstrap_validators_are_funded zoo_file b :
  b ∈ Genesis.bootstrap_validators →
  ∃ a, a ∈ Genesis.all_allocations zoo_file
       ∧ lower (Genesis.ethAddr a) = lower b.
Proof. apply add_validators_funded. Qed.

Lemma bootstrap_validators_are_funded_witness :
  "0x8d5081153aE1cfb41f5c932fe0b6Beb7E159cF84" ∈ Genesis.bootstrap_validators
  ∧ ∃ a, a ∈ Genesis.all_allocations
               (Some [("0x8D5081153AE1CFB41F5C932FE0B6BEB7E159CF84", Some 3)])
         ∧ lower (Genesis.ethAddr a)
           = lower "0x8d5081153aE1cfb41f5c932fe0b6Beb7E159cF84".
Proof.
  assert ("0x8d5081153aE1cfb41f5c932fe0b6Beb7E159cF84"
          ∈ Genesis.bootstrap_validators) as Hin.
  { unfold Genesis.bootstrap_validators. do 2 right. left. }
  split; [exact Hin|].
  exact (bootstrap_validators_are_funded _ _ Hin).
Defined.

Lemma all_allocations_split zoo_file :
  Genesis.all_allocations zoo_file
  = (Genesis.zoo_entry <$> Genesis.load_zoo_allocations zoo_file)
    ++ (Genesis.bootstrap_entry <$>
          filter (λ b, lower b
                       ∉ (lower ∘ fst <$> Genesis.load_zoo_allocations zoo_file))
                 Genesis.bootstrap_validators).
Proof.
  unfold Genesis.all_allocations, Genesis.allocations_with.
  rewrite add_validators_filter.
  - do 2 f_equal. apply list_filter_iff. intros b.
    by rewrite <- list_fmap_compose.
  - by vm_compute; repeat constructor; rewrite ?elem_of_cons, ?elem_of_nil;
      intuition discriminate.
Qed.

(** X23: the genesis allocations are the ZOO allocations in the order of the
    file, followed by the bootstrap validators whose address, letter case
    apart, is not among them: a validator with a ZOO allocation keeps that
    amount and gets no bootstrap funds. *)
Theorem validators_with_zoo_get_no_bootstrap_funds zoo_file :
  let zoo_allocations := Genesis.load_zoo_allocations zoo_file in
  Genesis.all_allocations zoo_file
  = (Genesis.zoo_entry <$> zoo_allocations)
    ++ (Genesis.bootstrap_entry <$>
          filter (λ b, lower b ∉ (lower ∘ fst <$> zoo_allocations))
                 Genesis.bootstrap_validators).
Proof. intros zoo_allocations. apply all_allocations_split. Qed.

(** X24: an entry of the ZOO file without [zoo_equivalent] ends the loading
    silently: the entries before it are allocated, the entries after it are
    not, and the genesis is the one of the file cut before that entry. *)
Theorem zoo_entries_after_a_bad_one_are_dropped pre addr post :
  Genesis.all_allocations (Some (pre ++ (addr, None) :: post))
  = Genesis.all_allocations (Some pre).
Proof.
  unfold Genesis.all_allocations, Genesis.load_zoo_allocations.
  by rewrite load_entries_stops.
Qed.

(** X25: every genesis allocation is either the bootstrap funds of a
    bootstrap validator or a [zoo_equivalent] of the file, under its address
    there, times 10^9; its X-Chain address is the Ethereum address with the
    first two characters replaced by [X-lux1], and nothing is locked. *)
Theorem allocation_provenance zoo_file a :
  a ∈ Genesis.all_allocations zoo_file →
  Genesis.avaxAddr a = "X-lux1" +:+ Py.drop_chars 2 (Genesis.ethAddr a)
  ∧ Genesis.unlockSchedule a = []
  ∧ ((Genesis.ethAddr a ∈ Genesis.bootstrap_validators
      ∧ Genesis.initialAmount a = 10 ^ 17)
     ∨ ∃ entries zoo_equivalent,
         zoo_file = Some entries
         ∧ (Genesis.ethAddr a, Some zoo_equivalent) ∈ entries
         ∧ Genesis.initialAmount a = zoo_equivalent * 10 ^ 9).
Proof.
  rewrite all_allocations_split, elem_of_app, !list_elem_of_fmap.
  intros [(item & -> & Hitem)|(b & -> & Hb)]; (split; [done|split; [done|]]).
  - right. destruct item as [k v]. destruct zoo_file as [entries|];
      cbn [Genesis.load_zoo_allocations] in Hitem;
      [|by apply elem_of_nil in Hitem].
    apply elem_of_load_entries in Hitem as [[]%elem_of_nil|(z & Hin & ->)].
    by exists entries, z.
  - left. apply list_elem_of_filter in Hb as [_ Hb]. done.
Qed.

Lemma allocation_provenance_witness :
  let a := Genesis.zoo_entry ("0xabcdef", 5000000000) in
  a ∈ Genesis.all_allocations (Some [("0xabcdef", Some 5)])
  ∧ Genesis.avaxAddr a = "X-lux1abcdef"
  ∧ Genesis.initialAmount a = 5 * 10 ^ 9.
Proof.
  intros a.
  assert (a ∈ Genesis.all_allocations (Some [("0xabcdef", Some 5)])) as Hin
    by (vm_compute; left).
  split; [exact Hin|].
  destruct (allocation_provenance _ _ Hin) as (Havax & _ & _).
  split; [exact Havax|reflexivity].
Defined.

(** * The EGG allocations *)

Lemma eggs_get_setitem_eq {V} key (value : V) d :
  Eggs.get key (Eggs.setitem key value d) = Some value.
Proof.
  induction d as [|[k v] d IH]; cbn [Eggs.setitem Eggs.get].
  - by rewrite decide_True.
  - case_decide as Hk; cbn [Eggs.get]; [by rewrite decide_True|].
    by rewrite decide_False.
Qed.

Lemma eggs_get_setitem_ne {V} key key' (value : V) d :
  key ≠ key' →
  Eggs.get key (Eggs.setitem key' value d) = Eggs.get key d.
Proof.
  intros Hne. induction d as [|[k v] d IH]; cbn [Eggs.setitem Eggs.get].
  - by rewrite decide_False.
  - case_decide as Hk; cbn [Eggs.get]; [subst k; by rewrite !decide_False|].
    by rewrite IH.
Qed.

Lemma eggs_setitem_new {V} key (value : V) d :
  key ∉ d.*1 → Eggs.setitem key value d = d ++ [(key, value)].
Proof.
  induction d as [|[k v] d IH]; [done|].
  rewrite fmap_cons, not_elem_of_cons. cbn. intros [Hne Hnotin].
  rewrite decide_False by done. by rewrite IH.
Qed.

Lemma eggs_setitem_Forall {V} (P : V → Prop) key value d :
  P value → Forall (P ∘ snd) d → Forall (P ∘ snd) (Eggs.setitem key value d).
Proof.
  intros Hvalue. induction 1 as [|[k v] d Hv Hd IH]; cbn [Eggs.setitem].
  - by repeat constructor.
  - case_decide; constructor; done.
Qed.

Lemma eggs_sum_from l acc : foldl Z.add acc l = acc + Eggs.sum l.
Proof.
  unfold Eggs.sum. revert acc. induction l as [|x l IH]; intros acc;
    cbn [foldl]; [lia|].
  rewrite (IH (acc + x)), (IH (0 + x)). lia.
Qed.

Lemma eggs_sum_cons x l : Eggs.sum (x :: l) = x + Eggs.sum l.
Proof. unfold Eggs.sum at 1. cbn [foldl]. by rewrite eggs_sum_from. Qed.

Lemma eggs_sum_app l1 l2 : Eggs.sum (l1 ++ l2) = Eggs.sum l1 + Eggs.sum l2.
Proof.
  induction l1 as [|x l1 IH]; [done|].
  cbn [app]. rewrite !eggs_sum_cons, IH. lia.
Qed.

Lemma known_addresses_lower addr :
  addr ∈ Eggs.known_addresses → lower addr = addr.
Proof.
  assert (Forall (λ k, lower k = k) Eggs.known_addresses) as Hall
    by (vm_compute; repeat constructor).
  rewrite Forall_forall in Hall. apply Hall.
Qed.

Lemma additional_not_known addr :
  Eggs.additional addr → addr ∉ Eggs.known_addresses.
Proof.
  intros [Hlow _] Hin. apply Hlow. by rewrite known_addresses_lower.
Qed.

Lemma add_known_allocations :
  foldl Eggs.add_known {| Eggs.xchain_allocations := []; Eggs.added := 0 |}
        Eggs.KNOWN_HOLDERS
  = {| Eggs.xchain_allocations :=
         prod_map id Eggs.spreadsheet_allocation <$> Eggs.KNOWN_HOLDERS;
       Eggs.added := 0 |}.
Proof. vm_compute. reflexivity. Qed.

Lemma fst_prod_map_id {A B C} (f : B → C) (l : list (A * B)) :
  (prod_map id f <$> l).*1 = l.*1.
Proof. induction l as [|[a b] l IH]; [done|]. cbn. by rewrite IH. Qed.

Lemma allocate_snoc scanned_holders item :
  Eggs.allocate (scanned_holders ++ [item])
  = Eggs.add_scanned (Eggs.allocate scanned_holders) item.
Proof. unfold Eggs.allocate. by rewrite foldl_app. Qed.

(** The allocations after the second loop, when the keys of the scanned
    holders are pairwise distinct. *)
Lemma allocate_split scanned_holders :
  NoDup scanned_holders.*1 →
  Eggs.allocate scanned_holders
  = {| Eggs.xchain_allocations :=
         (prod_map id Eggs.spreadsheet_allocation <$> Eggs.KNOWN_HOLDERS)
         ++ (prod_map id Eggs.scan_allocation
               <$> filter (λ item, Eggs.additional item.1) scanned_holders);
       Eggs.added :=
         Eggs.sum (Eggs.Scanned.token_count ∘ snd
                     <$> filter (λ item, Eggs.additional item.1)
                                scanned_holders) |}.
Proof.
  induction scanned_holders as [|item l IH] using rev_ind; intros Hnodup.
  - unfold Eggs.allocate. cbn [foldl]. rewrite add_known_allocations.
    by rewrite filter_nil, app_nil_r.
  - rewrite fmap_app in Hnodup. apply NoDup_app in Hnodup as (Hl & Hitem & _).
    rewrite allocate_snoc, IH by done. clear IH.
    rewrite filter_app, filter_cons, filter_nil.
    unfold Eggs.add_scanned. case_decide as Hadd;
      [|by rewrite app_nil_r].
    cbn [Eggs.xchain_allocations Eggs.added]. f_equal.
    + rewrite eggs_setitem_new.
      * by rewrite fmap_app, app_assoc.
      * rewrite fmap_app, !fst_prod_map_id, elem_of_app.
        intros [Hknown|Hseen].
        -- by apply (additional_not_known item.1).
        -- apply (Hitem item.1); [|cbn; left].
           apply list_elem_of_fmap in Hseen as (item' & -> & Hin).
           apply list_elem_of_filter in Hin as [_ Hin].
           apply list_elem_of_fmap. by exists item'.
    + rewrite fmap_app, eggs_sum_app. cbn [fmap list_fmap].
      rewrite eggs_sum_cons. unfold Eggs.sum at 3. cbn. lia.
Qed.

Lemma allocate_zoo_equivalent scanned_holders :
  Forall ((λ a, Eggs.Allocation.zoo_equivalent a
                = Eggs.Allocation.eggs a * 4200000) ∘ snd)
         (Eggs.xchain_allocations (Eggs.allocate scanned_holders)).
Proof.
  induction scanned_holders as [|item l IH] using rev_ind.
  - unfold Eggs.allocate. cbn [foldl]. rewrite add_known_allocations.
    cbn [Eggs.xchain_allocations]. apply Forall_fmap, Forall_forall.
    by intros [addr data] _.
  - rewrite allocate_snoc. unfold Eggs.add_scanned. case_decide; [|done].
    cbn [Eggs.xchain_allocations]. by apply eggs_setitem_Forall.
Qed.

Lemma allocate_keeps_known scanned_holders addr :
  addr ∈ Eggs.known_addresses →
  Eggs.get addr (Eggs.xchain_allocations (Eggs.allocate scanned_holders))
  = Eggs.get addr (prod_map id Eggs.spreadsheet_allocation
                     <$> Eggs.KNOWN_HOLDERS).
Proof.
  intros Hknown. induction scanned_holders as [|item l IH] using rev_ind.
  - unfold Eggs.allocate. cbn [foldl]. by rewrite add_known_allocations.
  - rewrite allocate_snoc. unfold Eggs.add_scanned. case_decide as Hadd;
      [|done].
    cbn [Eggs.xchain_allocations]. rewrite eggs_get_setitem_ne; [done|].
    intros ->. by apply (additional_not_known item.1).
Qed.

Lemma eggs_get_None {V} key (d : list (string * V)) :
  Eggs.get key d = None ↔ key ∉ d.*1.
Proof.
  induction d as [|[k v] d IH]; cbn [Eggs.get].
  - split; [intros _ []%elem_of_nil|done].
  - rewrite fmap_cons, not_elem_of_cons. cbn. case_decide; naive_solver.
Qed.

Lemma count_extras_cases scanned_holders order extra_eggs :
  match Eggs.count_extras scanned_holders order extra_eggs with
  | Ok _ =>
      ∀ addr, addr ∈ order →
        addr ∈ Eggs.known_addresses ∨ addr = Eggs.purchase_addr
        ∨ addr ∈ scanned_holders.*1
  | Raise e =>
      ∃ addr, addr ∈ order ∧ e = KeyError addr
              ∧ (addr ∉ Eggs.known_addresses) ∧ addr ≠ Eggs.purchase_addr
              ∧ (addr ∉ scanned_holders.*1)
  end.
Proof.
  revert extra_eggs. induction order as [|addr rest IH]; intros extra_eggs;
    cbn [Eggs.count_extras]; [by intros ? ?%elem_of_nil|].
  assert (∀ n, match Eggs.count_extras scanned_holders rest n with
               | Ok _ =>
                   (addr ∈ Eggs.known_addresses ∨ addr = Eggs.purchase_addr
                    ∨ addr ∈ scanned_holders.*1) →
                   ∀ addr', addr' ∈ addr :: rest →
                     addr' ∈ Eggs.known_addresses ∨ addr' = Eggs.purchase_addr
                     ∨ addr' ∈ scanned_holders.*1
               | Raise e =>
                   ∃ addr', addr' ∈ addr :: rest ∧ e = KeyError addr'
                            ∧ (addr' ∉ Eggs.known_addresses)
                            ∧ addr' ≠ Eggs.purchase_addr
                            ∧ (addr' ∉ scanned_holders.*1)
               end) as Hrest.
  { intros n. specialize (IH n).
    destruct (Eggs.count_extras scanned_holders rest n) as [?|e].
    - intros Haddr addr' [->|Hin]%elem_of_cons; [done|by apply IH].
    - destruct IH as (addr' & Hin & Hrest). exists addr'.
      split; [by right|done]. }
  unfold Eggs.count_extra. case_decide as Hcheck.
  - destruct (Eggs.get addr scanned_holders) as [holder|] eqn:Hget; cbn [mbind result_bind].
    + assert (addr ∈ scanned_holders.*1) as Hkey.
      { destruct (decide (addr ∈ scanned_holders.*1)) as [|Hnot]; [done|].
        apply eggs_get_None in Hnot. congruence. }
      case_decide; cbn [mbind result_bind].
      * specialize (Hrest (extra_eggs + Eggs.Scanned.token_count holder)).
        destruct (Eggs.count_extras _ _ _); [|done]. apply Hrest. auto.
      * specialize (Hrest extra_eggs).
        destruct (Eggs.count_extras _ _ _); [|done]. apply Hrest. auto.
    + apply eggs_get_None in Hget. destruct Hcheck as [Hknown Hpurchase].
      exists addr. split_and!; [left|done..].
  - cbn [mbind result_bind]. specialize (Hrest extra_eggs).
    destruct (Eggs.count_extras _ _ _); [|done]. apply Hrest.
    destruct (decide (addr ∈ Eggs.known_addresses)); [by left|].
    destruct (decide (addr = Eggs.purchase_addr)); [by right; left|].
    by destruct Hcheck.
Qed.

Lemma main_Ok order scanned_holders st :
  Eggs.main order scanned_holders = Ok st →
  st = Eggs.allocate scanned_holders.
Proof.
  unfold Eggs.main. destruct (Eggs.count_extras _ _ _); cbn; congruence.
Qed.

(** X26: whenever the script reaches the end, the total of ZOO of the saved
    summary is 4,200,000 times its total of EGGs. *)
Theorem egg_summary_zoo_equivalent order scanned_holders st :
  Eggs.main order scanned_holders = Ok st →
  Eggs.total_zoo_equivalent (Eggs.summary_of st)
  = Eggs.total_eggs (Eggs.summary_of st) * 4200000.
Proof.
  intros ->%main_Ok.
  cbn. generalize (allocate_zoo_equivalent scanned_holders).
  generalize (Eggs.xchain_allocations (Eggs.allocate scanned_holders)).
  induction 1 as [|[addr a] l Ha Hl IH]; [done|].
  rewrite !fmap_cons, !eggs_sum_cons, IH. cbn in Ha |- *. lia.
Qed.

Lemma egg_summary_zoo_equivalent_witness :
  let scanned_holders :=
    [("0xaaaa000000000000000000000000000000000001",
      Eggs.Scanned.Build_t 2 [146; 147])] in
  let order := ["0xaaaa000000000000000000000000000000000001"] in
  ∃ st, Eggs.main order scanned_holders = Ok st
        ∧ Eggs.total_eggs (Eggs.summary_of st) = 117
        ∧ Eggs.total_zoo_equivalent (Eggs.summary_of st) = 117 * 4200000.
Proof.
  intros scanned_holders order.
  exists (Eggs.allocate scanned_holders).
  assert (Eggs.main order scanned_holders
          = Ok (Eggs.allocate scanned_holders)) as Hmain
    by (vm_compute; reflexivity).
  split; [exact Hmain|]. split; [vm_compute; reflexivity|].
  rewrite (egg_summary_zoo_equivalent _ _ _ Hmain). vm_compute. reflexivity.
Defined.

(** X27: whenever the script reaches the end, a holder of the spreadsheet
    has the allocation of the spreadsheet, whatever the scan says about that
    address in any letter case. *)
Theorem known_holder_keeps_spreadsheet_allocation
    order scanned_holders st addr data :
  Eggs.main order scanned_holders = Ok st →
  (addr, data) ∈ Eggs.KNOWN_HOLDERS →
  Eggs.get addr (Eggs.xchain_allocations st)
  = Some (Eggs.spreadsheet_allocation data).
Proof.
  intros ->%main_Ok Hin. rewrite allocate_keeps_known.
  - assert (Forall (λ item, Eggs.get item.1
                              (prod_map id Eggs.spreadsheet_allocation
                                 <$> Eggs.KNOWN_HOLDERS)
                            = Some (Eggs.spreadsheet_allocation item.2))
                   Eggs.KNOWN_HOLDERS) as Hall
      by (vm_compute; repeat constructor).
    rewrite Forall_forall in Hall. apply (Hall _ Hin).
  - apply list_elem_of_fmap. by exists (addr, data).
Qed.

Lemma known_holder_keeps_spreadsheet_allocation_witness :
  let addr := "0x9dd1ed97a2aa965de37b087fa95e6ddb7c5e4d5f" in
  let data := Eggs.Known.Build_t 1 ["122"] in
  let scanned_holders :=
    [("0x9DD1ED97A2AA965DE37B087FA95E6DDB7C5E4D5F",
      Eggs.Scanned.Build_t 7 [1; 2; 3; 4; 5; 6; 7]);
     ("0x9dd1ed97a2aa965de37b087fa95e6ddb7c5e4d5f",
      Eggs.Scanned.Build_t 0 [])] in
  let order := ["0x9dd1ed97a2aa965de37b087fa95e6ddb7c5e4d5f"] in
  (addr, data) ∈ Eggs.KNOWN_HOLDERS
  ∧ ∃ st, Eggs.main order scanned_holders = Ok st
          ∧ Eggs.get addr (Eggs.xchain_allocations st)
            = Some (Eggs.Allocation.Build_t 1 4200000 "spreadsheet" ["122"]).
Proof.
  intros addr data scanned_holders order.
  assert ((addr, data) ∈ Eggs.KNOWN_HOLDERS) as Hin
    by (unfold Eggs.KNOWN_HOLDERS; right; left).
  split; [exact Hin|].
  exists (Eggs.allocate scanned_holders).
  assert (Eggs.main order scanned_holders
          = Ok (Eggs.allocate scanned_holders)) as Hmain
    by (vm_compute; reflexivity).
  split; [exact Hmain|].
  exact (known_holder_keeps_spreadsheet_allocation _ _ _ _ _ Hmain Hin).
Defined.

(** X28: when the addresses of the scan are pairwise distinct as written
    and the script reaches the end, the saved summary counts the holders of
    the spreadsheet and the scanned holders allocated besides them, and its
    total of EGGs is the total of the spreadsheet plus [from_bsc_scan], which
    is a number of EGGs, not of addresses. *)
Theorem egg_summary_totals order scanned_holders st :
  NoDup scanned_holders.*1 →
  Eggs.main order scanned_holders = Ok st →
  let summary := Eggs.summary_of st in
  let admitted := filter (λ item, Eggs.additional item.1) scanned_holders in
  Eggs.total_addresses summary
  = (Eggs.from_spreadsheet summary + length admitted)%nat
  ∧ Eggs.from_bsc_scan summary
    = Eggs.sum (Eggs.Scanned.token_count ∘ snd <$> admitted)
  ∧ Eggs.total_eggs summary = Eggs.known_total + Eggs.from_bsc_scan summary.
Proof.
  intros Hnodup ->%main_Ok summary admitted. subst summary.
  rewrite (allocate_split _ Hnodup). fold admitted.
  unfold Eggs.summary_of.
  cbn [Eggs.total_addresses Eggs.from_spreadsheet Eggs.from_bsc_scan
       Eggs.total_eggs Eggs.xchain_allocations Eggs.added].
  split_and!.
  - by rewrite length_app, !length_fmap.
  - done.
  - rewrite fmap_app, eggs_sum_app, <- !list_fmap_compose. f_equal.
Qed.

Lemma egg_summary_totals_witness :
  let scanned_holders :=
    [("0xaaaa000000000000000000000000000000000001",
      Eggs.Scanned.Build_t 2 [146; 147]);
     ("0x28dad8427f127664365109c4a9406c8bc7844718",
      Eggs.Scanned.Build_t 30 []);
     ("0x9011E888251AB053B7bD1cdB598Db4f9DEd94714",
      Eggs.Scanned.Build_t 1 [33])] in
  let order :=
    ["0x9011e888251ab053b7bd1cdb598db4f9ded94714";
     "0xaaaa000000000000000000000000000000000001";
     "0x28dad8427f127664365109c4a9406c8bc7844718"] in
  NoDup scanned_holders.*1
  ∧ ∃ st, Eggs.main order scanned_holders = Ok st
          ∧ Eggs.total_addresses (Eggs.summary_of st) = 28%nat
          ∧ Eggs.from_bsc_scan (Eggs.summary_of st) = 2
          ∧ Eggs.total_eggs (Eggs.summary_of st) = 117.
Proof.
  intros scanned_holders order.
  assert (NoDup scanned_holders.*1) as Hnodup.
  { apply NoDup_ListNoDup. vm_compute.
    repeat (constructor; [cbn; intuition discriminate|]). constructor. }
  split; [exact Hnodup|].
  exists (Eggs.allocate scanned_holders).
  assert (Eggs.main order scanned_holders
          = Ok (Eggs.allocate scanned_holders)) as Hmain
    by (vm_compute; reflexivity).
  split; [exact Hmain|].
  destruct (egg_summary_totals _ _ _ Hnodup Hmain)
    as (Haddresses & Hscan & Heggs).
  split_and!.
  - rewrite Haddresses. reflexivity.
  - rewrite Hscan. reflexivity.
  - rewrite Heggs, Hscan. reflexivity.
Defined.

(** X29: whenever the script reaches the end, the purchase address, spelled
    as the script spells it, has no allocation. *)
Theorem purchase_address_gets_no_allocation order scanned_holders st :
  Eggs.main order scanned_holders = Ok st →
  Eggs.get Eggs.purchase_addr (Eggs.xchain_allocations st) = None.
Proof.
  intros ->%main_Ok.
  induction scanned_holders as [|item l IH] using rev_ind.
  - unfold Eggs.allocate. cbn [foldl]. rewrite add_known_allocations.
    vm_compute. reflexivity.
  - rewrite allocate_snoc. unfold Eggs.add_scanned.
    case_decide as Hadd; [|done].
    cbn [Eggs.xchain_allocations]. rewrite eggs_get_setitem_ne; [done|].
    intros Heq. by destruct Hadd as [_ []].
Qed.

Lemma purchase_address_gets_no_allocation_witness :
  let scanned_holders :=
    [("0x28dad8427f127664365109c4a9406c8bc7844718",
      Eggs.Scanned.Build_t 30 [])] in
  let order := ["0x28dad8427f127664365109c4a9406c8bc7844718"] in
  ∃ st, Eggs.main order scanned_holders = Ok st
        ∧ Eggs.get Eggs.purchase_addr (Eggs.xchain_allocations st) = None.
Proof.
  intros scanned_holders order.
  exists (Eggs.allocate scanned_holders).
  assert (Eggs.main order scanned_holders
          = Ok (Eggs.allocate scanned_holders)) as Hmain
    by (vm_compute; reflexivity).
  split; [exact Hmain|].
  exact (purchase_address_gets_no_allocation _ _ _ Hmain).
Defined.

(** X30: the script reaches the end exactly when every address of the scan,
    put in lower case, is a holder of the spreadsheet, the purchase address
    or an address of the scan as written; otherwise line 87 raises
    [KeyError] for such an address in lower case, and no file is saved. *)
Theorem unknown_mixed_case_address_raises order scanned_holders :
  Eggs.enumerates order scanned_holders →
  match Eggs.main order scanned_holders with
  | Ok st =>
      st = Eggs.allocate scanned_holders
      ∧ ∀ addr, addr ∈ scanned_holders.*1 →
          lower addr ∈ Eggs.known_addresses
          ∨ lower addr = Eggs.purchase_addr
          ∨ lower addr ∈ scanned_holders.*1
  | Raise e =>
      ∃ addr, addr ∈ scanned_holders.*1 ∧ e = KeyError (lower addr)
              ∧ (lower addr ∉ Eggs.known_addresses)
              ∧ lower addr ≠ Eggs.purchase_addr
              ∧ (lower addr ∉ scanned_holders.*1)
  end.
Proof.
  intros [_ Horder]. unfold Eggs.main.
  pose proof (count_extras_cases scanned_holders order 0) as Hcases.
  destruct (Eggs.count_extras scanned_holders order 0) as [n|e]; cbn.
  - split; [done|]. intros addr Hin. apply Hcases, Horder.
    apply list_elem_of_fmap in Hin as (item & -> & Hin).
    apply list_elem_of_fmap. by exists item.
  - destruct Hcases as (key & Hin & -> & Hrest).
    apply Horder, list_elem_of_fmap in Hin as (item & -> & Hin).
    exists item.1. split; [|done].
    apply list_elem_of_fmap. by exists item.
Qed.

Lemma unknown_mixed_case_address_raises_witness :
  let scanned_holders :=
    [("0xAAaa000000000000000000000000000000000001",
      Eggs.Scanned.Build_t 2 [146; 147])] in
  let order := ["0xaaaa000000000000000000000000000000000001"] in
  Eggs.enumerates order scanned_holders
  ∧ Eggs.main order scanned_holders
    = Raise (KeyError "0xaaaa000000000000000000000000000000000001").
Proof.
  intros scanned_holders order.
  assert (Eggs.enumerates order scanned_holders) as Henum.
  { split; [apply NoDup_singleton|]. intros addr. subst order scanned_holders.
    cbn. by rewrite !list_elem_of_singleton. }
  split; [exact Henum|].
  pose proof (unknown_mixed_case_address_raises _ _ Henum) as Hcases.
  destruct (Eggs.main order scanned_holders) as [st|e] eqn:Hmain.
  - vm_compute in Hmain. discriminate Hmain.
  - vm_compute in Hmain. exact (eq_sym Hmain).
Defined.
